(** * LatentOrderLikelihood: the sequential dyad-processing engine of lolog

    A shallow embedding of [inst/include/LatentOrderLikelihood.h] and the
    properties its specification states about it.

    Conventions of the embedding.
    - [int] and [long] values are unbounded integers [Z]; the loops of the
      engine count up to the vertex count of a network, far below the range
      where C++ [int] arithmetic would leave its range.
    - [double] values are exact rationals [Q]: every finite double is a dyadic
      rational, and rounding is not modelled.
    - [std::vector<T>] is [list T]; an access outside the vector is undefined
      behaviour in C++ and is a [Fail UndefinedBehaviour] result here.
    - Objects held through [boost::shared_ptr] and copied with [clone()] are
      immutable values; in-place mutation is explicit state passing.
    - Calls into R ([Rf_runif], [Rf_error], [Rcpp::Rcout]) act on a [world]
      that counts the uniform draws taken so far and collects what was
      printed.  [assert] is compiled out (R builds packages with NDEBUG). *)

From Stdlib Require Import ZArith QArith Qround Lia Lqa Permutation.
From stdpp Require Import base list strings.

#[local] Open Scope Z_scope.

(** ** Results, faults and the effect monad *)

Inductive fault : Type :=
| UndefinedBehaviour
| RfError (msg : string).

Inductive result (A : Type) : Type :=
| Ok (a : A)
| Fail (f : fault).
Arguments Ok {A} a.
Arguments Fail {A} f.

Record world : Type := World {
  rng_pos : nat;            (* number of unif_rand() draws taken so far *)
  Rcout : list string       (* text printed on Rcpp::Rcout, oldest first *)
}.

Definition prog (A : Type) : Type := world -> result (A * world).

Definition ret {A} (a : A) : prog A := fun w => Ok (a, w).

Definition bind {A B} (c : prog A) (k : A -> prog B) : prog B :=
  fun w => match c w with
           | Ok (a, w') => k a w'
           | Fail f => Fail f
           end.

Definition lift {A} (r : result A) : prog A :=
  fun w => match r with
           | Ok a => Ok (a, w)
           | Fail f => Fail f
           end.

Declare Scope prog_scope.
Delimit Scope prog_scope with prog.
Notation "x <- c ;; k" := (bind c (fun x => k))
  (at level 100, c at next level, right associativity) : prog_scope.
Notation "c ;;; k" := (bind c (fun _ => k))
  (at level 100, right associativity) : prog_scope.
#[local] Open Scope prog_scope.

(** [for (int i = lo; i < hi; i++) body] over a loop state [S]. *)
Fixpoint for_steps {S} (k : nat) (i : Z) (body : Z -> S -> prog S) (s : S)
  : prog S :=
  match k with
  | O => ret s
  | Datatypes.S k' => s' <- body i s ;; for_steps k' (i + 1) body s'
  end.

Definition for_range {S} (lo hi : Z) (body : Z -> S -> prog S) (s : S)
  : prog S :=
  for_steps (Z.to_nat (hi - lo)) lo body s.

(** ** Vectors *)

(** [vec[i]] as an rvalue. *)
Definition vec_get {T} (vec : list T) (i : Z) : result T :=
  if i <? 0 then Fail UndefinedBehaviour
  else match vec !! Z.to_nat i with
       | Some x => Ok x
       | None => Fail UndefinedBehaviour
       end.

(** [vec[i] = x]. *)
Definition vec_set {T} (vec : list T) (i : Z) (x : T) : result (list T) :=
  if i <? 0 then Fail UndefinedBehaviour
  else if (Z.to_nat i <? length vec)%nat then Ok (<[Z.to_nat i := x]> vec)
  else Fail UndefinedBehaviour.

(** [vec.size()] *)
Definition vsize {T} (vec : list T) : Z := Z.of_nat (length vec).

(** ** The R runtime *)

(** The stream of values that successive calls of R's [unif_rand()] return;
    it is fixed for a run, and [rng_pos] says how far the run has read. *)
Class RandomStream : Type := unif_rand : nat -> Q.

(** The C library's [exp] on doubles. *)
Class Libm : Type := exp : Q -> Q.

Definition Qltb (x y : Q) : bool := negb (Qle_bool y x).

(** Modelled from the spec: R's [Rf_runif(a, b)] (not in this repository)
    is the uniform-random-number source; it takes one draw [u] of the stream
    and returns [a + (b - a) * u].  Every call of the engine has [a < b]. *)
Definition Rf_runif {RS : RandomStream} (a b : Q) : prog Q :=
  fun w => Ok ((a + (b - a) * unif_rand (rng_pos w))%Q,
               {| rng_pos := Datatypes.S (rng_pos w); Rcout := Rcout w |}).

(** [Rcpp::Rcout << msg] *)
Definition Rcout_print (msg : string) : prog unit :=
  fun w => Ok (tt, {| rng_pos := rng_pos w; Rcout := Rcout w ++ [msg] |}).

(** [Rf_error(msg)] does not return. *)
Definition Rf_error {A} (msg : string) : prog A := fun _ => Fail (RfError msg).

(** ** shuffle *)

Section Shuffle.
Context {RS : RandomStream}.

(** Body of the loop of [shuffle]:
    [long ind = floor(Rf_runif(i,offset)); T tmp = vec[i];
     vec[i] = vec[ind]; vec[ind] = tmp;] *)
Definition shuffle_body {T} (offset : Z) (i : Z) (vec : list T)
  : prog (list T) :=
  u <- Rf_runif (inject_Z i) (inject_Z offset) ;;
  let ind := Qfloor u in
  tmp <- lift (vec_get vec i) ;;
  x <- lift (vec_get vec ind) ;;
  vec <- lift (vec_set vec i x) ;;
  lift (vec_set vec ind tmp).

(** [shuffle(vec, offset)]: the loop runs while [i < offset - 1.0]. *)
Definition shuffle {T} (vec : list T) (offset : Z) : prog (list T) :=
  for_range 0 (offset - 1) (shuffle_body offset) vec.
End Shuffle.

(** ** The collaborators: network, model, ranker *)

(** Modelled from the spec: the network data structure ([BinaryNet], whose
    header is not part of the sources) is "a mutable graph with a fixed vertex
    count, a directedness flag, edge presence query, edge toggle, ... full
    reset to empty, deep clone, and attachment of a discrete per-vertex
    annotation".  The engine only uses the operations below. *)
Class NetworkOps (Net : Type) : Type := {
  netSize : Net -> Z;                                  (* size() *)
  isDirected : Net -> bool;
  hasEdge : Net -> Z -> Z -> bool;
  toggle : Net -> Z -> Z -> Net;
  emptyGraph : Net -> Net;
  maxEdges : Net -> Z;
  addDiscreteVariable : Net -> list Z -> string -> Net
}.

(** Modelled from the spec: the statistical model ([Model.h], not part of the
    sources) "owns a network handle, a parameter vector, and the logic to
    compute the current sufficient-statistic vector, the current
    log-likelihood, and a tentative update operation that ... mutates internal
    caches as if the dyad were being decided -- without itself toggling the
    edge", with "a matching rollback".  [St] is the model's internal state
    (parameters, statistic caches, optional vertex order); the operations that
    look at the graph take the model's network as an argument and never change
    it.  Both [statistics()] and [statistics(v)], which stores the same
    vector in [v], are [statistics]. *)
Class ModelOps (Net St : Type) : Type := {
  calculate : Net -> St -> St;
  statistics : St -> list Q;
  logLik : St -> Q;
  thetas : St -> list Q;
  dyadUpdate : Net -> St -> Z -> Z -> list Z -> Z -> St;
  rollback : Net -> St -> St;
  hasVertexOrder : St -> bool;
  getVertexOrder : St -> list Z
}.

(** Modelled from the spec: [rank(x, y, "random")] of [Ranker.h] (not part of
    the sources), the "ranking/tie-breaking utility used to turn a continuous
    ordering covariate into a permutation"; it draws from the random stream
    and returns the ranks that it stores in [y]. *)
Class Ranker : Type := rank : list Z -> list Z -> string -> prog (list Z).

Section Engine.
Context {Net St : Type} {NO : NetworkOps Net} {MO : ModelOps Net St}.
Context {RS : RandomStream} {LM : Libm} {RK : Ranker}.

(** A model together with the network it is bound to. *)
Record Model : Type := mkModel {
  network : Net;
  internals : St
}.

Definition m_calculate (m : Model) : Model :=
  mkModel (network m) (calculate (network m) (internals m)).
Definition m_statistics (m : Model) : list Q := statistics (internals m).
Definition m_logLik (m : Model) : Q := logLik (internals m).
Definition m_dyadUpdate (m : Model) (from to : Z) (order : list Z)
  (actorIndex : Z) : Model :=
  mkModel (network m)
          (dyadUpdate (network m) (internals m) from to order actorIndex).
Definition m_rollback (m : Model) : Model :=
  mkModel (network m) (rollback (network m) (internals m)).
(** [m->network()->toggle(from, to)] *)
Definition m_toggle (m : Model) (from to : Z) : Model :=
  mkModel (toggle (network m) from to) (internals m).
(** [m->setNetwork(net)] *)
Definition setNetwork (m : Model) (net : Net) : Model :=
  mkModel net (internals m).

(** The engine: the model with the observed graph and the model with an
    empty graph. *)
Record LatentOrderLikelihood : Type := mkLOL {
  model : Model;
  noTieModel : Model
}.

(** [bool operator()(int a, int b) const { return target[a] < target[b]; }] *)
Definition IdxCompare (target : list Z) (a b : Z) : result bool :=
  match vec_get target a, vec_get target b with
  | Ok x, Ok y => Ok (x <? y)
  | _, _ => Fail UndefinedBehaviour
  end.

(** [std::sort(first, last, IdxCompare(y))], as an insertion sort.  The
    ranks that [rank(..., "random")] returns are pairwise distinct, and then
    every sorting algorithm returns the same sequence. *)
Fixpoint sort_insert (target : list Z) (x : Z) (l : list Z)
  : result (list Z) :=
  match l with
  | [] => Ok [x]
  | y :: l' =>
      match IdxCompare target x y with
      | Ok true => Ok (x :: y :: l')
      | Ok false =>
          match sort_insert target x l' with
          | Ok r => Ok (y :: r)
          | Fail f => Fail f
          end
      | Fail f => Fail f
      end
  end.

Fixpoint std_sort (target : list Z) (l : list Z) : result (list Z) :=
  match l with
  | [] => Ok []
  | x :: l' =>
      match std_sort target l' with
      | Ok r => sort_insert target x r
      | Fail f => Fail f
      end
  end.

(** [vec.resize(k)] for a vector of [int]. *)
Definition vec_resize (vec : list Z) (k : nat) : list Z :=
  take k vec ++ replicate (k - length vec) 0.

(** [generateOrder(vertexOrder, order)] *)
Definition generateOrder (vertexOrder : list Z) (order : list Z)
  : prog (list Z) :=
  let vertexOrder := vec_resize vertexOrder (length order) in
  let y := replicate (length vertexOrder) 0 in
  y <- rank order y "random" ;;
  vertexOrder <- for_range 0 (vsize y)
                   (fun i v => lift (vec_set v i i)) vertexOrder ;;
  lift (std_sort y vertexOrder).

(** [removeEdges(mod)] *)
Definition removeEdges (mod_ : Model) : Model :=
  mkModel (emptyGraph (network mod_)) (internals mod_).

(** [LatentOrderLikelihood(Model<Engine> mod)] *)
Definition LatentOrderLikelihood_new (mod_ : Model)
  : prog LatentOrderLikelihood :=
  let model := mod_ in
  let noTieModel := mod_ in
  let noTieModel := setNetwork noTieModel (network mod_) in
  let noTieModel := removeEdges noTieModel in
  if hasVertexOrder (internals model)
     && negb (vsize (getVertexOrder (internals model))
              =? netSize (network model))
  then Rf_error "Vertex ordering does not have the same number of elements as there are vertices in the network 95."
  else ret (mkLOL model noTieModel).

(** [setModel(mod)] *)
Definition setModel (this : LatentOrderLikelihood) (mod_ : Model)
  : prog LatentOrderLikelihood :=
  let model := mod_ in
  let noTieModel := mod_ in
  let noTieModel := setNetwork noTieModel (network mod_) in
  let noTieModel := removeEdges noTieModel in
  let noTieModel := m_calculate noTieModel in
  ret (mkLOL model noTieModel).

(** The block that four entry points repeat:
    [std::vector<int> vertices(n);
     if(model->hasVertexOrder()) generateOrder(vertices, ...);
     else { vertices[i] = i for all i < n; shuffle(vertices, n); }] *)
Definition make_vertices (this : LatentOrderLikelihood) (n : Z)
  : prog (list Z) :=
  let vertices := replicate (Z.to_nat n) 0 in
  if hasVertexOrder (internals (model this))
  then generateOrder vertices (getVertexOrder (internals (model this)))
  else
    vertices <- for_range 0 n (fun i v => lift (vec_set v i i)) vertices ;;
    shuffle vertices n.

(** *** The replay sampler *)

(** Locals of [modelFrameGivenOrder] and [modelFrameGivenEdgeOrder] that
    live across loop iterations. *)
Record frame : Type := mkFrame {
  f_runningModel : Model;
  f_terms : list Q;
  f_newTerms : list Q;
  f_workingVertOrder : list Z;
  f_outcome : list Z;                 (* std::vector<int> outcome *)
  f_predictors : list (list Q)
}.

(** [predictors.at(i).reserve(floor(downsampleRate * maxEdges) + 1000)]:
    the requested capacity is converted to [size_t], which is undefined
    for a negative double; a capacity that is reserved is not observable
    (running out of memory is not modelled). *)
Definition reserve_columns (this : LatentOrderLikelihood)
  (downsampleRate : Q) (predictors : list (list Q))
  : prog (list (list Q)) :=
  for_range 0 (vsize predictors)
    (fun i p =>
       _ <- lift (vec_get p i) ;;
       if Qfloor (downsampleRate
                  * inject_Z (maxEdges (network (noTieModel this))))
          + 1000 <? 0
       then lift (Fail UndefinedBehaviour)
       else ret p)
    predictors.

(** [for(int k=0; k<terms.size(); k++)
       predictors[k].push_back(newTerms[k] - terms[k]);] *)
Definition push_predictors (terms newTerms : list Q)
  (predictors : list (list Q)) : prog (list (list Q)) :=
  for_range 0 (vsize terms)
    (fun k p =>
       nt <- lift (vec_get newTerms k) ;;
       t <- lift (vec_get terms k) ;;
       col <- lift (vec_get p k) ;;
       lift (vec_set p k (col ++ [(nt - t)%Q])))
    predictors.

(** [outcome.push_back(hasEdge)] converts the [bool] to an [int]. *)
Definition int_of_bool (b : bool) : Z := if b then 1 else 0.

(** The statement [if(sample){...}else{...}] that the replay samplers
    execute for a dyad [(from, to)]; the source has it four times (twice in
    each sampler, for the dyad and for its reverse). *)
Definition replay_dyad (sample hasEdge_ : bool) (from to : Z)
  (vert_order : list Z) (actorIndex : Z) (s : frame) : prog frame :=
  if sample then
    let terms := m_statistics (f_runningModel s) in
    let rm := m_dyadUpdate (f_runningModel s) from to vert_order actorIndex in
    let newTerms := m_statistics rm in
    let rm := if hasEdge_ then m_toggle rm from to else m_rollback rm in
    let outcome := f_outcome s ++ [int_of_bool hasEdge_] in
    predictors <- push_predictors terms newTerms (f_predictors s) ;;
    ret (mkFrame rm terms newTerms (f_workingVertOrder s) outcome predictors)
  else if hasEdge_ then
    let rm := m_dyadUpdate (f_runningModel s) from to vert_order actorIndex in
    let rm := m_toggle rm from to in
    ret (mkFrame rm (f_terms s) (f_newTerms s) (f_workingVertOrder s)
                 (f_outcome s) (f_predictors s))
  else ret s.

(** What [modelFrameGivenOrder] does before its loop. *)
Definition frame_init (this : LatentOrderLikelihood) (downsampleRate : Q)
  (workingVertOrder : list Z) : prog frame :=
  let runningModel := noTieModel this in
  let runningModel := setNetwork runningModel (network (noTieModel this)) in
  let runningModel := m_calculate runningModel in
  let terms := m_statistics runningModel in
  let newTerms := m_statistics runningModel in
  let outcome := [] in
  let predictors := replicate (length terms) [] in
  predictors <- reserve_columns this downsampleRate predictors ;;
  ret (mkFrame runningModel terms newTerms workingVertOrder outcome
               predictors).

(** Body of the loop over [j] in [modelFrameGivenOrder]. *)
Definition frame_inner (this : LatentOrderLikelihood) (downsampleRate : Q)
  (vert_order : list Z) (i vertex : Z) (j : Z) (s : frame) : prog frame :=
  alter <- lift (vec_get (f_workingVertOrder s) j) ;;
  u <- Rf_runif 0 1 ;;
  let sample := Qltb u downsampleRate in
  let hasEdge_ := hasEdge (network (model this)) vertex alter in
  s <- replay_dyad sample hasEdge_ vertex alter vert_order i s ;;
  if isDirected (network (f_runningModel s)) then
    let hasEdge_ := hasEdge (network (model this)) alter vertex in
    replay_dyad sample hasEdge_ alter vertex vert_order i s
  else ret s.

(** Body of the loop over [i] in [modelFrameGivenOrder]. *)
Definition frame_outer (this : LatentOrderLikelihood) (downsampleRate : Q)
  (vert_order : list Z) (i : Z) (s : frame) : prog frame :=
  vertex <- lift (vec_get (f_workingVertOrder s) i) ;;
  w <- shuffle (f_workingVertOrder s) i ;;
  let s := mkFrame (f_runningModel s) (f_terms s) (f_newTerms s) w
                   (f_outcome s) (f_predictors s) in
  for_range 0 i (frame_inner this downsampleRate vert_order i vertex) s.

(** [modelFrameGivenOrder], up to [PutRNGstate()]: the locals at the end. *)
Definition modelFrameGivenOrder_run (this : LatentOrderLikelihood)
  (downsampleRate : Q) (vert_order : list Z) : prog frame :=
  let n := netSize (network (model this)) in
  s <- frame_init this downsampleRate vert_order ;;
  for_range 0 n (frame_outer this downsampleRate vert_order) s.

(** The list that the replay samplers return:
    [result["outcome"]] and [result["samples"]]. *)
Record frame_result : Type := mkFrameResult {
  r_outcome : list Z;
  r_samples : list (list Q)
}.

Definition modelFrameGivenOrder (this : LatentOrderLikelihood)
  (downsampleRate : Q) (vert_order : list Z) : prog frame_result :=
  s <- modelFrameGivenOrder_run this downsampleRate vert_order ;;
  ret (mkFrameResult (f_outcome s) (f_predictors s)).

(** The search loop of the edge-order entry points,
    [for(int k=0; k<n; k++){ if(vert_order[k] == vertex){ ...; break; } }]:
    the index at which the loop breaks, if it does. *)
Fixpoint find_actor_steps (fuel : nat) (k : Z) (vert_order : list Z)
  (vertex : Z) : result (option Z) :=
  match fuel with
  | O => Ok None
  | Datatypes.S fuel' =>
      match vec_get vert_order k with
      | Ok x => if x =? vertex then Ok (Some k)
                else find_actor_steps fuel' (k + 1) vert_order vertex
      | Fail f => Fail f
      end
  end.

Definition find_actor (n : Z) (vert_order : list Z) (vertex : Z)
  : result (option Z) :=
  find_actor_steps (Z.to_nat n) 0 vert_order vertex.

(** Body of the loop of [modelFrameGivenEdgeOrder].  In the search loop the
    statement [int actorIndex = k;] declares a new variable in the scope of
    the [if]: the [actorIndex] of the loop body, which is passed to
    [dyadUpdate], keeps the value 0 it was initialised with. *)
Definition frame_edge_body (this : LatentOrderLikelihood)
  (downsampleRate : Q) (n : Z) (vert_order perm_heads perm_tails : list Z)
  (i : Z) (s : frame) : prog frame :=
  vertex <- lift (vec_get perm_tails i) ;;
  alter <- lift (vec_get perm_heads i) ;;
  u <- Rf_runif 0 1 ;;
  let sample := Qltb u downsampleRate in
  let hasEdge_ := hasEdge (network (model this)) vertex alter in
  let actorIndex := 0 in
  _inner_actorIndex <- lift (find_actor n vert_order vertex) ;;
  s <- replay_dyad sample hasEdge_ vertex alter vert_order actorIndex s ;;
  if isDirected (network (f_runningModel s)) then
    let hasEdge_ := hasEdge (network (model this)) alter vertex in
    replay_dyad sample hasEdge_ alter vertex vert_order actorIndex s
  else ret s.

(** [modelFrameGivenEdgeOrder], up to [PutRNGstate()].  The generated
    vertex order is kept in the [f_workingVertOrder] field. *)
Definition modelFrameGivenEdgeOrder_run (this : LatentOrderLikelihood)
  (downsampleRate : Q) (perm_heads perm_tails : list Z) : prog frame :=
  let n := netSize (network (model this)) in
  let runningModel := m_calculate
    (setNetwork (noTieModel this) (network (noTieModel this))) in
  let terms := m_statistics runningModel in
  let newTerms := m_statistics runningModel in
  vertices <- make_vertices this n ;;
  let vert_order := vertices in
  let outcome := [] in
  let predictors := replicate (length terms) [] in
  predictors <- reserve_columns this downsampleRate predictors ;;
  for_range 0 (vsize perm_heads)
    (frame_edge_body this downsampleRate n vert_order perm_heads perm_tails)
    (mkFrame runningModel terms newTerms vert_order outcome predictors).

Definition modelFrameGivenEdgeOrder (this : LatentOrderLikelihood)
  (downsampleRate : Q) (perm_heads perm_tails : list Z)
  : prog frame_result :=
  s <- modelFrameGivenEdgeOrder_run this downsampleRate perm_heads
         perm_tails ;;
  ret (mkFrameResult (f_outcome s) (f_predictors s)).

(** *** The generative sampler *)

(** An [Rcpp::List] of change-statistic vectors; its slots start as NULL. *)
Definition RcppList : Type := list (option (list Q)).

(** Locals of [generateNetworkWithOrder] and [generateNetworkWithEdgeOrder]
    that live across loop iterations. *)
Record gen : Type := mkGen {
  g_runningModel : Model;
  g_eStats : list Q;
  g_stats : list Q;
  g_terms : list Q;
  g_newTerms : list Q;
  g_workingVertOrder : list Z;
  g_llik : Q;
  g_probTie : Q;
  g_hasEdge : bool;
  g_change : list Q;
  g_changeStats : RcppList
}.

(** Body of [for(int m=0; m<terms.size(); m++)]:
    [double diff = newTerms[m] - terms[m]; eStats[m] += diff * probTie;
     change[m] = diff; if(hasEdge){ stats[m] += diff; terms[m] += diff; }]
    ([generateNetworkWithEdgeOrder] assigns [change[m]] before [eStats[m]],
    which gives the same vectors). *)
Definition gen_accumulate (m : Z) (s : gen) : prog gen :=
  nt <- lift (vec_get (g_newTerms s) m) ;;
  t <- lift (vec_get (g_terms s) m) ;;
  let diff := (nt - t)%Q in
  e <- lift (vec_get (g_eStats s) m) ;;
  eStats <- lift (vec_set (g_eStats s) m (e + diff * g_probTie s)%Q) ;;
  change <- lift (vec_set (g_change s) m diff) ;;
  if g_hasEdge s then
    st <- lift (vec_get (g_stats s) m) ;;
    stats <- lift (vec_set (g_stats s) m (st + diff)%Q) ;;
    terms <- lift (vec_set (g_terms s) m (t + diff)%Q) ;;
    ret (mkGen (g_runningModel s) eStats stats terms (g_newTerms s)
               (g_workingVertOrder s) (g_llik s) (g_probTie s) (g_hasEdge s)
               change (g_changeStats s))
  else
    ret (mkGen (g_runningModel s) eStats (g_stats s) (g_terms s)
               (g_newTerms s) (g_workingVertOrder s) (g_llik s)
               (g_probTie s) (g_hasEdge s) change (g_changeStats s)).

(** The statements that the generative samplers execute for a dyad
    [(from, to)], from [llik = runningModel->logLik()] to the end of the
    loop over [m]; the source has them three times.  [declare_change] says
    whether this occurrence declares
    [std::vector<double> change(terms.size())] (the one for the reverse dyad
    of a directed graph writes into the vector of the forward dyad). *)
Definition gen_dyad (declare_change : bool) (from to : Z)
  (vert_order : list Z) (actorIndex : Z) (s : gen) : prog gen :=
  let llik := m_logLik (g_runningModel s) in
  let rm := m_dyadUpdate (g_runningModel s) from to vert_order actorIndex in
  let newTerms := m_statistics rm in
  let llikChange := (m_logLik rm - llik)%Q in
  let probTie := (1 / (1 + exp (- llikChange)))%Q in
  u <- Rf_runif 0 1 ;;
  let hasEdge_ := Qltb u probTie in
  let rm := if hasEdge_ then m_toggle rm from to else m_rollback rm in
  let change := if declare_change
                then replicate (length (g_terms s)) 0%Q
                else g_change s in
  for_range 0 (vsize (g_terms s)) gen_accumulate
    (mkGen rm (g_eStats s) (g_stats s) (g_terms s) newTerms
           (g_workingVertOrder s) llik probTie hasEdge_ change
           (g_changeStats s)).

(** [changeStats[idx] = change] *)
Definition store_change (idx : Z) (s : gen) : prog gen :=
  cs <- lift (vec_set (g_changeStats s) idx (Some (g_change s))) ;;
  ret (mkGen (g_runningModel s) (g_eStats s) (g_stats s) (g_terms s)
             (g_newTerms s) (g_workingVertOrder s) (g_llik s) (g_probTie s)
             (g_hasEdge s) (g_change s) cs).

(** Body of the loop over [j] in [generateNetworkWithOrder]. *)
Definition gen_inner (storeChangeStats directedGraph : bool)
  (vert_order : list Z) (i vertex : Z) (j : Z) (s : gen) : prog gen :=
  alter <- lift (vec_get (g_workingVertOrder s) j) ;;
  s <- gen_dyad true vertex alter vert_order i s ;;
  s <- (if storeChangeStats then
          if directedGraph then store_change ((i - 1) * i + 2 * j) s
          else store_change ((i - 1) * i / 2 + j) s
        else ret s) ;;
  if directedGraph then
    s <- gen_dyad false alter vertex vert_order i s ;;
    if storeChangeStats then store_change ((i - 1) * i + (2 * j + 1)) s
    else ret s
  else ret s.

(** Body of the loop over [i] in [generateNetworkWithOrder]. *)
Definition gen_outer (storeChangeStats directedGraph : bool)
  (vert_order : list Z) (i : Z) (s : gen) : prog gen :=
  vertex <- lift (vec_get (g_workingVertOrder s) i) ;;
  w <- shuffle (g_workingVertOrder s) i ;;
  let s := mkGen (g_runningModel s) (g_eStats s) (g_stats s) (g_terms s)
                 (g_newTerms s) w (g_llik s) (g_probTie s) (g_hasEdge s)
                 (g_change s) (g_changeStats s) in
  for_range 0 i
    (gen_inner storeChangeStats directedGraph vert_order i vertex) s.

(** [std::vector<int> rankOrder = vert_order;
     for(int i=0;i<vert_order.size();i++) rankOrder[vert_order[i]] = i;] *)
Definition rank_order (vert_order : list Z) : prog (list Z) :=
  for_range 0 (vsize vert_order)
    (fun i rankOrder =>
       v <- lift (vec_get vert_order i) ;;
       lift (vec_set rankOrder v i))
    vert_order.

(** The list that the generative samplers return. *)
Record gen_result : Type := mkGenResult {
  r_network : Net;
  r_emptyNetworkStats : list Q;
  r_stats : list Q;
  r_expectedStats : list Q;
  r_changeStats : option RcppList
}.

(** [generateNetworkWithOrder], with the locals at the end next to the
    result list. *)
Definition generateNetworkWithOrder_run (this : LatentOrderLikelihood)
  (vert_order : list Z) (storeChangeStats : bool)
  : prog (gen * gen_result) :=
  let n := netSize (network (model this)) in
  let nStats := length (thetas (internals (model this))) in
  let runningModel := m_calculate
    (setNetwork (noTieModel this) (network (noTieModel this))) in
  let directedGraph := isDirected (network runningModel) in
  let changeStats : RcppList :=
    if storeChangeStats then
      let e := n * (n - 1) in
      let e := if negb directedGraph then e / 2 else e in
      replicate (Z.to_nat e) None
    else replicate 1 None in
  let eStats := replicate nStats 0%Q in
  let stats := replicate nStats 0%Q in
  let terms := m_statistics runningModel in
  let newTerms := m_statistics runningModel in
  let emptyStats := m_statistics runningModel in
  let workingVertOrder := vert_order in
  let llik := m_logLik runningModel in
  s <- for_range 0 n (gen_outer storeChangeStats directedGraph vert_order)
         (mkGen runningModel eStats stats terms newTerms workingVertOrder
                llik 0%Q false [] changeStats) ;;
  rankOrder <- rank_order vert_order ;;
  let net := addDiscreteVariable (network (g_runningModel s)) rankOrder
               "__order__" in
  let s := mkGen (setNetwork (g_runningModel s) net) (g_eStats s)
                 (g_stats s) (g_terms s) (g_newTerms s)
                 (g_workingVertOrder s) (g_llik s) (g_probTie s)
                 (g_hasEdge s) (g_change s) (g_changeStats s) in
  ret (s, mkGenResult net emptyStats (g_stats s) (g_eStats s)
            (if storeChangeStats then Some (g_changeStats s) else None)).

Definition generateNetworkWithOrder (this : LatentOrderLikelihood)
  (vert_order : list Z) (storeChangeStats : bool) : prog gen_result :=
  r <- generateNetworkWithOrder_run this vert_order storeChangeStats ;;
  ret (snd r).

(** [*std::max_element(v.begin(), v.end())]; for an empty vector the
    iterator returned is [end()], which must not be dereferenced. *)
Definition max_element (v : list Z) : result Z :=
  match v with
  | [] => Fail UndefinedBehaviour
  | x :: v' => Ok (fold_left Z.max v' x)
  end.

(** The check that [generateNetworkWithEdgeOrder] and [calcChangeStats]
    make on the vertices of the edge order. *)
Definition check_max (n : Z) (perm_heads perm_tails : list Z) : prog unit :=
  max_tail <- lift (max_element perm_tails) ;;
  max_head <- lift (max_element perm_heads) ;;
  if (max_tail >? n - 1) || (max_head >? n - 1)
  then Rcout_print "The perm has vertices that don't exist, probably forgot to minus 1 in the heads and tails from R to cpp"
  else ret tt.

(** Body of the loop of [generateNetworkWithEdgeOrder].  As in
    [modelFrameGivenEdgeOrder], [int actorIndex = k;] in the search loop
    declares a new variable: the [actorIndex] that is passed to
    [dyadUpdate] keeps the value 1 it was initialised with. *)
Definition gen_edge_body (n : Z) (vert_order perm_heads perm_tails : list Z)
  (i : Z) (s : gen) : prog gen :=
  vertex <- lift (vec_get perm_tails i) ;;
  alter <- lift (vec_get perm_heads i) ;;
  let actorIndex := 1 in
  _inner_actorIndex <- lift (find_actor n vert_order vertex) ;;
  s <- gen_dyad true vertex alter vert_order actorIndex s ;;
  store_change i s.

(** [generateNetworkWithEdgeOrder], with the locals at the end (the
    generated vertex order in [g_workingVertOrder]) next to the result. *)
Definition generateNetworkWithEdgeOrder_run (this : LatentOrderLikelihood)
  (perm_heads perm_tails : list Z) : prog (gen * gen_result) :=
  let n := netSize (network (model this)) in
  let nStats := length (thetas (internals (model this))) in
  let e := n * (n - 1) in
  let e := if negb (isDirected (network (model this))) then e / 2 else e in
  check_max n perm_heads perm_tails ;;;
  vertices <- make_vertices this n ;;
  let vert_order := vertices in
  let runningModel := m_calculate
    (setNetwork (noTieModel this) (network (noTieModel this))) in
  let changeStats : RcppList := replicate (Z.to_nat e) None in
  let eStats := replicate nStats 0%Q in
  let stats := replicate nStats 0%Q in
  let terms := m_statistics runningModel in
  let newTerms := m_statistics runningModel in
  let emptyStats := m_statistics runningModel in
  let llik := m_logLik runningModel in
  s <- for_range 0 (vsize perm_tails)
         (gen_edge_body n vert_order perm_heads perm_tails)
         (mkGen runningModel eStats stats terms newTerms vert_order
                llik 0%Q false [] changeStats) ;;
  rankOrder <- rank_order vert_order ;;
  let net := addDiscreteVariable (network (g_runningModel s)) rankOrder
               "__order__" in
  let s := mkGen (setNetwork (g_runningModel s) net) (g_eStats s)
                 (g_stats s) (g_terms s) (g_newTerms s)
                 (g_workingVertOrder s) (g_llik s) (g_probTie s)
                 (g_hasEdge s) (g_change s) (g_changeStats s) in
  ret (s, mkGenResult net emptyStats (g_stats s) (g_eStats s)
            (Some (g_changeStats s))).

Definition generateNetworkWithEdgeOrder (this : LatentOrderLikelihood)
  (perm_heads perm_tails : list Z) : prog gen_result :=
  r <- generateNetworkWithEdgeOrder_run this perm_heads perm_tails ;;
  ret (snd r).

(** *** The change statistics of a full edge order *)

(** Locals of [calcChangeStats] that live across loop iterations. *)
Record calc : Type := mkCalc {
  c_runningModel : Model;
  c_actorIndex : Z;
  c_result : RcppList
}.

(** [std::transform(statNew.begin(), statNew.end(), stat.begin(),
     changeStat.begin(), std::minus<double>())]: reads [stat] and writes
    [changeStat] at every index of [statNew]. *)
Definition transform_minus (statNew stat changeStat : list Q)
  : result (list Q) :=
  if ((length statNew <=? length stat)%nat
      && (length statNew <=? length changeStat)%nat)%bool
  then Ok (zip_with Qminus statNew stat
             ++ drop (length statNew) changeStat)
  else Fail UndefinedBehaviour.

(** Body of the loop of [calcChangeStats].  Here the search loop assigns
    [actorIndex = k;] to the variable declared before the loop over the
    dyads, which keeps its previous value when the search finds nothing. *)
Definition calc_body (this : LatentOrderLikelihood) (n : Z) (nStats : nat)
  (vert_order perm_heads perm_tails : list Z) (i : Z) (s : calc)
  : prog calc :=
  vertex <- lift (vec_get perm_tails i) ;;
  alter <- lift (vec_get perm_heads i) ;;
  let stat := m_statistics (c_runningModel s) in
  found <- lift (find_actor n vert_order vertex) ;;
  let actorIndex := match found with
                    | Some k => k
                    | None => c_actorIndex s
                    end in
  let rm := m_dyadUpdate (c_runningModel s) vertex alter vert_order
              actorIndex in
  let statNew := m_statistics rm in
  let changeStat := replicate nStats 0%Q in
  changeStat <- lift (transform_minus statNew stat changeStat) ;;
  res <- lift (vec_set (c_result s) i (Some changeStat)) ;;
  let rm := if hasEdge (network (model this)) vertex alter
            then m_toggle rm vertex alter
            else m_rollback rm in
  ret (mkCalc rm actorIndex res).

(** [calcChangeStats], with the locals at the end (and the generated
    vertex order) next to the list it returns. *)
Definition calcChangeStats_run (this : LatentOrderLikelihood)
  (perm_heads perm_tails : list Z) : prog (calc * list Z) :=
  let n := netSize (network (model this)) in
  let nStats := length (thetas (internals (model this))) in
  let e := n * (n - 1) in
  let e := if negb (isDirected (network (model this))) then e / 2 else e in
  vertices <- make_vertices this n ;;
  let vert_order := vertices in
  (if negb (vsize perm_heads =? e) || negb (vsize perm_tails =? e)
   then Rcout_print "The perm is the wrong length"
   else ret tt) ;;;
  check_max n perm_heads perm_tails ;;;
  let runningModel := m_calculate
    (setNetwork (noTieModel this) (network (noTieModel this))) in
  let actorIndex := 1 in
  let result : RcppList := replicate (Z.to_nat e) None in
  s <- for_range 0 e
         (calc_body this n nStats vert_order perm_heads perm_tails)
         (mkCalc runningModel actorIndex result) ;;
  ret (s, vert_order).

Definition calcChangeStats (this : LatentOrderLikelihood)
  (perm_heads perm_tails : list Z) : prog RcppList :=
  r <- calcChangeStats_run this perm_heads perm_tails ;;
  ret (c_result (fst r)).
End Engine.

Arguments Model : clear implicits.
Arguments LatentOrderLikelihood : clear implicits.
Arguments frame : clear implicits.
Arguments gen : clear implicits.
Arguments gen_result : clear implicits.
Arguments calc : clear implicits.

(** Whether [(x, y)] is the dyad [(u, v)] of a graph: the same ordered pair,
    or, in an undirected graph, the reversed pair. *)
Definition same_dyad (directed : bool) (u v x y : Z) : bool :=
  ((x =? u) && (y =? v)) || (negb directed && (x =? v) && (y =? u)).

(** ** A concrete network and model

    An instance of the collaborators on which the engine can be run: graphs
    as edge lists, and a model whose statistics are edge counts (one per
    parameter).  The model records the calls of [dyadUpdate] it receives. *)
Module EdgeCount.

Record graph : Type := mkGraph {
  g_size : Z;
  g_directed : bool;
  g_edges : list (Z * Z);
  g_vars : list (string * list Z)
}.

Definition graph_hasEdge (g : graph) (u v : Z) : bool :=
  existsb (fun e => same_dyad (g_directed g) (fst e) (snd e) u v)
          (g_edges g).

Definition graph_toggle (g : graph) (u v : Z) : graph :=
  mkGraph (g_size g) (g_directed g)
    (if graph_hasEdge g u v
     then List.filter
            (fun e => negb (same_dyad (g_directed g) (fst e) (snd e) u v))
            (g_edges g)
     else g_edges g ++ [(u, v)])
    (g_vars g).

Definition graph_maxEdges (g : graph) : Z :=
  if g_directed g then g_size g * (g_size g - 1)
  else g_size g * (g_size g - 1) / 2.

#[export] Instance graph_ops : NetworkOps graph := {|
  netSize := g_size;
  isDirected := g_directed;
  hasEdge := graph_hasEdge;
  toggle := graph_toggle;
  emptyGraph := fun g => mkGraph (g_size g) (g_directed g) [] (g_vars g);
  maxEdges := graph_maxEdges;
  addDiscreteVariable := fun g values name =>
    mkGraph (g_size g) (g_directed g) (g_edges g)
            (g_vars g ++ [(name, values)])
|}.

Record state : Type := mkState {
  s_thetas : list Q;
  s_stats : list Q;
  s_saved : list Q;                       (* statistics before the update *)
  s_order : option (list Z);
  s_calls : list (Z * Z * Z)              (* from, to, actorIndex *)
}.

Definition edge_count (g : graph) : Q := inject_Z (Z.of_nat (length (g_edges g))).

Definition dot (xs ys : list Q) : Q :=
  fold_right Qplus 0%Q (zip_with Qmult xs ys).

#[export] Instance state_ops : ModelOps graph state := {|
  calculate := fun g st =>
    mkState (s_thetas st) (List.map (fun _ => edge_count g) (s_thetas st))
            (s_saved st) (s_order st) (s_calls st);
  statistics := s_stats;
  logLik := fun st => dot (s_thetas st) (s_stats st);
  thetas := s_thetas;
  dyadUpdate := fun g st from to order actorIndex =>
    mkState (s_thetas st)
            (List.map (fun _ => edge_count (graph_toggle g from to)) (s_stats st))
            (s_stats st) (s_order st)
            (s_calls st ++ [(from, to, actorIndex)]);
  rollback := fun g st =>
    mkState (s_thetas st) (s_saved st) (s_saved st) (s_order st)
            (s_calls st);
  hasVertexOrder := fun st => match s_order st with
                              | Some _ => true
                              | None => false
                              end;
  getVertexOrder := fun st => match s_order st with
                              | Some o => o
                              | None => []
                              end
|}.

(** Ranks 0, 1, ... in ascending order of the values; equal values are
    ranked by position (one of the outcomes of random tie-breaking). *)
Definition rank_of (x : list Z) (i : nat) (xi : Z) : Z :=
  Z.of_nat (length (List.filter (fun xj => xj <? xi) x)
            + length (List.filter (fun xj => xj =? xi) (take i x))).

#[export] Instance positional_ranker : Ranker :=
  fun x y method => ret (imap (rank_of x) x).

(** A stream whose draws are all one half. *)
Definition half_stream : RandomStream := fun _ => (1 # 2)%Q.

(** A stream whose draws are all zero. *)
Definition zero_stream : RandomStream := fun _ => 0%Q.

(** A rational stand-in for the exponential: the partial sum of its series
    up to degree 3.  It is exact at 0, where the examples evaluate it. *)
#[export] Instance exp_series : Libm :=
  fun x => (1 + x + x * x / 2 + x * x * x / 6)%Q.

Definition w0 : world := World 0 [].

(** A model with [k] parameters, all 0, bound to the graph [g]. *)
Definition null_model (k : nat) (order : option (list Z)) (g : graph)
  : Model graph state :=
  mkModel g (mkState (replicate k 0%Q)
                     (replicate k (edge_count g)) [] order []).

(** Four vertices, undirected, with the edges 0-1 and 2-3. *)
Definition square : graph := mkGraph 4 false [(0, 1); (2, 3)] [].

(** Three vertices, directed, with the edges 0->1 and 2->0. *)
Definition triangle : graph := mkGraph 3 true [(0, 1); (2, 0)] [].

(** The engine for a model, when its construction succeeds. *)
Definition engine_of (m : Model graph state)
  : LatentOrderLikelihood graph state :=
  match LatentOrderLikelihood_new m w0 with
  | Ok (this, _) => this
  | Fail _ => mkLOL m m
  end.

(** A model on [triangle] whose vertex order has two entries for the
    three vertices. *)
Definition unfit_model : Model graph state :=
  null_model 1 (Some [0; 1]) triangle.
End EdgeCount.

(** ** Specifications *)

(** [returns c w P]: run from the world [w], the program [c] returns (it
    neither runs into undefined behaviour nor raises an R error), and its
    value and final world satisfy [P]. *)
Definition returns {A} (c : prog A) (w : world) (P : A -> world -> Prop)
  : Prop :=
  match c w with
  | Ok (a, w') => P a w'
  | Fail _ => False
  end.

(** The draws of R's uniform generator lie in the unit interval. *)
Class UnitStream `{RandomStream} : Prop :=
  unit_stream : forall k : nat, (0 <= unif_rand k)%Q /\ (unif_rand k < 1)%Q.

(** The ranker returns, with one rank per value in the vector it was given
    for them, and prints nothing. *)
Class RankerLaws `{Ranker} : Prop :=
  rank_returns : forall (x y : list Z) (method : string) (w : world),
    length y = length x ->
    returns (rank x y method) w
      (fun r w' => length r = length y /\ Rcout w' = Rcout w).

(** What [shuffle vec offset] keeps: the first [offset] entries are
    permuted among themselves, the others stay where they are. *)
Definition shuffled {T} (vec : list T) (offset : Z) (w : world)
  (vec' : list T) (w' : world) : Prop :=
  take (Z.to_nat offset) vec' ≡ₚ take (Z.to_nat offset) vec
  /\ drop (Z.to_nat offset) vec' = drop (Z.to_nat offset) vec
  /\ length vec' = length vec
  /\ Rcout w' = Rcout w.

Section Laws.
Context {Net St : Type} `{NetworkOps Net} `{ModelOps Net St}.

(** What the engine relies on of a network. *)
Class NetworkLaws : Prop := {
  hasEdge_toggle : forall g u v x y,
    hasEdge (toggle g u v) x y
    = xorb (hasEdge g x y) (same_dyad (isDirected g) u v x y);
  hasEdge_emptyGraph : forall g x y, hasEdge (emptyGraph g) x y = false;
  isDirected_toggle : forall g u v,
    isDirected (toggle g u v) = isDirected g;
  isDirected_emptyGraph : forall g,
    isDirected (emptyGraph g) = isDirected g;
  maxEdges_nonneg : forall g, 0 <= maxEdges g
}.

(** The model has one statistic per parameter, in every state, and a
    rollback restores the statistics that preceded the tentative update. *)
Class ModelLaws : Prop := {
  statistics_calculate_length : forall g st,
    length (statistics (calculate g st)) = length (thetas st);
  statistics_dyadUpdate_length : forall g st u v o i,
    length (statistics (dyadUpdate g st u v o i))
    = length (statistics st);
  statistics_rollback : forall g st u v o i,
    statistics (rollback g (dyadUpdate g st u v o i)) = statistics st
}.

(** The cached statistics of [st] are those of the graph [g], computed
    from scratch. *)
Definition consistent (g : Net) (st : St) : Prop :=
  statistics (calculate g st) = statistics st.

(** The transaction discipline of the model: a tentative update followed
    by the toggle of its dyad, or by a rollback, leaves the caches
    consistent with the graph; and the statistics do not read the
    annotations of the vertices. *)
Class TransactionLaws : Prop := {
  calculate_consistent : forall g st, consistent g (calculate g st);
  commit_consistent : forall g st u v o i,
    consistent g st ->
    consistent (toggle g u v) (dyadUpdate g st u v o i);
  rollback_consistent : forall g st u v o i,
    consistent g st ->
    consistent g (rollback g (dyadUpdate g st u v o i));
  annotation_irrelevant : forall g st values name,
    statistics (calculate (addDiscreteVariable g values name) st)
    = statistics (calculate g st)
}.

(** An engine that its constructor returned. *)
Definition constructed (this : LatentOrderLikelihood Net St) : Prop :=
  exists (mod_ : Model Net St) (w w' : world),
    LatentOrderLikelihood_new mod_ w = Ok (this, w').
End Laws.

(** ** The dyads of a vertex order *)

(** The dyads between the vertex that is activated and the vertices
    [alters] activated before it, in the order in which the samplers visit
    them: [(vertex, alter)] and, in a directed graph, [(alter, vertex)]. *)
Definition pairs_at (directed : bool) (vertex : Z) (alters : list Z)
  : list (Z * Z) :=
  flat_map (fun a => (vertex, a) :: if directed then [(a, vertex)] else [])
           alters.

(** All dyads of a vertex order, step by step. *)
Definition dyads (directed : bool) (order : list Z) : list (Z * Z) :=
  concat (imap (fun i v => pairs_at directed v (take i order)) order).

(** The dyads between a first vertex [x] and the later vertices [l]. *)
Definition with_first (directed : bool) (x : Z) (l : list Z)
  : list (Z * Z) :=
  flat_map (fun y => (y, x) :: if directed then [(x, y)] else []) l.

(** The representative of a dyad: in an undirected graph a pair and its
    reverse are one dyad. *)
Definition canon (directed : bool) (d : Z * Z) : Z * Z :=
  if directed then d else (Z.min (fst d) (snd d), Z.max (fst d) (snd d)).

(** A processed dyad: tail, head and whether the sample was retained. *)
Definition visit : Type := (Z * Z * bool)%type.
Definition v_dyad (v : visit) : Z * Z := fst v.
Definition v_sample (v : visit) : bool := snd v.

(** The visits of one outer step of the vertex-order samplers. *)
Definition step_visits (directed : bool) (vertex : Z)
  (alters : list (Z * bool)) : list visit :=
  flat_map (fun ab => (vertex, fst ab, snd ab)
                      :: if directed then [(fst ab, vertex, snd ab)] else [])
           alters.

(** What the rate says about a retain decision: with a rate of at least 1
    every dyad is retained, with a rate of at most 0 none is. *)
Definition flag_ok (rate : Q) (b : bool) : Prop :=
  ((1 <= rate)%Q -> b = true) /\ ((rate <= 0)%Q -> b = false).

(** [visited directed rate order i V]: [V] is a sequence of visits that the
    first [i] outer steps of a vertex-order sampler can make: step [i'] visits
    the dyads between [order[i']] and the earlier vertices, in some
    order of the earlier vertices. *)
Inductive visited (directed : bool) (rate : Q) (order : list Z)
  : nat -> list visit -> Prop :=
| visited_O : visited directed rate order O []
| visited_S i V vertex alters flags :
    visited directed rate order i V ->
    order !! i = Some vertex ->
    alters ≡ₚ take i order ->
    length flags = i ->
    Forall (flag_ok rate) flags ->
    visited directed rate order (Datatypes.S i)
            (V ++ step_visits directed vertex (zip alters flags)).

Section Replayed.
Context {Net St : Type} `{NetworkOps Net} `{ModelOps Net St}.

(** The label of a dyad: the tie presence in the observed network. *)
Definition label (obs : Net) (d : Z * Z) : Z :=
  int_of_bool (hasEdge obs (fst d) (snd d)).

(** The effect of a visit on the running network. *)
Definition replay_net (obs : Net) (g : Net) (v : visit) : Net :=
  if hasEdge obs (fst (v_dyad v)) (snd (v_dyad v))
  then toggle g (fst (v_dyad v)) (snd (v_dyad v))
  else g.

(** [replayed this V s]: the locals [s] of a replay sampler are what the
    visits [V] lead to from the initial locals: one label per retained
    visit, one column per statistic and one entry of each column per label,
    and a running network that was toggled at the visits of observed
    ties. *)
Definition replayed (this : LatentOrderLikelihood Net St) (V : list visit)
  (s : frame Net St) : Prop :=
  f_outcome s
  = List.map (fun v => label (network (model this)) (v_dyad v))
             (List.filter v_sample V)
  /\ network (f_runningModel s)
     = fold_left (replay_net (network (model this))) V
                 (network (noTieModel this))
  /\ length (m_statistics (f_runningModel s))
     = length (thetas (internals (noTieModel this)))
  /\ length (f_predictors s)
     = length (thetas (internals (noTieModel this)))
  /\ Forall (fun col => length col = length (f_outcome s))
            (f_predictors s).

(** The number of ties of the observed network among the dyads of the
    vertices [0 .. n-1]. *)
Definition observed_ties (obs : Net) (n : Z) : nat :=
  length (List.filter (fun d => hasEdge obs (fst d) (snd d))
                      (dyads (isDirected obs) (seqZ 0 n))).

(** An undirected network answers [hasEdge] alike for a pair and its
    reverse. *)
Definition symmetric_ties (g : Net) : Prop :=
  isDirected g = false -> forall u v, hasEdge g u v = hasEdge g v u.
End Replayed.

Section Reservable.
Context {Net St : Type} `{NetworkOps Net} `{ModelOps Net St}.

(** The rates for which the replay samplers can reserve their columns:
    there is no column, or the requested capacity is not negative. *)
Definition reservable (this : LatentOrderLikelihood Net St) (rate : Q) : Prop :=
  length (thetas (internals (noTieModel this))) = O
  \/ 0 <= Qfloor (rate * inject_Z (maxEdges (network (noTieModel this))))
          + 1000.
End Reservable.

(** [order_kept order working i]: the working copy of a vertex order after
    the shuffles of the outer steps before [i]: its first [i] entries are
    those of the order, in some order, and the other entries are in place. *)
Definition order_kept (order working : list Z) (i : nat) : Prop :=
  take i working ≡ₚ take i order
  /\ drop i working = drop i order
  /\ length working = length order.

Section FrameInvariant.
Context {Net St : Type} `{NetworkOps Net} `{ModelOps Net St}.

(** The invariant of the loop over [i] of [modelFrameGivenOrder]. *)
Definition frame_inv (this : LatentOrderLikelihood Net St) (rate : Q)
  (vert_order : list Z) (i : Z) (s : frame Net St) : Prop :=
  exists V : list visit,
    visited (isDirected (network (noTieModel this))) rate vert_order
            (Z.to_nat i) V
    /\ replayed this V s
    /\ order_kept vert_order (f_workingVertOrder s) (Z.to_nat i)
    /\ isDirected (network (f_runningModel s))
       = isDirected (network (noTieModel this)).
End FrameInvariant.

(** The dyads that the edge-order replay sampler visits: one per position
    of [perm_heads], and its reverse in a directed graph. *)
Definition edge_dyads (directed : bool) (perm_heads perm_tails : list Z)
  : list (Z * Z) :=
  flat_map (fun th => (fst th, snd th)
                      :: if directed then [(snd th, fst th)] else [])
           (zip perm_tails perm_heads).

Section EdgeFrameInvariant.
Context {Net St : Type} `{NetworkOps Net} `{ModelOps Net St}.

(** The vertex order of the model, when it has one, has one entry per
    vertex of the network. *)
Definition order_fits (this : LatentOrderLikelihood Net St) : Prop :=
  hasVertexOrder (internals (model this)) = true ->
  vsize (getVertexOrder (internals (model this)))
  = netSize (network (model this)).

(** The invariant of the loop of [modelFrameGivenEdgeOrder]. *)
Definition frame_edge_inv (this : LatentOrderLikelihood Net St)
  (perm_heads perm_tails : list Z) (i : Z) (s : frame Net St) : Prop :=
  exists V : list visit,
    replayed this V s
    /\ v_dyad <$> V
       = edge_dyads (isDirected (network (noTieModel this)))
                    (take (Z.to_nat i) perm_heads)
                    (take (Z.to_nat i) perm_tails)
    /\ f_workingVertOrder s ≡ₚ seqZ 0 (netSize (network (model this)))
    /\ isDirected (network (f_runningModel s))
       = isDirected (network (noTieModel this)).
End EdgeFrameInvariant.

Section Toggled.
Context {Net : Type} `{NetworkOps Net}.

(** Whether the visits [V] toggle the dyad [(x, y)] an odd number of
    times, when the replay toggles the visited dyads with an observed
    tie. *)
Definition odd_toggles (obs : Net) (directed : bool) (V : list visit)
  (x y : Z) : bool :=
  fold_right xorb false
    (List.map (fun v => hasEdge obs (fst (v_dyad v)) (snd (v_dyad v))
                        && same_dyad directed (fst (v_dyad v))
                                     (snd (v_dyad v)) x y) V).
End Toggled.

(** The labels 1 and 0 of a label vector. *)
Definition count_label (z : Z) (outcome : list Z) : nat :=
  length (List.filter (Z.eqb z) outcome).

(** The columns of a replay result are aligned with its labels: there are
    [k] columns, each with one entry per label. *)
Definition aligned (k : nat) (r : frame_result) : Prop :=
  length (r_samples r) = k
  /\ Forall (fun col => length col = length (r_outcome r)) (r_samples r).

(** ** The generative sampler, dyad by dyad *)

(** The change-statistic vector of a dyad in the generative sampler: the
    statistics after the tentative update less the vector [terms]. *)
Definition delta (newTerms terms : list Q) : list Q :=
  zip_with Qminus newTerms terms.

Section GenStep.
Context {Net St : Type} {NO : NetworkOps Net} {MO : ModelOps Net St}.
Context {LM : Libm}.

(** The vectors that the loop over [m] indexes by the positions of
    [terms] have the length of the statistic vector. *)
Definition gen_wf (s : gen Net St) : Prop :=
  length (g_terms s) = length (m_statistics (g_runningModel s))
  /\ length (g_eStats s) = length (g_terms s)
  /\ length (g_stats s) = length (g_terms s).

(** The locals after the statements for a dyad, in closed form, when the
    uniform draw is [u]. *)
Definition gen_after (from to : Z) (vert_order : list Z) (actorIndex : Z)
  (u : Q) (s : gen Net St) : gen Net St :=
  let llik := m_logLik (g_runningModel s) in
  let rm := m_dyadUpdate (g_runningModel s) from to vert_order actorIndex in
  let newTerms := m_statistics rm in
  let probTie := (1 / (1 + exp (- (m_logLik rm - llik))))%Q in
  let tie := Qltb u probTie in
  let d := delta newTerms (g_terms s) in
  mkGen (if tie then m_toggle rm from to else m_rollback rm)
        (zip_with (fun e x => (e + x * probTie)%Q) (g_eStats s) d)
        (if tie then zip_with Qplus (g_stats s) d else g_stats s)
        (if tie then zip_with Qplus (g_terms s) d else g_terms s)
        newTerms (g_workingVertOrder s) llik probTie tie d
        (g_changeStats s).

(** The locals in the loop over [m], before the iteration for [m]: the
    entries before [m] are those of [done], the others those of [todo]. *)
Definition gen_upto (m : nat) (todo done : gen Net St) : gen Net St :=
  mkGen (g_runningModel done)
        (take m (g_eStats done) ++ drop m (g_eStats todo))
        (take m (g_stats done) ++ drop m (g_stats todo))
        (take m (g_terms done) ++ drop m (g_terms todo))
        (g_newTerms done) (g_workingVertOrder done) (g_llik done)
        (g_probTie done) (g_hasEdge done)
        (take m (g_change done) ++ drop m (g_change todo))
        (g_changeStats done).

(** Componentwise equality of vectors of doubles, as rational numbers. *)
Definition veq (xs ys : list Q) : Prop := Forall2 Qeq xs ys.

(** The invariant of the generative sampler between two dyads: [terms] is
    the statistic vector of the running model, which is the one of its
    network computed from scratch, and the realized statistics are what
    [terms] gained over the statistics of the empty network. *)
Definition gen_synced (emptyStats : list Q) (s : gen Net St) : Prop :=
  gen_wf s
  /\ consistent (network (g_runningModel s)) (internals (g_runningModel s))
  /\ veq (g_terms s) (m_statistics (g_runningModel s))
  /\ veq (zip_with Qplus emptyStats (g_stats s)) (g_terms s).
End GenStep.

Section GenInvariant.
Context {Net St : Type} {NO : NetworkOps Net} {MO : ModelOps Net St}.
Context {LM : Libm}.

(** A property of the locals of the generative sampler that the statements
    for a dyad preserve and that only reads the running model and the
    vectors [eStats], [stats] and [terms]. *)
Record dyad_invariant (J : gen Net St -> Prop) : Prop := {
  inv_wf : forall s, J s -> gen_wf s;
  inv_after : forall from to vert_order actorIndex u s,
    J s -> J (gen_after from to vert_order actorIndex u s);
  inv_reads : forall s s',
    g_runningModel s' = g_runningModel s ->
    g_eStats s' = g_eStats s ->
    g_stats s' = g_stats s ->
    g_terms s' = g_terms s ->
    J s -> J s'
}.

(** The invariant of the loops of the generative samplers: the property
    [J], a working vertex order of [n] entries and a list of [slots]
    change-statistic vectors; nothing was printed since the world [w0]. *)
Definition gen_loop_inv (J : gen Net St -> Prop) (n slots : nat)
  (w0 : world) (s : gen Net St) (w : world) : Prop :=
  J s
  /\ length (g_workingVertOrder s) = n
  /\ length (g_changeStats s) = slots
  /\ Rcout w = Rcout w0.
End GenInvariant.

(** The list of change statistics has a slot for every dyad when the
    change statistics are stored. *)
Definition slots_fit (storeChangeStats directedGraph : bool) (n : Z)
  (slots : nat) : Prop :=
  storeChangeStats = true ->
  Z.of_nat slots
  = if directedGraph then n * (n - 1) else n * (n - 1) / 2.

Section GenStart.
Context {Net St : Type} {NO : NetworkOps Net} {MO : ModelOps Net St}.

(** The locals of the generative samplers before their loop. *)
Definition gen_start (this : LatentOrderLikelihood Net St)
  (workingVertOrder : list Z) (changeStats : RcppList) : gen Net St :=
  let nStats := length (thetas (internals (model this))) in
  let runningModel := m_calculate
    (setNetwork (noTieModel this) (network (noTieModel this))) in
  mkGen runningModel (replicate nStats 0%Q) (replicate nStats 0%Q)
        (m_statistics runningModel) (m_statistics runningModel)
        workingVertOrder (m_logLik runningModel) 0%Q false [] changeStats.

(** The locals and the result list of a generative sampler after the rank
    order was attached to the network of the locals [s]. *)
Definition gen_finished (s : gen Net St) (rankOrder : list Z)
  (emptyStats : list Q) (changes : option RcppList)
  : gen Net St * gen_result Net :=
  let net := addDiscreteVariable (network (g_runningModel s)) rankOrder
               "__order__" in
  (mkGen (setNetwork (g_runningModel s) net) (g_eStats s) (g_stats s)
         (g_terms s) (g_newTerms s) (g_workingVertOrder s) (g_llik s)
         (g_probTie s) (g_hasEdge s) (g_change s) (g_changeStats s),
   mkGenResult net emptyStats (g_stats s) (g_eStats s) changes).

(** [rankOrder] is the inverse of the vertex order: the vertex at
    position [i] of the order has rank [i]. *)
Definition inverse_order (vert_order rankOrder : list Z) : Prop :=
  length rankOrder = length vert_order
  /\ forall (i : nat) (v : Z),
       vert_order !! i = Some v ->
       rankOrder !! Z.to_nat v = Some (Z.of_nat i).
End GenStart.

(** The warning of the edge-order entry points. *)
Definition range_warning : string :=
  "The perm has vertices that don't exist, probably forgot to minus 1 in the heads and tails from R to cpp".

(** The warning of [calcChangeStats] about the length of the edge order. *)
Definition length_warning : string := "The perm is the wrong length".

(** Some vertex of the lists is [n] or larger. *)
Definition beyond (n : Z) (perm_heads perm_tails : list Z) : Prop :=
  exists x, (x ∈ perm_heads \/ x ∈ perm_tails) /\ n <= x.

(** ** The entry points that call the samplers *)

(** The outcome of a program with a loop that need not terminate, run with
    a bound on the iterations of that loop: [None] when the bound is
    reached. *)
Definition bounded (A : Type) : Type := world -> option (result (A * world)).

Section Entrypoints.
Context {Net St : Type} {NO : NetworkOps Net} {MO : ModelOps Net St}.
Context {RS : RandomStream} {LM : Libm} {RK : Ranker}.

(** [generateNetwork()] *)
Definition generateNetwork (this : LatentOrderLikelihood Net St)
  : prog (gen_result Net) :=
  let n := netSize (network (model this)) in
  vertices <- make_vertices this n ;;
  generateNetworkWithOrder this vertices false.

(** [generateNetworkReturnChanges()] *)
Definition generateNetworkReturnChanges
  (this : LatentOrderLikelihood Net St) : prog (gen_result Net) :=
  let n := netSize (network (model this)) in
  vertices <- make_vertices this n ;;
  generateNetworkWithOrder this vertices true.

(** [variationalModelFrame(nOrders, downsampleRate)]; the [List] it
    returns grows by [push_back]. *)
Definition variationalModelFrame (this : LatentOrderLikelihood Net St)
  (nOrders : Z) (downsampleRate : Q) : prog (list frame_result) :=
  let n := netSize (network (model this)) in
  for_range 0 nOrders
    (fun _ result =>
       vertices <- make_vertices this n ;;
       r <- modelFrameGivenOrder this downsampleRate vertices ;;
       ret (result ++ [r]))
    [].

(** [variationalModelFrameWithFunc(nOrders, downsampleRate,
    vertexOrderingFunction)]; the R function, converted to a vector of
    [int], is a program that returns a list. *)
Definition variationalModelFrameWithFunc
  (this : LatentOrderLikelihood Net St) (nOrders : Z) (downsampleRate : Q)
  (vertexOrderingFunction : prog (list Z)) : prog (list frame_result) :=
  for_range 0 nOrders
    (fun _ result =>
       vertices <- vertexOrderingFunction ;;
       r <- modelFrameGivenOrder this downsampleRate vertices ;;
       ret (result ++ [r]))
    [].

(** [floor(Rf_runif(0,1)*n)], converted to [int]. *)
Definition draw_index (n : Z) : prog Z :=
  u <- Rf_runif 0 1 ;;
  ret (Qfloor (u * inject_Z n)).

(** [int ind_1 = floor(Rf_runif(0,1)*n);
     int ind_2 = floor(Rf_runif(0,1)*n);] *)
Definition draw_two (n : Z) : prog (Z * Z) :=
  ind_1 <- draw_index n ;;
  ind_2 <- draw_index n ;;
  ret (ind_1, ind_2).

(** [while(ind_1 == ind_2){ ind_1 = floor(Rf_runif(0,1)*n);
                            ind_2 = floor(Rf_runif(0,1)*n); }]
    with at most [fuel] iterations. *)
Fixpoint redraw_pair (fuel : nat) (n : Z) (ind_1 ind_2 : Z)
  : bounded (Z * Z) :=
  fun w =>
    if ind_1 =? ind_2 then
      match fuel with
      | O => None
      | Datatypes.S fuel' =>
          match draw_two n w with
          | Ok (ind_1, ind_2, w') => redraw_pair fuel' n ind_1 ind_2 w'
          | Fail f => Some (Fail f)
          end
      end
    else Some (Ok (ind_1, ind_2, w)).

(** The two draws and the loop that redraws them while they are equal. *)
Definition draw_pair (fuel : nat) (n : Z) : bounded (Z * Z) :=
  fun w =>
    match draw_two n w with
    | Ok (ind_1, ind_2, w') => redraw_pair fuel n ind_1 ind_2 w'
    | Fail f => Some (Fail f)
    end.

(** [count] iterations of the loop of [generateNetworkUnconstrained] that
    draws the dyads: each appends [verts[ind_1]] to the heads and
    [verts[ind_2]] to the tails. *)
Fixpoint sample_dyads (fuel : nat) (count : nat) (n : Z) (verts : list Z)
  (perm_head perm_tail : list Z) : bounded (list Z * list Z) :=
  fun w =>
    match count with
    | O => Some (Ok (perm_head, perm_tail, w))
    | Datatypes.S count' =>
        match draw_pair fuel n w with
        | None => None
        | Some (Fail f) => Some (Fail f)
        | Some (Ok (ind_1, ind_2, w')) =>
            match vec_get verts ind_1, vec_get verts ind_2 with
            | Ok h, Ok t =>
                sample_dyads fuel count' n verts (perm_head ++ [h])
                  (perm_tail ++ [t]) w'
            | _, _ => Some (Fail UndefinedBehaviour)
            end
        end
    end.

(** [generateNetworkUnconstrained(truncRate)], each of its [while] loops
    run for at most [fuel] iterations.  The condition [i < e*truncRate] of
    the loop over [i] compares the [int] with a [double]: it holds for the
    [i] below the ceiling of [e*truncRate].  The number of dyads [e] is
    halved when the network is directed. *)
Definition generateNetworkUnconstrained (fuel : nat)
  (this : LatentOrderLikelihood Net St) (truncRate : Q)
  : bounded (gen_result Net) :=
  fun w =>
    let n := netSize (network (model this)) in
    let e := n * (n - 1) in
    let e := if isDirected (network (model this)) then e / 2 else e in
    let verts := seqZ 0 n in
    let count := Z.to_nat (Qceiling (inject_Z e * truncRate)) in
    match sample_dyads fuel count n verts [] [] w with
    | None => None
    | Some (Fail f) => Some (Fail f)
    | Some (Ok (perm_head, perm_tail, w')) =>
        Some (generateNetworkWithEdgeOrder this perm_head perm_tail w')
    end.
End Entrypoints.

(** ** Further specifications *)

(** [ensures c w P]: if the program [c], run from the world [w], returns,
    then its value and final world satisfy [P]. *)
Definition ensures {A} (c : prog A) (w : world) (P : A -> world -> Prop)
  : Prop :=
  forall a w', c w = Ok (a, w') -> P a w'.

(** Every entry of [l] is related by [R] to the entries after it. *)
Fixpoint all_ordered {A} (R : A -> A -> Prop) (l : list A) : Prop :=
  match l with
  | [] => True
  | a :: l' => Forall (R a) l' /\ all_ordered R l'
  end.

(** The order of two indices by their values in [y]. *)
Definition rank_le (y : list Z) (a b : Z) : Prop :=
  forall ya yb, y !! Z.to_nat a = Some ya -> y !! Z.to_nat b = Some yb ->
                ya <= yb.

Section FrameStart.
Context {Net St : Type} {NO : NetworkOps Net} {MO : ModelOps Net St}.

(** The locals of the replay samplers before their loop. *)
Definition frame_start (this : LatentOrderLikelihood Net St)
  (workingVertOrder : list Z) : frame Net St :=
  let runningModel := m_calculate
    (setNetwork (noTieModel this) (network (noTieModel this))) in
  mkFrame runningModel (m_statistics runningModel)
          (m_statistics runningModel) workingVertOrder []
          (replicate (length (m_statistics runningModel)) []).
End FrameStart.

Section CalcSpec.
Context {Net St : Type} {NO : NetworkOps Net} {MO : ModelOps Net St}.

(** The running model of [calcChangeStats] after the dyad
    [(vertex, alter)], when the tentative update is given the actor index
    [k]: the update is kept, and the edge toggled, when the observed
    network has the tie; it is rolled back otherwise. *)
Definition calc_after (this : LatentOrderLikelihood Net St)
  (vert_order : list Z) (vertex alter k : Z) (rm : Model Net St)
  : Model Net St :=
  let rm' := m_dyadUpdate rm vertex alter vert_order k in
  if hasEdge (network (model this)) vertex alter
  then m_toggle rm' vertex alter
  else m_rollback rm'.

(** The locals of [calcChangeStats] after the iteration [i] for the dyad
    [(vertex, alter)] with the actor index [k]. *)
Definition calc_step (this : LatentOrderLikelihood Net St)
  (vert_order : list Z) (i vertex alter k : Z) (s : calc Net St)
  : calc Net St :=
  let rm' := m_dyadUpdate (c_runningModel s) vertex alter vert_order k in
  mkCalc (calc_after this vert_order vertex alter k (c_runningModel s)) k
         (<[Z.to_nat i :=
              Some (zip_with Qminus (m_statistics rm')
                      (m_statistics (c_runningModel s)))]>
            (c_result s : list (option (list Q)))).
End CalcSpec.

(** The sum of vectors of [k] entries. *)
Definition vsum (k : nat) (vs : list (list Q)) : list Q :=
  fold_left (zip_with Qplus) vs (replicate k 0%Q).

(** The change statistics, among those of the list [cs], of the positions of
    the edge order at which the network [obs] has a tie. *)
Definition realized_changes {Net} `{NetworkOps Net} (obs : Net)
  (perm_heads perm_tails : list Z) (cs : list (option (list Q)))
  : list (list Q) :=
  omap (fun thc : Z * Z * option (list Q) =>
          if hasEdge obs (fst (fst thc)) (snd (fst thc)) then snd thc
          else None)
       (zip (zip perm_tails perm_heads) cs).

(** The visits of the replay over an edge order whose retain decisions are
    [flags]: the dyad (tail, head) of each position and, in a directed
    graph, its reverse, both with the decision of the position. *)
Definition edge_visits (directed : bool) (perm_heads perm_tails : list Z)
  (flags : list bool) : list visit :=
  flat_map (fun thb : Z * Z * bool =>
              (fst (fst thb), snd (fst thb), snd thb)
              :: if directed
                 then [(snd (fst thb), fst (fst thb), snd thb)] else [])
           (zip (zip perm_tails perm_heads) flags).

(** [effect k w w']: from the world [w] to the world [w'], [k] uniform
    draws were taken and nothing was printed. *)
Definition effect (k : nat) (w w' : world) : Prop :=
  rng_pos w' = (rng_pos w + k)%nat /\ Rcout w' = Rcout w.

(** The number of draws of the generative sampler over a vertex order of a
    network of [n >= 1] vertices. *)
Definition gen_draws (directed : bool) (n : Z) : Z :=
  (n - 1) * (n - 1) + if directed then n * (n - 1) / 2 else 0.

(** The indices [r] are in the order of their values in [y]. *)
Definition sorted_by (y r : list Z) : Prop :=
  forall (i j : nat) (a b ya yb : Z),
    (i < j)%nat -> r !! i = Some a -> r !! j = Some b ->
    y !! Z.to_nat a = Some ya -> y !! Z.to_nat b = Some yb ->
    ya <= yb.

(** A slot of a list of change statistics that holds a vector of [k]
    entries. *)
Definition filled (k : nat) (slot : option (list Q)) : Prop :=
  exists v, slot = Some v /\ length v = k.

(** The slots of the list [cs] at the indices below [upto] hold vectors of
    [k] entries. *)
Definition slots_filled (k : nat) (upto : Z) (cs : list (option (list Q)))
  : Prop :=
  forall idx : nat, Z.of_nat idx < upto ->
    exists slot, cs !! idx = Some slot /\ filled k slot.

(** The number of dyads of [n] vertices. *)
Definition dyad_count (directed : bool) (n : Z) : Z :=
  if directed then n * (n - 1) else n * (n - 1) / 2.

(** A stream of draws that alternates between 0 and 1/2. *)
Definition alternating_stream : RandomStream :=
  fun k => if Nat.even k then 0%Q else (1 # 2)%Q.

(** The engines of the scenarios: [square] is not directed and has four
    vertices, [triangle] is directed and has three. *)
Definition on_square : LatentOrderLikelihood EdgeCount.graph EdgeCount.state :=
  EdgeCount.engine_of (EdgeCount.null_model 1 None EdgeCount.square).

Definition on_triangle
  : LatentOrderLikelihood EdgeCount.graph EdgeCount.state :=
  EdgeCount.engine_of (EdgeCount.null_model 1 None EdgeCount.triangle).

(** Modelled from the spec: [edgelist()] of the network collaborator, a
    "sequence<(int,int)>". *)
Class EdgeListOps (Net : Type) : Type := edgelist : Net -> list (Z * Z).

Section FramesUnconstrained.
Context {Net St : Type} {NO : NetworkOps Net} {MO : ModelOps Net St}.
Context {EL : EdgeListOps Net} {RS : RandomStream} {RK : Ranker}.

(** The loop of [variationalModelFrameUnconstrained] that adds dyads to
    the edge order, from the index [i] on:
    [for(int i=0; i < (e*truncRate - perm_heads.size()); i++)], with [x]
    for [e*truncRate].  The condition is evaluated before every iteration
    with the size the list has then.  The loop, and the loop inside it
    that redraws equal indices, run for at most [fuel] iterations. *)
Fixpoint add_dyads (fuel steps : nat) (x : Q) (n : Z) (verts : list Z)
  (i : Z) (perm_heads perm_tails : list Z) : bounded (list Z * list Z) :=
  fun w =>
    if Qltb (inject_Z i) (x - inject_Z (vsize perm_heads)) then
      match steps with
      | O => None
      | Datatypes.S steps' =>
          match draw_pair fuel n w with
          | None => None
          | Some (Fail f) => Some (Fail f)
          | Some (Ok (ind_1, ind_2, w')) =>
              match vec_get verts ind_1, vec_get verts ind_2 with
              | Ok h, Ok t =>
                  add_dyads fuel steps' x n verts (i + 1)
                    (perm_heads ++ [h]) (perm_tails ++ [t]) w'
              | _, _ => Some (Fail UndefinedBehaviour)
              end
          end
      end
    else Some (Ok (perm_heads, perm_tails, w)).

(** [this->shuffle(perm_heads, perm_heads.size());
     this->shuffle(perm_tails, perm_tails.size());
     result.push_back(this->modelFrameGivenEdgeOrder(
                        downsampleRate, perm_heads, perm_tails));]
    The two vectors are shuffled in place. *)
Definition frame_of_shuffled (this : LatentOrderLikelihood Net St)
  (downsampleRate : Q) (perm_heads perm_tails : list Z)
  : prog (list Z * list Z * frame_result) :=
  perm_heads <- shuffle perm_heads (vsize perm_heads) ;;
  perm_tails <- shuffle perm_tails (vsize perm_tails) ;;
  r <- modelFrameGivenEdgeOrder this downsampleRate perm_heads perm_tails ;;
  ret (perm_heads, perm_tails, r).

(** The loop over the orders of [variationalModelFrameUnconstrained]:
    [perm_heads] and [perm_tails] are declared before it and keep their
    entries from one order to the next. *)
Fixpoint frames_unconstrained (fuel : nat)
  (this : LatentOrderLikelihood Net St) (downsampleRate x : Q) (n : Z)
  (orders : nat) (perm_heads perm_tails : list Z)
  (result : list frame_result) : bounded (list frame_result) :=
  fun w =>
    match orders with
    | O => Some (Ok (result, w))
    | Datatypes.S orders' =>
        match add_dyads fuel fuel x n (seqZ 0 n) 0 perm_heads perm_tails w
        with
        | None => None
        | Some (Fail f) => Some (Fail f)
        | Some (Ok (perm_heads, perm_tails, w1)) =>
            match frame_of_shuffled this downsampleRate perm_heads
                    perm_tails w1 with
            | Fail f => Some (Fail f)
            | Ok (perm_heads, perm_tails, r, w2) =>
                frames_unconstrained fuel this downsampleRate x n orders'
                  perm_heads perm_tails (result ++ [r]) w2
            end
        end
    end.

(** [variationalModelFrameUnconstrained(nOrders, downsampleRate,
    truncRate)].  The edge order starts from the edge list of the
    network: the first entries of its pairs are the heads, the second the
    tails.  As in [generateNetworkUnconstrained] the number of dyads [e]
    is halved when the network is directed. *)
Definition variationalModelFrameUnconstrained (fuel : nat)
  (this : LatentOrderLikelihood Net St) (nOrders : Z)
  (downsampleRate truncRate : Q) : bounded (list frame_result) :=
  let n := netSize (network (model this)) in
  let e := n * (n - 1) in
  let e := if isDirected (network (model this)) then e / 2 else e in
  let edges := edgelist (network (model this)) in
  frames_unconstrained fuel this downsampleRate (inject_Z e * truncRate) n
    (Z.to_nat nOrders) (fst <$> edges) (snd <$> edges) [].
End FramesUnconstrained.

(** The number of iterations of the loop that adds dyads to an edge order of
    [s] entries, from the index [i] on: the [j >= 0] with
    [i + j < x - (s + j)]. *)
Definition dyads_added (x : Q) (s i : Z) : nat :=
  Z.to_nat (Qceiling ((x - inject_Z s - inject_Z i) / 2)).

(** The sizes of the edge order in the [orders] next frames, when it has
    [s] entries now. *)
Fixpoint edge_order_sizes (x : Q) (s : Z) (orders : nat) : list Z :=
  match orders with
  | O => []
  | Datatypes.S orders' =>
      let s' := s + Z.of_nat (dyads_added x s 0) in
      s' :: edge_order_sizes x s' orders'
  end.

(** The number of rows of the frame of an edge order of [s] entries when
    every dyad is retained. *)
Definition frame_rows (directed : bool) (s : Z) : Z :=
  (if directed then 2 else 1) * s.

(** The edge list of a graph of the scenarios. *)
Definition graph_edgelist : EdgeListOps EdgeCount.graph := EdgeCount.g_edges.

(** ** Reasoning about programs *)

Section ProgramLogic.
Context {A B : Type}.

Lemma returns_ret (a : A) w (P : A -> world -> Prop) :
  P a w -> returns (ret a) w P.
Proof. done. Qed.

Lemma returns_bind (c : prog A) (k : A -> prog B) w
  (P : B -> world -> Prop) :
  returns c w (fun a w' => returns (k a) w' P) -> returns (bind c k) w P.
Proof.
  unfold returns, bind. destruct (c w) as [[a w']|]; done.
Qed.

Lemma returns_lift (r : result A) (a : A) w (P : A -> world -> Prop) :
  r = Ok a -> P a w -> returns (lift r) w P.
Proof. intros -> ?. done. Qed.

Lemma returns_mono (c : prog A) w (P Q : A -> world -> Prop) :
  returns c w P -> (forall a w', P a w' -> Q a w') -> returns c w Q.
Proof.
  unfold returns. destruct (c w) as [[a w']|]; [|done]. auto.
Qed.

Lemma returns_elim (c : prog A) w (P : A -> world -> Prop) :
  returns c w P -> exists a w', c w = Ok (a, w') /\ P a w'.
Proof.
  unfold returns. destruct (c w) as [[a w']|]; [|done]. eauto.
Qed.

Lemma returns_intro (c : prog A) w (P : A -> world -> Prop) a w' :
  c w = Ok (a, w') -> P a w' -> returns c w P.
Proof. unfold returns. intros ->. done. Qed.
End ProgramLogic.

(** The loop rule: an invariant [I i s w] that holds on entry and that the
    body carries from [i] to [i + 1] holds at the exit, and the loop
    returns. *)
Lemma returns_for_steps {S} (I : Z -> S -> world -> Prop)
  (body : Z -> S -> prog S) (k : nat) (lo : Z) (s : S) (w : world) :
  I lo s w ->
  (forall i s w, lo <= i < lo + Z.of_nat k -> I i s w ->
                 returns (body i s) w (I (i + 1))) ->
  returns (for_steps k lo body s) w (I (lo + Z.of_nat k)).
Proof.
  revert lo s w. induction k as [|k IH]; intros lo s w Hinit Hstep.
  - simpl. apply returns_ret. by replace (lo + Z.of_nat 0) with lo by lia.
  - simpl. apply returns_bind.
    eapply returns_mono; [apply Hstep; [lia|done]|].
    intros s' w' Hs'.
    replace (lo + Z.of_nat (Datatypes.S k)) with (lo + 1 + Z.of_nat k) by lia.
    apply IH; [done|]. intros i s0 w0 Hi. apply Hstep. lia.
Qed.

Lemma returns_for_range {S} (I : Z -> S -> world -> Prop)
  (body : Z -> S -> prog S) (lo hi : Z) (s : S) (w : world) :
  lo <= hi ->
  I lo s w ->
  (forall i s w, lo <= i < hi -> I i s w -> returns (body i s) w (I (i + 1))) ->
  returns (for_range lo hi body s) w (I hi).
Proof.
  intros Hle Hinit Hstep. unfold for_range.
  replace hi with (lo + Z.of_nat (Z.to_nat (hi - lo))) at 2 by lia.
  apply returns_for_steps; [done|].
  intros i s0 w0 Hi. apply Hstep. lia.
Qed.

(** A loop whose bounds admit no iteration returns its initial state. *)
Lemma for_range_empty {S} (body : Z -> S -> prog S) (lo hi : Z) (s : S) w :
  hi <= lo -> for_range lo hi body s w = Ok (s, w).
Proof.
  intros Hle. unfold for_range.
  by replace (Z.to_nat (hi - lo)) with O by lia.
Qed.

(** ** Vectors *)

Lemma vec_get_Ok {T} (vec : list T) (i : Z) (x : T) :
  0 <= i -> vec !! Z.to_nat i = Some x -> vec_get vec i = Ok x.
Proof.
  intros Hi Hx. unfold vec_get.
  destruct (Z.ltb_spec i 0); [lia|]. by rewrite Hx.
Qed.

Lemma vec_get_inv {T} (vec : list T) (i : Z) (x : T) :
  vec_get vec i = Ok x -> 0 <= i /\ vec !! Z.to_nat i = Some x.
Proof.
  unfold vec_get. destruct (Z.ltb_spec i 0); [done|].
  destruct (vec !! Z.to_nat i); [|done]. by intros [= ->].
Qed.

Lemma vec_get_lt {T} (vec : list T) (i : Z) :
  0 <= i < vsize vec -> exists x, vec_get vec i = Ok x.
Proof.
  unfold vsize. intros Hi.
  destruct (lookup_lt_is_Some_2 vec (Z.to_nat i)) as [x Hx]; [lia|].
  exists x. apply vec_get_Ok; [lia|done].
Qed.

Lemma vec_set_Ok {T} (vec : list T) (i : Z) (x : T) :
  0 <= i < vsize vec -> vec_set vec i x = Ok (<[Z.to_nat i := x]> vec).
Proof.
  unfold vsize, vec_set. intros Hi.
  destruct (Z.ltb_spec i 0); [lia|].
  destruct (Nat.ltb_spec (Z.to_nat i) (length vec)); [done|lia].
Qed.

(** ** The shuffle *)

Lemma insert_Permutation_delete {T} (l : list T) (i : nat) (a b : T) :
  l !! i = Some a -> <[i := b]> l ≡ₚ b :: delete i l.
Proof.
  revert i. induction l as [|x l IH]; intros [|i] Hi; simplify_eq/=.
  - done.
  - rewrite (IH i Hi). apply Permutation_swap.
Qed.

(** Exchanging the entries at two positions of a list permutes it. *)
Lemma swap_Permutation {T} (l : list T) (i j : nat) (a b : T) :
  l !! i = Some a -> l !! j = Some b ->
  <[j := a]> (<[i := b]> l) ≡ₚ l.
Proof.
  intros Hi Hj. destruct (decide (i = j)) as [->|Hne].
  - simplify_eq. rewrite list_insert_insert_eq. by rewrite list_insert_id.
  - assert (Hj' : <[i := b]> l !! j = Some b)
      by (by rewrite list_lookup_insert_ne).
    rewrite (insert_Permutation_delete _ j b a Hj').
    assert (Hdel : delete j (<[i := b]> l) ≡ₚ delete i l).
    { apply (Permutation_cons_inv (a := b)).
      rewrite <- (delete_Permutation _ j b Hj').
      by apply insert_Permutation_delete with a. }
    rewrite Hdel. symmetry. by apply delete_Permutation.
Qed.

(** The index that [shuffle] draws at step [i] lies between [i] and
    [offset - 1]. *)
Lemma runif_floor_range (i offset : Z) (u : Q) :
  i < offset -> (0 <= u)%Q -> (u < 1)%Q ->
  i <= Qfloor (inject_Z i + (inject_Z offset - inject_Z i) * u) < offset.
Proof.
  intros Hlt Hu0 Hu1.
  assert (Hio : (inject_Z i < inject_Z offset)%Q) by (by rewrite <- Zlt_Qlt).
  set (x := (inject_Z i + (inject_Z offset - inject_Z i) * u)%Q).
  assert (Hlo : (inject_Z i <= x)%Q) by (unfold x; nra).
  assert (Hhi : (x < inject_Z offset)%Q) by (unfold x; nra).
  split.
  - rewrite <- (Qfloor_Z i). by apply Qfloor_resp_le.
  - rewrite Zlt_Qlt. eapply Qle_lt_trans; [apply Qfloor_le|done].
Qed.

Section ShuffleSpec.
Context `{UnitStream}.

Lemma shuffle_body_spec {T} (vec0 vec : list T) (offset i : Z) w0 w :
  0 <= i < offset - 1 -> offset <= vsize vec0 ->
  shuffled vec0 offset w0 vec w ->
  returns (shuffle_body offset i vec) w (shuffled vec0 offset w0).
Proof.
  intros Hi Hoff (Hperm & Hdrop & Hlen & Hout).
  unfold shuffle_body, vsize in *.
  apply returns_bind. unfold returns at 1, Rf_runif.
  destruct (unit_stream (rng_pos w)) as [Hu0 Hu1].
  pose proof (runif_floor_range i offset _ ltac:(lia) Hu0 Hu1) as Hind.
  set (ind := Qfloor _) in *. simpl.
  destruct (lookup_lt_is_Some_2 vec (Z.to_nat i)) as [a Ha]; [lia|].
  destruct (lookup_lt_is_Some_2 vec (Z.to_nat ind)) as [b Hb]; [lia|].
  apply returns_bind, (returns_lift _ a); [apply vec_get_Ok; [lia|done]|].
  apply returns_bind, (returns_lift _ b); [apply vec_get_Ok; [lia|done]|].
  apply returns_bind.
  eapply returns_lift; [apply vec_set_Ok; unfold vsize; lia|].
  eapply returns_lift;
    [apply vec_set_Ok; unfold vsize; rewrite length_insert; lia|].
  repeat split.
  - rewrite <- Hperm.
    rewrite !take_insert_lt by lia.
    apply (swap_Permutation _ _ _ a b); rewrite lookup_take_lt; (done || lia).
  - rewrite <- Hdrop. by rewrite !drop_insert_lt by lia.
  - by rewrite !length_insert.
  - done.
Qed.

Lemma shuffle_spec {T} (vec : list T) (offset : Z) w :
  offset <= vsize vec ->
  returns (shuffle vec offset) w (shuffled vec offset w).
Proof.
  intros Hoff. unfold shuffle.
  destruct (Z_le_gt_dec (offset - 1) 0) as [Hsmall|Hbig].
  - unfold returns. rewrite for_range_empty by done. by repeat split.
  - apply (returns_for_range (fun _ => shuffled vec offset w)); [lia| |].
    + by repeat split.
    + intros i v w' Hi Hinv. by apply shuffle_body_spec.
Qed.
End ShuffleSpec.

(** ** Dyads of a vertex order *)

Lemma pairs_at_Permutation directed vertex (l l' : list Z) :
  l ≡ₚ l' -> pairs_at directed vertex l ≡ₚ pairs_at directed vertex l'.
Proof. intros Hp. unfold pairs_at. by apply Permutation_flat_map. Qed.

Lemma with_first_Permutation directed x (l l' : list Z) :
  l ≡ₚ l' -> with_first directed x l ≡ₚ with_first directed x l'.
Proof. intros Hp. unfold with_first. by apply Permutation_flat_map. Qed.

Lemma dyads_nil directed : dyads directed [] = [].
Proof. done. Qed.

(** The dyads of [order ++ [x]]: those of [order], then the step of [x]. *)
Lemma dyads_snoc directed (order : list Z) (x : Z) :
  dyads directed (order ++ [x])
  = dyads directed order ++ pairs_at directed x order.
Proof.
  unfold dyads. rewrite imap_app, concat_app. simpl.
  rewrite Nat.add_0_r, app_nil_r, take_app_length. f_equal. f_equal.
  apply imap_ext. intros i v Hi. simpl.
  rewrite take_app_le; [done|]. apply lookup_lt_Some in Hi. lia.
Qed.

Lemma dyads_take_S directed (order : list Z) (i : nat) (x : Z) :
  order !! i = Some x ->
  dyads directed (take (Datatypes.S i) order)
  = dyads directed (take i order) ++ pairs_at directed x (take i order).
Proof.
  intros Hx. rewrite (take_S_r _ _ _ Hx). apply dyads_snoc.
Qed.

Lemma pairs_at_cons directed v x (l : list Z) :
  pairs_at directed v (x :: l)
  = ((v, x) :: if directed then [(x, v)] else []) ++ pairs_at directed v l.
Proof. done. Qed.

Lemma pairs_at_snoc directed v x (l : list Z) :
  pairs_at directed v (l ++ [x])
  = pairs_at directed v l ++ ((v, x) :: if directed then [(x, v)] else []).
Proof. unfold pairs_at. rewrite flat_map_app. simpl. by rewrite app_nil_r. Qed.

(** The dyads of [x :: l]: those of [l], and those between [x] and the
    vertices of [l]. *)
Lemma dyads_cons directed (x : Z) (l : list Z) :
  dyads directed (x :: l) ≡ₚ with_first directed x l ++ dyads directed l.
Proof.
  induction l as [|y l IH] using rev_ind; [done|].
  rewrite app_comm_cons, !dyads_snoc, IH. simpl.
  unfold with_first at 2. rewrite flat_map_app. simpl.
  fold (with_first directed x l). rewrite app_nil_r.
  rewrite <- !app_assoc. apply Permutation_app_head. simpl.
  rewrite <- Permutation_middle. constructor.
  rewrite !app_assoc. apply Permutation_app_tail, Permutation_app_comm.
Qed.

Lemma with_first_cons directed x y (l : list Z) :
  with_first directed x (y :: l)
  = ((y, x) :: if directed then [(x, y)] else []) ++ with_first directed x l.
Proof. done. Qed.

Lemma elem_of_pairs_at directed v (l : list Z) (d : Z * Z) :
  d ∈ pairs_at directed v l ->
  exists a, a ∈ l /\ (d = (v, a) \/ d = (a, v)).
Proof.
  unfold pairs_at. rewrite list_elem_of_In, in_flat_map.
  intros (a & Ha & Hd). exists a. rewrite list_elem_of_In. split; [done|].
  destruct Hd as [<-|Hd]; [by left|].
  destruct directed; simpl in Hd; [|done].
  destruct Hd as [<-|[]]. by right.
Qed.

Lemma elem_of_with_first directed x (l : list Z) (d : Z * Z) :
  d ∈ with_first directed x l ->
  exists y, y ∈ l /\ (d = (y, x) \/ d = (x, y)).
Proof.
  unfold with_first. rewrite list_elem_of_In, in_flat_map.
  intros (a & Ha & Hd). exists a. rewrite list_elem_of_In. split; [done|].
  destruct Hd as [<-|Hd]; [by left|].
  destruct directed; simpl in Hd; [|done].
  destruct Hd as [<-|[]]. by right.
Qed.

(** Both ends of a dyad of an order are vertices of the order. *)
Lemma elem_of_dyads directed (l : list Z) (d : Z * Z) :
  d ∈ dyads directed l -> fst d ∈ l /\ snd d ∈ l.
Proof.
  induction l as [|x l IH] using rev_ind; [by rewrite dyads_nil, elem_of_nil|].
  rewrite dyads_snoc, elem_of_app. intros [Hd|Hd].
  - destruct (IH Hd). split; apply elem_of_app; by left.
  - apply elem_of_pairs_at in Hd as (a & Ha & [->| ->]); simpl;
      split; apply elem_of_app; (by left) || (right; by apply list_elem_of_singleton).
Qed.

Lemma canon_fst_snd directed (d : Z * Z) :
  (fst (canon directed d) = fst d /\ snd (canon directed d) = snd d)
  \/ (fst (canon directed d) = snd d /\ snd (canon directed d) = fst d).
Proof. unfold canon. destruct directed; simpl; lia. Qed.

Lemma canon_swap (x y : Z) : canon false (x, y) = canon false (y, x).
Proof. unfold canon. simpl. f_equal; lia. Qed.

(** Two pairs are the same dyad exactly when they have one representative. *)
Lemma same_dyad_canon directed (u v x y : Z) :
  same_dyad directed u v x y = true
  <-> canon directed (u, v) = canon directed (x, y).
Proof.
  unfold same_dyad, canon. destruct directed; simpl.
  - rewrite orb_false_r, andb_true_iff, !Z.eqb_eq. split.
    + by intros [-> ->].
    + by intros [= -> ->].
  - rewrite orb_true_iff, !andb_true_iff, !Z.eqb_eq. split.
    + intros [[-> ->]|[-> ->]]; f_equal; lia.
    + intros [= Hmin Hmax]. lia.
Qed.

Lemma map_canon_with_first_NoDup directed x (l : list Z) :
  x ∉ l -> NoDup l -> NoDup (canon directed <$> with_first directed x l).
Proof.
  intros Hx Hl. induction Hl as [|y l Hy Hl IH]; [constructor|].
  apply not_elem_of_cons in Hx as [Hxy Hx].
  assert (Hrest : forall z, canon directed z ∈ canon directed <$> with_first directed x l ->
                            z <> (y, x) /\ z <> (x, y)).
  { intros z Hz. apply list_elem_of_fmap in Hz as (d & Hd & Hin).
    apply elem_of_with_first in Hin as (y' & Hy' & Hdd).
    assert (y' <> y) by (by intros ->).
    split; intros ->; destruct Hdd as [-> | ->];
      apply same_dyad_canon in Hd; unfold same_dyad in Hd;
      destruct directed; simpl in Hd;
      rewrite ?orb_false_r, ?orb_true_iff, ?andb_true_iff, ?Z.eqb_eq in Hd;
      lia. }
  rewrite with_first_cons, fmap_app.
  specialize (IH Hx).
  destruct directed; rewrite ?fmap_cons, ?fmap_nil; cbn [app].
  - apply NoDup_cons. split.
    + rewrite not_elem_of_cons. split; [intros [=]; lia|].
      intros Hin. by destruct (Hrest _ Hin).
    + apply NoDup_cons. split; [|done].
      intros Hin. by destruct (Hrest _ Hin).
  - apply NoDup_cons. split; [|done].
    intros Hin. by destruct (Hrest _ Hin).
Qed.

(** In an order without repetitions every dyad occurs once. *)
Lemma dyads_canon_NoDup directed (l : list Z) :
  NoDup l -> NoDup (canon directed <$> dyads directed l).
Proof.
  intros Hl. induction Hl as [|x l Hx Hl IH]; [constructor|].
  rewrite (dyads_cons directed x l), fmap_app.
  apply NoDup_app. split; [by apply map_canon_with_first_NoDup|]. split; [|done].
  intros e He1 He2.
  apply list_elem_of_fmap in He1 as (d1 & -> & Hd1).
  apply list_elem_of_fmap in He2 as (d2 & Heq & Hd2).
  apply elem_of_with_first in Hd1 as (y & Hy & Hd1).
  apply elem_of_dyads in Hd2 as [H1 H2].
  assert (x = fst d2 \/ x = snd d2) as [->| ->]; [|done|done].
  destruct (canon_fst_snd directed d2) as [[E1 E2]|[E1 E2]];
    rewrite <- Heq in E1, E2;
    destruct (canon_fst_snd directed d1) as [[F1 F2]|[F1 F2]];
    rewrite F1 in E1; rewrite F2 in E2;
    destruct Hd1 as [-> | ->]; simpl in *; auto.
Qed.

(** Permuting the order permutes its dyads. *)
Lemma dyads_canon_Permutation directed (l l' : list Z) :
  l ≡ₚ l' ->
  canon directed <$> dyads directed l ≡ₚ canon directed <$> dyads directed l'.
Proof.
  induction 1 as [|x l l' Hp IH|x y l|l l' l'' _ IH1 _ IH2].
  - done.
  - rewrite !dyads_cons, !fmap_app, IH.
    by rewrite (with_first_Permutation directed x l l' Hp).
  - rewrite (dyads_cons directed y (x :: l)), (dyads_cons directed x l).
    rewrite (dyads_cons directed x (y :: l)), (dyads_cons directed y l).
    rewrite !with_first_cons, !fmap_app.
    destruct directed; rewrite ?fmap_cons, ?fmap_nil; cbn [app].
    + rewrite (Permutation_swap (canon true (x, y)) (canon true (y, x))).
      do 2 constructor.
      rewrite !app_assoc. apply Permutation_app_tail, Permutation_app_comm.
    + rewrite (canon_swap x y). constructor.
      rewrite !app_assoc. apply Permutation_app_tail, Permutation_app_comm.
  - by etrans.
Qed.

Lemma with_first_length directed x (l : list Z) :
  length (with_first directed x l)
  = ((if directed then 2 else 1) * length l)%nat.
Proof.
  induction l as [|y l IH]; [by destruct directed|].
  rewrite with_first_cons, length_app, IH.
  destruct directed; simpl; lia.
Qed.

(** An order of [n] vertices has [n (n - 1)] dyads if the graph is directed
    and half as many if it is not. *)
Lemma dyads_length directed (l : list Z) :
  Z.of_nat (length (dyads directed l))
  = if directed then vsize l * (vsize l - 1)
    else vsize l * (vsize l - 1) / 2.
Proof.
  assert (Hl : (2 * Z.of_nat (length (dyads false l)) = vsize l * (vsize l - 1))
               /\ Z.of_nat (length (dyads true l)) = vsize l * (vsize l - 1)).
  { unfold vsize. induction l as [|x l [IH1 IH2]]; [done|].
    rewrite !(Permutation_length (dyads_cons _ x l)), !length_app,
      !with_first_length. simpl length. nia. }
  destruct directed; [apply Hl|].
  destruct Hl as [Hl _]. rewrite <- Hl.
  by rewrite Z.mul_comm, Z.div_mul.
Qed.

(** ** The replay sampler *)

Lemma returns_for_range_max {S} (I : Z -> S -> world -> Prop)
  (body : Z -> S -> prog S) (lo hi : Z) (s : S) (w : world) :
  I lo s w ->
  (forall i s w, lo <= i < hi -> I i s w -> returns (body i s) w (I (i + 1))) ->
  returns (for_range lo hi body s) w (I (Z.max lo hi)).
Proof.
  intros Hinit Hstep. destruct (Z_le_gt_dec lo hi).
  - rewrite Z.max_r by done. by apply returns_for_range.
  - rewrite Z.max_l by lia. unfold returns.
    by rewrite for_range_empty by lia.
Qed.

Lemma step_visits_app directed vertex (l1 l2 : list (Z * bool)) :
  step_visits directed vertex (l1 ++ l2)
  = step_visits directed vertex l1 ++ step_visits directed vertex l2.
Proof. unfold step_visits. apply flat_map_app. Qed.

Lemma step_visits_dyads directed vertex (alters : list Z) (flags : list bool) :
  length flags = length alters ->
  v_dyad <$> step_visits directed vertex (zip alters flags)
  = pairs_at directed vertex alters.
Proof.
  revert flags. induction alters as [|a alters IH]; intros [|b flags] Hlen;
    simplify_eq/=; [done|].
  unfold step_visits, pairs_at in *. simpl.
  rewrite fmap_app, IH by done. by destruct directed.
Qed.

Lemma step_visits_filter directed vertex (alters : list Z) (flags : list bool) :
  (Forall (fun b => b = true) flags ->
   List.filter v_sample (step_visits directed vertex (zip alters flags))
   = step_visits directed vertex (zip alters flags))
  /\ (Forall (fun b => b = false) flags ->
      List.filter v_sample (step_visits directed vertex (zip alters flags))
      = []).
Proof.
  revert flags. induction alters as [|a alters IH]; intros [|b flags];
    try done.
  unfold step_visits in *. simpl. split; intros Hf;
    apply Forall_cons in Hf as [-> Hf];
    destruct directed; simpl; unfold v_sample at 1; simpl;
    rewrite ?List.filter_app; f_equal; try f_equal; by apply IH.
Qed.

Section Visited.
Context (directed : bool) (rate : Q) (order : list Z).

(** The visits of the first [i] steps are the dyads of the first [i]
    vertices, each once. *)
Lemma visited_dyads (i : nat) (V : list visit) :
  visited directed rate order i V ->
  v_dyad <$> V ≡ₚ dyads directed (take i order).
Proof.
  induction 1 as [|i V vertex alters flags _ IH Hv Halt Hlen Hflags];
    [done|].
  rewrite fmap_app, IH, (dyads_take_S _ _ _ _ Hv).
  apply Permutation_app_head.
  rewrite step_visits_dyads.
  - by apply pairs_at_Permutation.
  - rewrite Hlen, (Permutation_length Halt), length_take.
    apply lookup_lt_Some in Hv. lia.
Qed.

Lemma visited_all_retained (i : nat) (V : list visit) :
  (1 <= rate)%Q -> visited directed rate order i V ->
  List.filter v_sample V = V.
Proof.
  intros Hrate. induction 1 as [|i V vertex alters flags _ IH _ _ _ Hflags];
    [done|].
  rewrite List.filter_app, IH. f_equal. apply step_visits_filter.
  eapply Forall_impl; [done|]. intros b [Hb _]. auto.
Qed.

Lemma visited_none_retained (i : nat) (V : list visit) :
  (rate <= 0)%Q -> visited directed rate order i V ->
  List.filter v_sample V = [].
Proof.
  intros Hrate. induction 1 as [|i V vertex alters flags _ IH _ _ _ Hflags];
    [done|].
  rewrite List.filter_app, IH. simpl. apply step_visits_filter.
  eapply Forall_impl; [done|]. intros b [_ Hb]. auto.
Qed.
End Visited.

(** A draw from the unit interval is below every rate of at least 1 and not
    below any rate of at most 0. *)
Lemma unit_draw_flag_ok (rate u : Q) :
  (0 <= u)%Q -> (u < 1)%Q -> flag_ok rate (Qltb (0 + (1 - 0) * u) rate).
Proof.
  intros Hu0 Hu1. unfold flag_ok, Qltb.
  split; intros Hrate.
  - apply negb_true_iff. destruct (Qle_bool rate _) eqn:E; [|done].
    apply Qle_bool_iff in E. lra.
  - apply negb_false_iff, Qle_bool_iff. lra.
Qed.

Section ReplayProgram.
Context {Net St : Type} `{NetworkOps Net} `{ModelOps Net St}.
Context `{UnitStream}.
Context `{!NetworkLaws} `{!ModelLaws}.

Lemma push_predictors_spec (terms newTerms : list Q)
  (p : list (list Q)) (K m : nat) w :
  length terms = K -> length newTerms = K -> length p = K ->
  Forall (fun col => length col = m) p ->
  returns (push_predictors terms newTerms p) w
    (fun p' w' => w' = w /\ length p' = K
                  /\ Forall (fun col => length col = Datatypes.S m) p').
Proof.
  intros Ht Hnt Hp Hall. unfold push_predictors.
  set (I := fun (k : Z) (p' : list (list Q)) (w' : world) =>
    w' = w /\ length p' = K
    /\ forall (j : nat) col, p' !! j = Some col ->
         length col = if Z.of_nat j <? k then Datatypes.S m else m).
  eapply returns_mono.
  - apply (returns_for_range I); [unfold vsize; lia| |].
    + repeat split; [done|]. intros j col Hj.
      destruct (Z.ltb_spec (Z.of_nat j) 0); [lia|].
      rewrite Forall_lookup in Hall. by eapply Hall.
    + intros k p' w' Hk (-> & Hlen & Hcols). unfold vsize in Hk.
      destruct (vec_get_lt newTerms k) as [nt Hnt']; [unfold vsize; lia|].
      destruct (vec_get_lt terms k) as [t Ht']; [unfold vsize; lia|].
      destruct (vec_get_lt p' k) as [col Hcol]; [unfold vsize; lia|].
      apply returns_bind, (returns_lift _ nt); [done|].
      apply returns_bind, (returns_lift _ t); [done|].
      apply returns_bind, (returns_lift _ col); [done|].
      eapply returns_lift; [apply vec_set_Ok; unfold vsize; lia|].
      repeat split; [by rewrite length_insert|].
      intros j col' Hj.
      apply vec_get_inv in Hcol as [_ Hcol].
      apply list_lookup_insert_Some in Hj as [(<- & <- & _)|[Hne Hj]].
      * rewrite length_app. simpl.
        destruct (Z.ltb_spec (Z.of_nat (Z.to_nat k)) (k + 1)); [|lia].
        rewrite (Hcols _ _ Hcol).
        destruct (Z.ltb_spec (Z.of_nat (Z.to_nat k)) k); lia.
      * rewrite (Hcols _ _ Hj).
        destruct (Z.ltb_spec (Z.of_nat j) k),
          (Z.ltb_spec (Z.of_nat j) (k + 1)); lia.
  - intros p' w' (-> & Hlen & Hcols). repeat split; [done|].
    apply Forall_lookup. intros j col Hj. rewrite (Hcols _ _ Hj).
    apply lookup_lt_Some in Hj. unfold vsize.
    destruct (Z.ltb_spec (Z.of_nat j) (Z.of_nat (length terms))); lia.
Qed.

Context (this : LatentOrderLikelihood Net St).

Lemma replay_dyad_spec (sample : bool) (from to : Z) (vert_order : list Z)
  (actorIndex : Z) (V : list visit) (s : frame Net St) w :
  replayed this V s ->
  returns (replay_dyad sample (hasEdge (network (model this)) from to)
                       from to vert_order actorIndex s) w
    (fun s' w' =>
       w' = w
       /\ replayed this (V ++ [(from, to, sample)]) s'
       /\ f_workingVertOrder s' = f_workingVertOrder s
       /\ isDirected (network (f_runningModel s'))
          = isDirected (network (f_runningModel s))).
Proof.
  intros (Hout & Hnet & Hstat & Hpred & Hcols).
  assert (Hfold : forall g,
    fold_left (replay_net (network (model this)))
              (V ++ [(from, to, sample)]) g
    = replay_net (network (model this))
        (fold_left (replay_net (network (model this))) V g)
        (from, to, sample)) by (intros; by rewrite fold_left_app).
  unfold replay_dyad, m_statistics in *.
  destruct sample.
  - apply returns_bind.
    eapply returns_mono;
      [apply (push_predictors_spec _ _ _
                (length (thetas (internals (noTieModel this))))
                (length (f_outcome s)));
       [done| |done|done]|].
    { simpl. by rewrite statistics_dyadUpdate_length. }
    intros p' w' (-> & Hlen & Hcols'). apply returns_ret.
    split; [done|]. unfold replayed. simpl.
    rewrite List.filter_app, List.map_app, Hfold, <- Hnet, <- Hout. simpl.
    unfold replay_net, label, m_statistics. simpl.
    destruct (hasEdge (network (model this)) from to); simpl;
      rewrite ?statistics_rollback, ?statistics_dyadUpdate_length,
        ?isDirected_toggle, length_app, Nat.add_comm; simpl;
      by repeat split.
  - destruct (hasEdge (network (model this)) from to) eqn:E;
      apply returns_ret; (split; [done|]); unfold replayed; simpl;
      rewrite List.filter_app, Hfold, <- Hnet; simpl;
      rewrite app_nil_r; unfold replay_net, m_statistics; simpl; rewrite E;
      rewrite ?statistics_dyadUpdate_length, ?isDirected_toggle;
      by repeat split.
Qed.

Context (rate : Q) (vert_order : list Z).

Let directed : bool := isDirected (network (noTieModel this)).

Lemma frame_inner_spec (i vertex : Z) (alters : list Z) (V0 : list visit)
  (j : Z) (s : frame Net St) (flags : list bool) w :
  0 <= j < vsize alters ->
  length flags = Z.to_nat j ->
  Forall (flag_ok rate) flags ->
  replayed this
    (V0 ++ step_visits directed vertex (zip (take (Z.to_nat j) alters) flags))
    s ->
  take (length alters) (f_workingVertOrder s) = alters ->
  isDirected (network (f_runningModel s)) = directed ->
  returns (frame_inner this rate vert_order i vertex j s) w
    (fun s' w' => exists flags',
       length flags' = Z.to_nat (j + 1)
       /\ Forall (flag_ok rate) flags'
       /\ replayed this
            (V0 ++ step_visits directed vertex
                     (zip (take (Z.to_nat (j + 1)) alters) flags')) s'
       /\ f_workingVertOrder s' = f_workingVertOrder s
       /\ isDirected (network (f_runningModel s')) = directed).
Proof.
  intros Hj Hlen Hflags Hrep Halt Hdir. unfold vsize in Hj.
  destruct (lookup_lt_is_Some_2 alters (Z.to_nat j)) as [alter Ha]; [lia|].
  assert (Hw : f_workingVertOrder s !! Z.to_nat j = Some alter).
  { rewrite <- Halt in Ha. by apply lookup_take_Some in Ha as [? _]. }
  unfold frame_inner.
  apply returns_bind, (returns_lift _ alter); [apply vec_get_Ok; [lia|done]|].
  apply returns_bind. unfold returns at 1, Rf_runif.
  destruct (unit_stream (rng_pos w)) as [Hu0 Hu1].
  pose proof (unit_draw_flag_ok rate _ Hu0 Hu1) as Hflag.
  set (sample := Qltb _ rate) in *.
  assert (Hzip : zip (take (Z.to_nat (j + 1)) alters) (flags ++ [sample])
                 = zip (take (Z.to_nat j) alters) flags ++ [(alter, sample)]).
  { replace (Z.to_nat (j + 1)) with (Datatypes.S (Z.to_nat j)) by lia.
    rewrite (take_S_r _ _ _ Ha), zip_with_app; [done|].
    rewrite length_take. lia. }
  apply returns_bind.
  eapply returns_mono; [by apply replay_dyad_spec|].
  intros s1 w1 (-> & Hrep1 & Hw1 & Hd1). rewrite Hd1, Hdir.
  assert (Hlen' : length (flags ++ [sample]) = Z.to_nat (j + 1))
    by (rewrite length_app; simpl; lia).
  assert (Hflags' : Forall (flag_ok rate) (flags ++ [sample]))
    by (apply Forall_app; split; [done|by constructor]).
  destruct directed eqn:Edir.
  - eapply returns_mono; [by apply replay_dyad_spec|].
    intros s2 w2 (-> & Hrep2 & Hw2 & Hd2).
    exists (flags ++ [sample]).
    split; [done|]. split; [done|]. split; [|split; congruence].
    rewrite Hzip, step_visits_app. unfold step_visits at 2. simpl.
    rewrite <- !app_assoc in Hrep2. exact Hrep2.
  - apply returns_ret.
    exists (flags ++ [sample]).
    split; [done|]. split; [done|]. split; [|split; congruence].
    rewrite Hzip, step_visits_app. unfold step_visits at 2. simpl.
    rewrite <- !app_assoc in Hrep1. exact Hrep1.
Qed.

Lemma order_kept_lookup (working : list Z) (i : nat) (x : Z) :
  order_kept vert_order working i ->
  vert_order !! i = Some x -> working !! i = Some x.
Proof.
  intros (_ & Hdrop & _) Hx.
  rewrite <- (Nat.add_0_r i), <- lookup_drop, Hdrop, lookup_drop.
  by rewrite Nat.add_0_r.
Qed.

Lemma order_kept_S (working : list Z) (i : nat) (x : Z) :
  order_kept vert_order working i ->
  vert_order !! i = Some x ->
  order_kept vert_order working (Datatypes.S i).
Proof.
  intros Hk Hx. pose proof (order_kept_lookup _ _ _ Hk Hx) as Hw.
  destruct Hk as (Htake & Hdrop & Hlen). repeat split; [| |done].
  - rewrite (take_S_r _ _ _ Hx), (take_S_r _ _ _ Hw).
    by apply Permutation_app_tail.
  - replace (Datatypes.S i) with (i + 1)%nat by lia.
    by rewrite <- !drop_drop, Hdrop.
Qed.

Lemma frame_outer_spec (i : Z) (s : frame Net St) w :
  0 <= i < vsize vert_order ->
  frame_inv this rate vert_order i s ->
  returns (frame_outer this rate vert_order i s) w
    (fun s' _ =>
       frame_inv this rate vert_order (i + 1) s'
       /\ take (Z.to_nat i) (f_workingVertOrder s')
            ≡ₚ take (Z.to_nat i) (f_workingVertOrder s)
       /\ drop (Z.to_nat i) (f_workingVertOrder s')
            = drop (Z.to_nat i) (f_workingVertOrder s)).
Proof.
  intros Hi (V & Hvis & Hrep & Hkept & Hdir). unfold vsize in Hi.
  destruct (lookup_lt_is_Some_2 vert_order (Z.to_nat i)) as [vertex Hv];
    [lia|].
  pose proof (order_kept_lookup _ _ _ Hkept Hv) as Hw.
  pose proof Hkept as (Htake & Hdrop & Hlen).
  unfold frame_outer.
  apply returns_bind, (returns_lift _ vertex);
    [apply vec_get_Ok; [lia|done]|].
  apply returns_bind.
  eapply returns_mono; [apply shuffle_spec; unfold vsize; lia|].
  intros wvo w1 (Htake1 & Hdrop1 & Hlen1 & _).
  set (alters := take (Z.to_nat i) wvo).
  assert (Hal : length alters = Z.to_nat i)
    by (unfold alters; rewrite length_take; lia).
  set (I := fun (j : Z) (s' : frame Net St) (_ : world) =>
    exists flags : list bool,
      length flags = Z.to_nat j
      /\ Forall (flag_ok rate) flags
      /\ replayed this
           (V ++ step_visits directed vertex
                   (zip (take (Z.to_nat j) alters) flags)) s'
      /\ f_workingVertOrder s' = wvo
      /\ isDirected (network (f_runningModel s')) = directed).
  eapply returns_mono.
  - apply (returns_for_range I); [lia| |].
    + exists []. simpl. rewrite app_nil_r.
      split; [done|]. split; [done|]. split; [exact Hrep|]. by split.
    + intros j s' w' Hj (flags & Hfl & Hfo & Hrep' & Hwvo & Hdir').
      eapply returns_mono.
      * eapply (frame_inner_spec i vertex alters V); try done.
        -- unfold vsize. lia.
        -- by rewrite Hwvo, Hal.
      * intros s'' w'' (flags' & ? & ? & ? & Hw'' & ?).
        exists flags'. split; [done|]. split; [done|]. split; [done|].
        split; [congruence|done].
  - intros s' w' (flags & Hfl & Hfo & Hrep' & Hwvo & Hdir').
    rewrite take_ge in Hrep' by lia.
    split; [|by rewrite Hwvo].
    exists (V ++ step_visits directed vertex (zip alters flags)).
    replace (Z.to_nat (i + 1)) with (Datatypes.S (Z.to_nat i)) by lia.
    split; [|split; [done|split; [|done]]].
    + apply visited_S; try done. unfold alters. by rewrite Htake1.
    + rewrite Hwvo. apply (order_kept_S _ _ vertex); [|done].
      repeat split; [by rewrite Htake1|congruence|congruence].
Qed.

Lemma reserve_columns_spec (p : list (list Q)) w :
  length p = length (thetas (internals (noTieModel this))) ->
  reservable this rate ->
  returns (reserve_columns this rate p) w (fun p' w' => p' = p /\ w' = w).
Proof.
  intros Hlen Hres. unfold reserve_columns.
  apply (returns_for_range (fun _ p' w' => p' = p /\ w' = w));
    [unfold vsize; lia|done|].
  intros i p' w' Hi [-> ->].
  destruct (vec_get_lt p i) as [col Hcol]; [done|].
  apply returns_bind, (returns_lift _ col); [done|].
  destruct Hres as [Hres|Hres]; [unfold vsize in Hi; lia|].
  destruct (Z.ltb_spec
    (Qfloor (rate * inject_Z (maxEdges (network (noTieModel this)))) + 1000)
    0); [lia|].
  by apply returns_ret.
Qed.

(** The replay sampler over a vertex order returns, and its locals at the
    end are those of a sequence of visits of all [n] outer steps. *)
Lemma modelFrameGivenOrder_run_spec w :
  reservable this rate ->
  netSize (network (model this)) <= vsize vert_order ->
  returns (modelFrameGivenOrder_run this rate vert_order) w
    (fun s _ => frame_inv this rate vert_order
                  (Z.max 0 (netSize (network (model this)))) s).
Proof.
  intros Hres Hn. unfold modelFrameGivenOrder_run, frame_init.
  apply returns_bind. apply returns_bind.
  eapply returns_mono;
    [apply reserve_columns_spec;
     [rewrite length_replicate; unfold m_statistics; simpl;
      by rewrite statistics_calculate_length|done]|].
  intros p w' [-> ->]. apply returns_ret.
  apply (returns_for_range_max
           (fun i s _ => frame_inv this rate vert_order i s)).
  - exists []. split; [constructor|]. split; [|split; [|done]].
    + unfold replayed, m_statistics. simpl.
      rewrite length_replicate, !statistics_calculate_length.
      repeat split; try done.
      apply Forall_forall. intros col Hcol.
      by apply elem_of_replicate in Hcol as [-> _].
    + by repeat split.
  - intros i s w0 Hi Hinv.
    eapply returns_mono; [apply frame_outer_spec; [lia|done]|].
    by intros s' w' [? _].
Qed.
End ReplayProgram.

(** ** The generated vertex order *)

(** The loop [for(int i=0; i<n; i++) vertices[i] = i;]. *)
Lemma iota_loop_spec (n : Z) (v : list Z) w :
  vsize v = Z.max 0 n ->
  returns (for_range 0 n (fun i v => lift (vec_set v i i)) v) w
    (fun v' w' => v' = seqZ 0 n /\ w' = w).
Proof.
  intros Hlen. unfold vsize in Hlen.
  set (I := fun (i : Z) (v' : list Z) (w' : world) =>
    w' = w /\ length v' = length v
    /\ forall j : nat, Z.of_nat j < i -> v' !! j = Some (Z.of_nat j)).
  eapply returns_mono.
  - apply (returns_for_range_max I).
    + repeat split. intros j Hj. lia.
    + intros i v' w' Hi (-> & Hl & Hlook).
      eapply returns_lift; [apply vec_set_Ok; unfold vsize; lia|].
      repeat split; [by rewrite length_insert|].
      intros j Hj. destruct (decide (j = Z.to_nat i)) as [->|Hne].
      * rewrite list_lookup_insert_eq by lia. f_equal. lia.
      * rewrite list_lookup_insert_ne by done. apply Hlook. lia.
  - intros v' w' (-> & Hl & Hlook). split; [|done].
    apply list_eq. intros j.
    destruct (decide (Z.of_nat j < n)) as [Hj|Hj].
    + rewrite lookup_seqZ_lt by done. rewrite Hlook by lia. f_equal.
    + rewrite lookup_seqZ_ge by lia. apply lookup_ge_None. lia.
Qed.

Section Sorting.
Context (target : list Z).

Lemma sort_insert_spec (x : Z) (l : list Z) :
  0 <= x < vsize target ->
  Forall (fun a => 0 <= a < vsize target) l ->
  exists r, sort_insert target x l = Ok r /\ r ≡ₚ x :: l.
Proof.
  intros Hx Hl. induction Hl as [|y l Hy Hl IH]; [by exists [x]|].
  simpl. unfold IdxCompare.
  destruct (vec_get_lt target x Hx) as [tx ->].
  destruct (vec_get_lt target y Hy) as [ty ->].
  destruct (tx <? ty); [by eexists|].
  destruct IH as (r & -> & Hr). eexists. split; [done|].
  rewrite Hr. apply Permutation_swap.
Qed.

(** Sorting indices of [target] returns, with a permutation of them. *)
Lemma std_sort_spec (l : list Z) :
  Forall (fun a => 0 <= a < vsize target) l ->
  exists r, std_sort target l = Ok r /\ r ≡ₚ l.
Proof.
  induction 1 as [|x l Hx Hl IH]; [by exists []|].
  simpl. destruct IH as (r & -> & Hr).
  destruct (sort_insert_spec x r Hx) as (r' & -> & Hr').
  - by rewrite Hr.
  - exists r'. split; [done|]. by rewrite Hr', Hr.
Qed.
End Sorting.

Section VertexOrder.
Context {Net St : Type} `{NetworkOps Net} `{ModelOps Net St}.
Context `{UnitStream} `{RankerLaws}.

Lemma generateOrder_spec (vertexOrder order : list Z) w :
  returns (generateOrder vertexOrder order) w
    (fun v w' => v ≡ₚ seqZ 0 (vsize order) /\ Rcout w' = Rcout w).
Proof.
  unfold generateOrder.
  assert (Hrl : length (vec_resize vertexOrder (length order))
                = length order).
  { unfold vec_resize. rewrite length_app, length_take, length_replicate.
    lia. }
  apply returns_bind.
  eapply returns_mono;
    [apply rank_returns; by rewrite length_replicate, Hrl|].
  intros y w1 [Hy Hout]. rewrite length_replicate, Hrl in Hy.
  apply returns_bind.
  eapply returns_mono;
    [apply iota_loop_spec; unfold vsize; rewrite Hrl, Hy; lia|].
  intros v w2 [-> ->].
  destruct (std_sort_spec y (seqZ 0 (vsize y))) as (r & Hr & Hperm).
  { apply Forall_seqZ. intros; lia. }
  eapply returns_lift; [done|]. split; [|done].
  rewrite Hperm. unfold vsize. by rewrite Hy.
Qed.

(** The vertex order that the edge-order entry points generate is a
    permutation of the vertices. *)
Lemma make_vertices_spec (this : LatentOrderLikelihood Net St) w :
  (hasVertexOrder (internals (model this)) = true ->
   vsize (getVertexOrder (internals (model this)))
   = netSize (network (model this))) ->
  returns (make_vertices this (netSize (network (model this)))) w
    (fun v w' => v ≡ₚ seqZ 0 (netSize (network (model this)))
                 /\ Rcout w' = Rcout w).
Proof.
  intros Hfit. unfold make_vertices.
  destruct (hasVertexOrder (internals (model this))).
  - rewrite <- Hfit by done. apply generateOrder_spec.
  - apply returns_bind.
    eapply returns_mono;
      [apply iota_loop_spec; unfold vsize; rewrite length_replicate; lia|].
    intros v w1 [-> ->].
    eapply returns_mono; [apply shuffle_spec|].
    + unfold vsize. rewrite length_seqZ. lia.
    + intros v w2 (Htake & _ & Hlen & Hout). split; [|done].
      rewrite <- (take_ge v (Z.to_nat (netSize (network (model this)))))
        by (rewrite Hlen, length_seqZ; lia).
      rewrite Htake. rewrite take_ge; [done|]. by rewrite length_seqZ.
Qed.
End VertexOrder.

(** ** The replay sampler over an edge order *)

(** The search for the actor returns when the vertex order has an entry for
    every vertex. *)
Lemma find_actor_steps_returns (fuel : nat) (k : Z) (vert_order : list Z)
  (vertex : Z) :
  0 <= k -> k + Z.of_nat fuel <= vsize vert_order ->
  exists r, find_actor_steps fuel k vert_order vertex = Ok r.
Proof.
  revert k. induction fuel as [|fuel IH]; intros k Hk Hle; [by eexists|].
  simpl. destruct (vec_get_lt vert_order k) as [x ->]; [lia|].
  destruct (x =? vertex); [by eexists|]. apply IH; lia.
Qed.

Lemma find_actor_returns (n : Z) (vert_order : list Z) (vertex : Z) :
  n <= vsize vert_order ->
  exists r, find_actor n vert_order vertex = Ok r.
Proof.
  intros Hn. unfold find_actor. apply find_actor_steps_returns; [done|].
  unfold vsize in *. lia.
Qed.

Lemma edge_dyads_snoc directed (heads tails : list Z) (h t : Z) :
  length heads = length tails ->
  edge_dyads directed (heads ++ [h]) (tails ++ [t])
  = edge_dyads directed heads tails
    ++ ((t, h) :: if directed then [(h, t)] else []).
Proof.
  intros Hlen. unfold edge_dyads.
  rewrite zip_with_app by done. rewrite flat_map_app. simpl.
  by rewrite app_nil_r.
Qed.

Section EdgeReplayProgram.
Context {Net St : Type} `{NetworkOps Net} `{ModelOps Net St}.
Context `{UnitStream} `{RankerLaws}.
Context `{!NetworkLaws} `{!ModelLaws}.
Context (this : LatentOrderLikelihood Net St) (rate : Q).
Context (perm_heads perm_tails : list Z).

Lemma frame_edge_body_spec (vert_order : list Z) (i : Z)
  (s : frame Net St) w :
  0 <= i < vsize perm_heads ->
  vsize perm_heads <= vsize perm_tails ->
  netSize (network (model this)) <= vsize vert_order ->
  frame_edge_inv this perm_heads perm_tails i s ->
  returns (frame_edge_body this rate (netSize (network (model this)))
             vert_order perm_heads perm_tails i s) w
    (fun s' _ => frame_edge_inv this perm_heads perm_tails (i + 1) s').
Proof.
  unfold frame_edge_inv.
  intros Hi Hle Hn (V & Hrep & Hdy & Hwvo & Hdir). unfold vsize in Hi, Hle.
  destruct (lookup_lt_is_Some_2 perm_tails (Z.to_nat i)) as [vertex Hv];
    [lia|].
  destruct (lookup_lt_is_Some_2 perm_heads (Z.to_nat i)) as [alter Ha];
    [lia|].
  destruct (find_actor_returns _ vert_order vertex Hn) as [found Hfound].
  unfold frame_edge_body.
  apply returns_bind, (returns_lift _ vertex);
    [apply vec_get_Ok; [lia|done]|].
  apply returns_bind, (returns_lift _ alter);
    [apply vec_get_Ok; [lia|done]|].
  apply returns_bind. unfold returns at 1, Rf_runif.
  set (sample := Qltb _ rate).
  apply returns_bind, (returns_lift _ found); [done|].
  apply returns_bind.
  eapply returns_mono; [by apply replay_dyad_spec|].
  intros s1 w1 (-> & Hrep1 & Hw1 & Hd1). rewrite Hd1, Hdir.
  assert (Hdy' : forall rest,
    v_dyad <$> rest
    = (if isDirected (network (noTieModel this))
       then [(alter, vertex)] else []) ->
    v_dyad <$> (V ++ (vertex, alter, sample) :: rest)
    = edge_dyads (isDirected (network (noTieModel this)))
        (take (Z.to_nat (i + 1)) perm_heads)
        (take (Z.to_nat (i + 1)) perm_tails)).
  { intros rest Hrest.
    replace (Z.to_nat (i + 1)) with (Datatypes.S (Z.to_nat i)) by lia.
    rewrite (take_S_r _ _ _ Hv), (take_S_r _ _ _ Ha).
    rewrite edge_dyads_snoc by (rewrite !length_take; lia).
    by rewrite fmap_app, Hdy, fmap_cons, Hrest. }
  destruct (isDirected (network (noTieModel this))) eqn:Edir.
  - eapply returns_mono; [by apply replay_dyad_spec|].
    intros s2 w2 (-> & Hrep2 & Hw2 & Hd2).
    rewrite <- app_assoc in Hrep2.
    eexists. split; [exact Hrep2|].
    split; [by apply Hdy'|]. split; congruence.
  - apply returns_ret.
    eexists. split; [exact Hrep1|].
    split; [by apply Hdy'|]. split; congruence.
Qed.

(** The replay sampler over an edge order returns, and its locals at the
    end are those of the visits of the dyads of the edge order. *)
Lemma modelFrameGivenEdgeOrder_run_spec w :
  order_fits this ->
  reservable this rate ->
  vsize perm_heads <= vsize perm_tails ->
  returns (modelFrameGivenEdgeOrder_run this rate perm_heads perm_tails) w
    (fun s _ => frame_edge_inv this perm_heads perm_tails
                  (vsize perm_heads) s).
Proof.
  intros Hfit Hres Hle. unfold modelFrameGivenEdgeOrder_run.
  apply returns_bind.
  eapply returns_mono; [by apply make_vertices_spec|].
  intros vo w1 [Hvo _].
  apply returns_bind.
  eapply returns_mono;
    [apply reserve_columns_spec;
     [rewrite length_replicate; unfold m_statistics; simpl;
      by rewrite statistics_calculate_length|done]|].
  intros p w2 [-> ->].
  apply (returns_for_range
           (fun i s _ => frame_edge_inv this perm_heads perm_tails i s)).
  - unfold vsize. lia.
  - exists []. split; [|by repeat split].
    unfold replayed, m_statistics. simpl.
    rewrite length_replicate, !statistics_calculate_length.
    repeat split; try done.
    apply Forall_forall. intros col Hcol.
    by apply elem_of_replicate in Hcol as [-> _].
  - intros i s w0 Hi Hinv. apply frame_edge_body_spec; try done.
    unfold vsize. rewrite (Permutation_length Hvo), length_seqZ. lia.
Qed.
End EdgeReplayProgram.

(** ** The running network of a replay *)

Section RunningNetwork.
Context {Net St : Type} `{NetworkOps Net} `{ModelOps Net St}.
Context `{!NetworkLaws}.
Context (obs : Net).

Lemma replay_net_isDirected (V : list visit) (g : Net) :
  isDirected (fold_left (replay_net obs) V g) = isDirected g.
Proof.
  revert g. induction V as [|v V IH]; intros g; [done|].
  simpl. rewrite IH. unfold replay_net.
  destruct (hasEdge obs _ _); [apply isDirected_toggle|done].
Qed.

(** A dyad has an edge after a replay exactly when it had one before and
    was toggled an even number of times, or had none and was toggled an odd
    number of times. *)
Lemma replay_net_hasEdge (V : list visit) (g : Net) (x y : Z) :
  hasEdge (fold_left (replay_net obs) V g) x y
  = xorb (hasEdge g x y) (odd_toggles obs (isDirected g) V x y).
Proof.
  revert g. induction V as [|v V IH]; intros g.
  - simpl. by rewrite xorb_false_r.
  - simpl. rewrite IH. unfold odd_toggles. simpl.
    rewrite <- xorb_assoc. f_equal.
    + unfold replay_net. destruct (hasEdge obs _ _); simpl.
      * apply hasEdge_toggle.
      * by rewrite xorb_false_r.
    + f_equal. unfold replay_net.
      destruct (hasEdge obs _ _); [|done]. by rewrite isDirected_toggle.
Qed.

Lemma odd_toggles_absent directed (V : list visit) (x y : Z) :
  canon directed (x, y) ∉ canon directed <$> (v_dyad <$> V) ->
  odd_toggles obs directed V x y = false.
Proof.
  induction V as [|v V IH]; [done|].
  rewrite !fmap_cons, not_elem_of_cons. intros [Hne Hnin].
  unfold odd_toggles in *. simpl. rewrite IH by done.
  rewrite xorb_false_r. apply andb_false_iff. right.
  apply not_true_is_false. intros Hs. apply same_dyad_canon in Hs.
  apply Hne. rewrite <- Hs. by destruct (v_dyad v).
Qed.

(** A dyad that is visited once is toggled exactly when it has an observed
    tie. *)
Lemma odd_toggles_visited directed (V : list visit) (x y : Z) :
  NoDup (canon directed <$> (v_dyad <$> V)) ->
  (x, y) ∈ v_dyad <$> V ->
  odd_toggles obs directed V x y = hasEdge obs x y.
Proof.
  induction V as [|v V IH]; [by rewrite elem_of_nil|].
  rewrite !fmap_cons, NoDup_cons, elem_of_cons. intros [Hnin Hnd] Hin.
  unfold odd_toggles in *. simpl. destruct Hin as [Hv|Hin].
  - rewrite <- Hv in *. simpl.
    fold (odd_toggles obs directed V x y).
    rewrite odd_toggles_absent by done.
    assert (same_dyad directed x y x y = true) as ->
      by (by apply same_dyad_canon).
    by rewrite andb_true_r, xorb_false_r.
  - rewrite IH by done.
    assert (same_dyad directed (v_dyad v).1 (v_dyad v).2 x y = false) as ->.
    { apply not_true_is_false. intros Hs. apply same_dyad_canon in Hs.
      apply Hnin. replace (canon directed (v_dyad v))
        with (canon directed (x, y)) by (by destruct (v_dyad v)).
      by apply list_elem_of_fmap_2. }
    by rewrite andb_false_r.
Qed.
End RunningNetwork.

(** ** Counting labels *)

Lemma canon_tie {Net} `{NetworkOps Net} (obs : Net) (d : Z * Z) :
  symmetric_ties obs ->
  hasEdge obs (fst (canon (isDirected obs) d)) (snd (canon (isDirected obs) d))
  = hasEdge obs (fst d) (snd d).
Proof.
  intros Hsym. unfold canon. destruct (isDirected obs) eqn:E; [done|].
  simpl. destruct (Z.le_ge_cases (fst d) (snd d)).
  - by rewrite Z.min_l, Z.max_r.
  - rewrite Z.min_r, Z.max_l by lia. by apply Hsym.
Qed.

Lemma filter_length_Permutation {A} (f : A -> bool) (l l' : list A) :
  l ≡ₚ l' -> length (List.filter f l) = length (List.filter f l').
Proof.
  induction 1 as [|x l l' _ IH|x y l|l l' l'' _ IH1 _ IH2]; simpl.
  - done.
  - destruct (f x); simpl; by rewrite IH.
  - by destruct (f x), (f y).
  - by etrans.
Qed.

Lemma filter_length_fmap {A B} (f : B -> bool) (g : A -> B) (l : list A) :
  length (List.filter f (g <$> l))
  = length (List.filter (fun a => f (g a)) l).
Proof.
  induction l as [|a l IH]; [done|]. rewrite fmap_cons. cbn [List.filter].
  destruct (f (g a)); cbn [length]; by rewrite IH.
Qed.

(** The labels of dyads count the ties: as many labels are 1 as dyads have a
    tie, the others are 0. *)
Lemma count_label_ties {Net} `{NetworkOps Net} (obs : Net) (ds : list (Z * Z)) :
  count_label 1 (label obs <$> ds)
  = length (List.filter (fun d => hasEdge obs (fst d) (snd d)) ds)
  /\ (count_label 1 (label obs <$> ds) + count_label 0 (label obs <$> ds)
      = length ds)%nat.
Proof.
  unfold count_label, label.
  induction ds as [|d ds [IH1 IH2]]; [done|]. rewrite fmap_cons. simpl.
  destruct (hasEdge obs d.1 d.2); simpl; lia.
Qed.

(** In a network whose ties are symmetric when it is undirected, the dyads
    of every order of the vertices have as many ties as those of the order
    0, 1, ..., n - 1. *)
Lemma observed_ties_Permutation {Net} `{NetworkOps Net} (obs : Net)
  (order : list Z) (n : Z) (ds : list (Z * Z)) :
  symmetric_ties obs ->
  order ≡ₚ seqZ 0 n ->
  ds ≡ₚ dyads (isDirected obs) order ->
  length (List.filter (fun d => hasEdge obs (fst d) (snd d)) ds)
  = observed_ties obs n.
Proof.
  intros Hsym Hord Hds. unfold observed_ties.
  rewrite (filter_length_Permutation _ _ _ Hds).
  set (f := fun d : Z * Z => hasEdge obs (fst d) (snd d)).
  assert (Hf : forall l, length (List.filter f l)
    = length (List.filter f (canon (isDirected obs) <$> l))).
  { intros l. rewrite filter_length_fmap. f_equal.
    apply List.filter_ext. intros d. unfold f. by rewrite canon_tie. }
  rewrite (Hf (dyads _ order)), (Hf (dyads _ (seqZ 0 n))).
  apply filter_length_Permutation. by apply dyads_canon_Permutation.
Qed.

(** ** The laws of the concrete network and model *)

Module EdgeCountLaws.
Import EdgeCount.

Lemma half_unit : @UnitStream half_stream.
Proof. intros k. unfold unif_rand, half_stream. split; lra. Qed.

Lemma zero_unit : @UnitStream zero_stream.
Proof. intros k. unfold unif_rand, zero_stream. split; lra. Qed.

Lemma positional_ranker_laws : RankerLaws.
Proof.
  intros x y method w Hlen. unfold rank, positional_ranker.
  apply returns_ret. by rewrite length_imap.
Qed.

Lemma same_dyad_trans directed (u v x y a b : Z) :
  same_dyad directed u v x y = true ->
  same_dyad directed a b u v = same_dyad directed a b x y.
Proof.
  intros Hs. apply same_dyad_canon in Hs.
  apply eq_true_iff_eq. rewrite !same_dyad_canon. by rewrite Hs.
Qed.

Lemma same_dyad_sym directed (u v x y : Z) :
  same_dyad directed u v x y = same_dyad directed x y u v.
Proof.
  apply eq_true_iff_eq. rewrite !same_dyad_canon. split; by intros ->.
Qed.

Lemma existsb_pointwise {A} (f g : A -> bool) (l : list A) :
  (forall a, f a = g a) -> existsb f l = existsb g l.
Proof.
  intros Hfg. induction l as [|a l IH]; [done|]. simpl. by rewrite Hfg, IH.
Qed.

Lemma graph_hasEdge_toggle (g : graph) (u v x y : Z) :
  graph_hasEdge (graph_toggle g u v) x y
  = xorb (graph_hasEdge g x y) (same_dyad (g_directed g) u v x y).
Proof.
  unfold graph_hasEdge, graph_toggle. simpl.
  fold (graph_hasEdge g u v). destruct (graph_hasEdge g u v) eqn:Euv.
  - destruct (same_dyad (g_directed g) u v x y) eqn:Es.
    + assert (Hxy : graph_hasEdge g x y = true).
      { unfold graph_hasEdge in *. rewrite <- Euv. apply existsb_pointwise.
        intros e. symmetry. by apply same_dyad_trans. }
      unfold graph_hasEdge in Hxy. rewrite Hxy. simpl.
      apply not_true_is_false. rewrite existsb_exists.
      intros (e & He & Hexy). apply filter_In in He as [_ He].
      rewrite (same_dyad_trans _ _ _ _ _ _ _ Es) in He.
      by rewrite Hexy in He.
    + rewrite xorb_false_r. induction (g_edges g) as [|e l IH]; [done|].
      simpl. destruct (same_dyad _ e.1 e.2 u v) eqn:Ee; simpl.
      * rewrite IH.
        assert (same_dyad (g_directed g) e.1 e.2 x y = false) as ->;
          [|done].
        rewrite (same_dyad_sym _ e.1 e.2 x y).
        rewrite (same_dyad_trans _ _ _ _ _ x y Ee).
        by rewrite same_dyad_sym.
      * by rewrite IH.
  - rewrite existsb_app. simpl. rewrite orb_false_r.
    destruct (same_dyad (g_directed g) u v x y) eqn:Es.
    + assert (Hxy : graph_hasEdge g x y = false).
      { unfold graph_hasEdge in *. rewrite <- Euv. apply existsb_pointwise.
        intros e. symmetry. by apply same_dyad_trans. }
      unfold graph_hasEdge in Hxy. by rewrite Hxy.
    + by rewrite orb_false_r, xorb_false_r.
Qed.

#[export] Instance graph_laws : NetworkLaws (Net := graph).
Proof.
  split.
  - intros. apply graph_hasEdge_toggle.
  - done.
  - done.
  - done.
  - intros g. simpl. unfold graph_maxEdges.
    assert (0 <= g_size g * (g_size g - 1)) by nia.
    destruct (g_directed g); [done|]. by apply Z.div_pos.
Qed.

#[export] Instance state_laws : ModelLaws (Net := graph) (St := state).
Proof.
  split; intros; simpl.
  - by rewrite length_map.
  - by rewrite length_map.
  - done.
Qed.

Lemma map_const_length {A B C} (c : C) (l : list A) (l' : list B) :
  length l = length l' ->
  List.map (fun _ => c) l = List.map (fun _ => c) l'.
Proof.
  revert l'. induction l as [|a l IH]; intros [|b l'] Hlen;
    simplify_eq/=; [done|]. f_equal. by apply IH.
Qed.

#[export] Instance state_transactions
  : TransactionLaws (Net := graph) (St := state).
Proof.
  split; unfold consistent; simpl.
  - done.
  - intros g st u v o i Hc. apply map_const_length.
    by rewrite <- Hc, length_map.
  - intros g st u v o i Hc. done.
  - done.
Qed.

(** The ties of an undirected graph are symmetric. *)
Lemma graph_symmetric (g : graph) : symmetric_ties g.
Proof.
  intros Hund u v. simpl in *. unfold graph_hasEdge. rewrite Hund.
  apply existsb_pointwise. intros e.
  apply eq_true_iff_eq. rewrite !same_dyad_canon. by rewrite (canon_swap u v).
Qed.
End EdgeCountLaws.

(** ** The engine *)

Section EngineFacts.
Context {Net St : Type} `{NetworkOps Net} `{ModelOps Net St}.
Context `{!NetworkLaws}.

(** What the constructor establishes: the model with the empty graph has
    the internals of the model with the observed graph and its network
    without edges, and the vertex order fits the network. *)
Lemma constructed_facts (this : LatentOrderLikelihood Net St) :
  constructed this ->
  internals (noTieModel this) = internals (model this)
  /\ network (noTieModel this) = emptyGraph (network (model this))
  /\ order_fits this.
Proof.
  intros (mod_ & w & w' & Hnew). unfold LatentOrderLikelihood_new in Hnew.
  destruct (hasVertexOrder (internals mod_)
            && negb (vsize (getVertexOrder (internals mod_))
                     =? netSize (network mod_))) eqn:E; [done|].
  injection Hnew as <- _. repeat split. unfold order_fits. simpl.
  intros Ho. rewrite Ho in E. simpl in E.
  apply negb_false_iff in E. by apply Z.eqb_eq.
Qed.

Lemma constructed_isDirected (this : LatentOrderLikelihood Net St) :
  constructed this ->
  isDirected (network (noTieModel this))
  = isDirected (network (model this)).
Proof.
  intros Hc. destruct (constructed_facts this Hc) as (_ & -> & _).
  apply isDirected_emptyGraph.
Qed.

(** Every rate that is not negative is reservable. *)
Lemma reservable_nonneg (this : LatentOrderLikelihood Net St) (rate : Q) :
  (0 <= rate)%Q -> reservable this rate.
Proof.
  intros Hrate. right.
  pose proof (maxEdges_nonneg (network (noTieModel this))) as Hm.
  assert (0 <= Qfloor (rate * inject_Z (maxEdges (network (noTieModel this)))));
    [|lia].
  rewrite <- (Qfloor_Z 0). apply Qfloor_resp_le.
  apply Qmult_le_0_compat; [done|]. by rewrite <- (Zle_Qle 0).
Qed.

Lemma reservable_dec (this : LatentOrderLikelihood Net St) (rate : Q) :
  reservable this rate \/ ~ reservable this rate.
Proof.
  unfold reservable.
  destruct (decide (length (thetas (internals (noTieModel this))) = O));
    [by left; left|].
  destruct (Z_le_gt_dec 0
    (Qfloor (rate * inject_Z (maxEdges (network (noTieModel this)))) + 1000));
    [by left; right|].
  right. intros [?|?]; [done|lia].
Qed.

(** For the other rates the reservation of the first column fails. *)
Lemma reserve_columns_fails (this : LatentOrderLikelihood Net St) (rate : Q)
  (p : list (list Q)) w :
  length p = length (thetas (internals (noTieModel this))) ->
  ~ reservable this rate ->
  reserve_columns this rate p w = Fail UndefinedBehaviour.
Proof.
  intros Hlen Hres. unfold reserve_columns, for_range, vsize.
  assert (Hq : length (thetas (internals (noTieModel this))) <> O
               /\ Qfloor (rate * inject_Z
                            (maxEdges (network (noTieModel this))))
                  + 1000 < 0).
  { split; [intros ?; apply Hres; by left|].
    destruct (Z_le_gt_dec 0 (Qfloor (rate * inject_Z
      (maxEdges (network (noTieModel this)))) + 1000)); [|lia].
    exfalso. apply Hres. by right. }
  destruct Hq as [Hk Hq]. revert Hq.
  generalize (Qfloor (rate * inject_Z
    (maxEdges (network (noTieModel this)))) + 1000).
  intros q Hq.
  destruct p as [|col p].
  - by rewrite <- Hlen in Hk.
  - replace (Z.to_nat (Z.of_nat (length (col :: p)) - 0))
      with (Datatypes.S (length p)) by (simpl; lia).
    simpl. unfold bind at 1 2. simpl.
    destruct (Z.ltb_spec q 0); [done|lia].
Qed.
End EngineFacts.

(** ** The generative sampler, dyad by dyad *)

(** Overwriting position [m] of a vector that agrees with [A] before [m]
    and with [B] from [m] on, with the entry of [A]. *)
Lemma insert_take_drop_step {T} (A B : list T) (m : nat) (x : T) :
  length A = length B -> A !! m = Some x ->
  <[m := x]> (take m A ++ drop m B) = take (Datatypes.S m) A ++ drop (Datatypes.S m) B.
Proof.
  intros Hlen Hx. pose proof (lookup_lt_Some _ _ _ Hx) as Hm.
  assert (Hl : length (take m A) = m) by (rewrite length_take; lia).
  rewrite <- (Nat.add_0_r m) at 1. rewrite <- Hl at 1.
  rewrite insert_app_r. rewrite (take_S_r _ _ _ Hx), <- app_assoc. f_equal.
  destruct (drop m B) as [|b B'] eqn:E.
  - apply (f_equal length) in E. rewrite length_drop in E. simpl in E. lia.
  - simpl. f_equal.
    replace (Datatypes.S m) with (m + 1)%nat by lia.
    by rewrite <- drop_drop, E.
Qed.

Lemma lookup_take_drop {T} (A B : list T) (m : nat) :
  (m <= length A)%nat -> (take m A ++ drop m B) !! m = B !! m.
Proof.
  intros Hm. rewrite lookup_app_r by (rewrite length_take; lia).
  rewrite length_take, lookup_drop. f_equal. lia.
Qed.

Lemma take_drop_same_length {T} (A B : list T) (m : nat) :
  length A = length B -> length (take m A ++ drop m B) = length A.
Proof. intros Hlen. rewrite length_app, length_take, length_drop. lia. Qed.

Section GenDyad.
Context {Net St : Type} {NO : NetworkOps Net} {MO : ModelOps Net St}.
Context {RS : RandomStream} {LM : Libm}.
Context {ML : ModelLaws}.

(** One iteration of the loop over [m]. *)
Lemma gen_accumulate_step (todo done : gen Net St) (m : nat) w :
  (m < length (g_terms todo))%nat ->
  length (g_newTerms done) = length (g_terms todo) ->
  length (g_eStats todo) = length (g_terms todo) ->
  length (g_stats todo) = length (g_terms todo) ->
  length (g_change todo) = length (g_terms todo) ->
  g_eStats done
  = zip_with (fun e x => (e + x * g_probTie done)%Q) (g_eStats todo)
             (delta (g_newTerms done) (g_terms todo)) ->
  g_change done = delta (g_newTerms done) (g_terms todo) ->
  g_stats done
  = (if g_hasEdge done
     then zip_with Qplus (g_stats todo)
                   (delta (g_newTerms done) (g_terms todo))
     else g_stats todo) ->
  g_terms done
  = (if g_hasEdge done
     then zip_with Qplus (g_terms todo)
                   (delta (g_newTerms done) (g_terms todo))
     else g_terms todo) ->
  gen_accumulate (Z.of_nat m) (gen_upto m todo done) w
  = Ok (gen_upto (Datatypes.S m) todo done, w).
Proof.
  intros Hm Hnt He Hs Hc HE HC HS HT.
  destruct (lookup_lt_is_Some_2 (g_newTerms done) m) as [nt Hnt'];
    [lia|].
  destruct (lookup_lt_is_Some_2 (g_terms todo) m) as [t Ht']; [lia|].
  destruct (lookup_lt_is_Some_2 (g_eStats todo) m) as [e He']; [lia|].
  destruct (lookup_lt_is_Some_2 (g_stats todo) m) as [st Hst']; [lia|].
  assert (Hd : delta (g_newTerms done) (g_terms todo) !! m
               = Some (nt - t)%Q).
  { unfold delta. rewrite lookup_zip_with, Hnt'. simpl. by rewrite Ht'. }
  assert (HdL : length (delta (g_newTerms done) (g_terms todo))
                = length (g_terms todo)).
  { unfold delta. rewrite length_zip_with. lia. }
  assert (HEm : g_eStats done !! m = Some (e + (nt - t) * g_probTie done)%Q).
  { rewrite HE, lookup_zip_with, He'. simpl. by rewrite Hd. }
  assert (HEL : length (g_eStats done) = length (g_eStats todo)).
  { rewrite HE, length_zip_with. lia. }
  assert (HSL : length (g_stats done) = length (g_stats todo)).
  { rewrite HS. destruct (g_hasEdge done); [|done].
    rewrite length_zip_with. lia. }
  assert (HTL : length (g_terms done) = length (g_terms todo)).
  { rewrite HT. destruct (g_hasEdge done); [|done].
    rewrite length_zip_with. lia. }
  assert (HCL : length (g_change done) = length (g_change todo)).
  { rewrite HC, HdL. lia. }
  unfold gen_accumulate, gen_upto, bind, lift. simpl.
  rewrite (vec_get_Ok _ _ nt) by (rewrite ?Nat2Z.id; done || lia).
  rewrite (vec_get_Ok _ _ t)
    by (rewrite ?Nat2Z.id, ?lookup_take_drop; done || lia).
  rewrite (vec_get_Ok _ _ e)
    by (rewrite ?Nat2Z.id, ?lookup_take_drop; done || lia).
  rewrite vec_set_Ok
    by (unfold vsize; rewrite take_drop_same_length; lia).
  rewrite vec_set_Ok
    by (unfold vsize; rewrite take_drop_same_length; lia).
  rewrite !Nat2Z.id.
  rewrite (insert_take_drop_step (g_eStats done)) by done.
  rewrite (insert_take_drop_step (g_change done))
    by (done || by rewrite HC).
  destruct (g_hasEdge done) eqn:Etie.
  - rewrite (vec_get_Ok _ _ st)
      by (rewrite ?Nat2Z.id, ?lookup_take_drop; done || lia).
    rewrite vec_set_Ok
      by (unfold vsize; rewrite take_drop_same_length; lia).
    rewrite vec_set_Ok
      by (unfold vsize; rewrite take_drop_same_length; lia).
    rewrite !Nat2Z.id.
    rewrite (insert_take_drop_step (g_stats done)); [| done |].
    2:{ rewrite HS, lookup_zip_with, Hst'. simpl. by rewrite Hd. }
    rewrite (insert_take_drop_step (g_terms done)); [done | done |].
    rewrite HT, lookup_zip_with, Ht'. simpl. by rewrite Hd.
  - by rewrite HS, HT, !take_drop.
Qed.

(** The statements for a dyad return the locals of the closed form. *)
Lemma gen_dyad_spec (declare_change : bool) (from to : Z)
  (vert_order : list Z) (actorIndex : Z) (s : gen Net St) (w : world) :
  gen_wf s ->
  (declare_change = false -> length (g_change s) = length (g_terms s)) ->
  gen_dyad declare_change from to vert_order actorIndex s w
  = Ok (gen_after from to vert_order actorIndex
          (0 + (1 - 0) * unif_rand (rng_pos w))%Q s,
        World (Datatypes.S (rng_pos w)) (Rcout w)).
Proof.
  intros (Hterms & He & Hs) Hchange.
  unfold gen_dyad, bind at 1, Rf_runif.
  set (u := (0 + (1 - 0) * unif_rand (rng_pos w))%Q).
  set (done := gen_after from to vert_order actorIndex u s).
  set (w1 := World (Datatypes.S (rng_pos w)) (Rcout w)).
  match goal with |- for_range _ _ _ ?s1 _ = _ => set (todo := s1) end.
  assert (Hnt : length (g_newTerms done) = length (g_terms s)).
  { unfold done, gen_after, m_statistics. simpl.
    by rewrite statistics_dyadUpdate_length. }
  assert (Hc : length (g_change todo) = length (g_terms s)).
  { unfold todo. simpl. destruct declare_change; [|by apply Hchange].
    by rewrite length_replicate. }
  assert (Hd : length (delta (g_newTerms done) (g_terms s))
               = length (g_terms s)).
  { unfold delta. rewrite length_zip_with. lia. }
  pose proof (returns_for_range
    (fun (m : Z) (s' : gen Net St) (w' : world) =>
       w' = w1 /\ s' = gen_upto (Z.to_nat m) todo done)
    gen_accumulate 0 (vsize (g_terms s)) todo w1) as Hloop.
  apply returns_elim in Hloop as (s' & w' & Hrun & -> & ->).
  - rewrite Hrun. f_equal. f_equal. unfold vsize. rewrite Nat2Z.id.
    unfold gen_upto.
    assert (HL : length (g_eStats done) = length (g_terms s)
                 /\ length (g_stats done) = length (g_terms s)
                 /\ length (g_terms done) = length (g_terms s)
                 /\ length (g_change done) = length (g_terms s)).
    { unfold done, gen_after in *. simpl in *.
      destruct (Qltb u _); rewrite ?length_zip_with, ?Hd;
        repeat split; lia. }
    destruct HL as (HL1 & HL2 & HL3 & HL4).
    assert (HT : length (g_eStats todo) = length (g_terms s)
                 /\ length (g_stats todo) = length (g_terms s)
                 /\ length (g_terms todo) = length (g_terms s))
      by (unfold todo; simpl; repeat split; lia).
    destruct HT as (HT1 & HT2 & HT3).
    rewrite !take_ge, !drop_ge by lia. by rewrite !app_nil_r.
  - unfold vsize. lia.
  - split; [done|]. unfold gen_upto. simpl. by rewrite !drop_0.
  - intros m s' w' Hm [-> ->]. unfold vsize in Hm.
    replace m with (Z.of_nat (Z.to_nat m)) at 1 by lia.
    replace (Z.to_nat (m + 1)) with (Datatypes.S (Z.to_nat m)) by lia.
    unfold returns. rewrite gen_accumulate_step; try done.
    + unfold todo. simpl. lia.
Qed.
End GenDyad.

(** ** The loops of the generative sampler *)

(** The slot of the change statistics of the dyad [(i, j)], [j < i < n], is
    one of the [n (n - 1) / 2] slots of an undirected graph. *)
Lemma undirected_slot_range (n i j : Z) :
  0 <= j < i -> i < n ->
  0 <= (i - 1) * i / 2 + j < n * (n - 1) / 2.
Proof.
  intros Hj Hi. split.
  - assert (0 <= (i - 1) * i / 2) by (apply Z.div_pos; nia). lia.
  - assert (H1 : (i - 1) * i / 2 + i = (i * (i + 1)) / 2).
    { rewrite <- Z.div_add by lia. f_equal. lia. }
    assert (H2 : i * (i + 1) / 2 <= n * (n - 1) / 2)
      by (apply Z.div_le_mono; nia).
    lia.
Qed.

Section GenLoops.
Context {Net St : Type} {NO : NetworkOps Net} {MO : ModelOps Net St}.
Context {RS : RandomStream} {US : UnitStream} {LM : Libm}.
Context {ML : ModelLaws}.
Context (J : gen Net St -> Prop) (HJ : dyad_invariant J).

Lemma gen_dyad_returns (declare_change : bool) (from to : Z)
  (vert_order : list Z) (actorIndex : Z) (n slots : nat) (w0 : world)
  (s : gen Net St) (w : world) :
  gen_loop_inv J n slots w0 s w ->
  (declare_change = false -> length (g_change s) = length (g_terms s)) ->
  returns (gen_dyad declare_change from to vert_order actorIndex s) w
    (fun s' w' => gen_loop_inv J n slots w0 s' w'
                  /\ g_workingVertOrder s' = g_workingVertOrder s
                  /\ length (g_change s') = length (g_terms s')).
Proof.
  intros (Hs & Hw & Hc & Hout) Hch. unfold returns.
  rewrite gen_dyad_spec; [|by apply (inv_wf J HJ)|done].
  pose proof (inv_after J HJ from to vert_order actorIndex
                (0 + (1 - 0) * unif_rand (rng_pos w))%Q s Hs) as Hs'.
  split; [by repeat split|]. split; [done|].
  apply (inv_wf J HJ) in Hs as (Ht & _ & _).
  unfold gen_after, delta. simpl.
  unfold m_statistics in *. simpl.
  destruct (Qltb _ _); rewrite !length_zip_with,
    ?statistics_dyadUpdate_length; lia.
Qed.

Lemma store_change_returns (idx : Z) (n slots : nat) (w0 : world)
  (s : gen Net St) (w : world) :
  0 <= idx < Z.of_nat slots ->
  gen_loop_inv J n slots w0 s w ->
  returns (store_change idx s) w
    (fun s' w' => gen_loop_inv J n slots w0 s' w'
                  /\ g_workingVertOrder s' = g_workingVertOrder s
                  /\ g_change s' = g_change s
                  /\ g_terms s' = g_terms s).
Proof.
  intros Hidx (Hs & Hw & Hc & Hout). unfold store_change.
  apply returns_bind.
  eapply returns_lift; [apply vec_set_Ok; unfold vsize; lia|].
  apply returns_ret. split; [|done].
  split; [by apply (inv_reads J HJ s)|].
  split; [done|]. split; [|done]. simpl. by rewrite length_insert.
Qed.

Lemma gen_inner_returns (storeChangeStats directedGraph : bool)
  (vert_order : list Z) (n : Z) (i vertex j : Z) (k slots : nat)
  (w0 : world) (s : gen Net St) (w : world) :
  0 <= j < i -> i < n -> i <= Z.of_nat k ->
  slots_fit storeChangeStats directedGraph n slots ->
  gen_loop_inv J k slots w0 s w ->
  returns (gen_inner storeChangeStats directedGraph vert_order i vertex j s)
    w (fun s' w' => gen_loop_inv J k slots w0 s' w'
                    /\ g_workingVertOrder s' = g_workingVertOrder s).
Proof.
  intros Hj Hi Hk Hfit Hinv. unfold gen_inner.
  pose proof Hinv as (_ & Hw & _).
  destruct (lookup_lt_is_Some_2 (g_workingVertOrder s) (Z.to_nat j))
    as [alter Ha]; [lia|].
  apply returns_bind, (returns_lift _ alter);
    [apply vec_get_Ok; [lia|done]|].
  apply returns_bind.
  eapply returns_mono; [by apply gen_dyad_returns|].
  intros s1 w1 (Hinv1 & Hw1 & Hc1).
  assert (Hstore1 : returns
    (if storeChangeStats
     then if directedGraph then store_change ((i - 1) * i + 2 * j) s1
          else store_change ((i - 1) * i / 2 + j) s1
     else ret s1) w1
    (fun s' w' => gen_loop_inv J k slots w0 s' w'
                  /\ g_workingVertOrder s' = g_workingVertOrder s1
                  /\ g_change s' = g_change s1
                  /\ g_terms s' = g_terms s1)).
  { destruct storeChangeStats; [|by apply returns_ret].
    specialize (Hfit eq_refl).
    destruct directedGraph; apply store_change_returns; try done.
    - nia.
    - rewrite Hfit. by apply undirected_slot_range. }
  apply returns_bind.
  eapply returns_mono; [exact Hstore1|].
  intros s2 w2 (Hinv2 & Hw2 & Hc2 & Ht2).
  destruct directedGraph eqn:Edir.
  - apply returns_bind.
    eapply returns_mono;
      [apply gen_dyad_returns; [done|congruence]|].
    intros s3 w3 (Hinv3 & Hw3 & Hc3).
    destruct storeChangeStats.
    + eapply returns_mono;
        [apply store_change_returns; [rewrite (Hfit eq_refl); nia|done]|].
      intros s4 w4 (Hinv4 & Hw4 & _). split; [done|congruence].
    + apply returns_ret. split; [done|congruence].
  - apply returns_ret. split; [done|congruence].
Qed.

Lemma gen_outer_returns (storeChangeStats directedGraph : bool)
  (vert_order : list Z) (n : Z) (i : Z) (k slots : nat)
  (w0 : world) (s : gen Net St) (w : world) :
  0 <= i < n -> n <= Z.of_nat k ->
  slots_fit storeChangeStats directedGraph n slots ->
  gen_loop_inv J k slots w0 s w ->
  returns (gen_outer storeChangeStats directedGraph vert_order i s) w
    (fun s' w' =>
       gen_loop_inv J k slots w0 s' w'
       /\ take (Z.to_nat i) (g_workingVertOrder s')
            ≡ₚ take (Z.to_nat i) (g_workingVertOrder s)
       /\ drop (Z.to_nat i) (g_workingVertOrder s')
            = drop (Z.to_nat i) (g_workingVertOrder s)).
Proof.
  intros Hi Hn Hfit (Hs & Hw & Hc & Hout). unfold gen_outer.
  destruct (lookup_lt_is_Some_2 (g_workingVertOrder s) (Z.to_nat i))
    as [vertex Hv]; [lia|].
  apply returns_bind, (returns_lift _ vertex);
    [apply vec_get_Ok; [lia|done]|].
  apply returns_bind.
  eapply returns_mono; [apply shuffle_spec; unfold vsize; lia|].
  intros wvo w1 (Htake & Hdrop & Hlen & Hout1).
  eapply returns_mono.
  - apply (returns_for_range
             (fun _ s' w' => gen_loop_inv J k slots w0 s' w'
                             /\ g_workingVertOrder s' = wvo)); [lia| |].
    + split; [|done]. split; [by apply (inv_reads J HJ s)|]. simpl.
      repeat split; congruence.
    + intros j s' w' Hj [Hinv Hwvo].
      eapply returns_mono;
        [apply (gen_inner_returns _ _ _ n i vertex j k slots w0);
         [done|lia|lia|done|done]|].
      intros s'' w'' [? Hsame]. split; [done|congruence].
  - intros s' w' [Hinv ->]. by split.
Qed.
End GenLoops.

(** ** The rank order and the checks of the edge order *)

Lemma rank_order_spec (vert_order : list Z) (w : world) :
  NoDup vert_order ->
  Forall (fun x => 0 <= x < vsize vert_order) vert_order ->
  returns (rank_order vert_order) w
    (fun rankOrder w' => w' = w /\ inverse_order vert_order rankOrder).
Proof.
  intros Hnd Hrange. unfold rank_order.
  set (I := fun (i : Z) (r : list Z) (w' : world) =>
    w' = w /\ length r = length vert_order
    /\ forall (i' : nat) (v : Z), Z.of_nat i' < i ->
         vert_order !! i' = Some v ->
         r !! Z.to_nat v = Some (Z.of_nat i')).
  eapply returns_mono.
  - apply (returns_for_range I); [unfold vsize; lia| |].
    + repeat split. intros i' v Hi'. lia.
    + intros i r w' Hi (-> & Hlen & Hdone). unfold vsize in Hi.
      destruct (lookup_lt_is_Some_2 vert_order (Z.to_nat i)) as [v Hv];
        [lia|].
      pose proof (proj1 (Forall_lookup _ _) Hrange _ _ Hv) as Hvr.
      unfold vsize in Hvr.
      apply returns_bind, (returns_lift _ v); [apply vec_get_Ok; [lia|done]|].
      eapply returns_lift; [apply vec_set_Ok; unfold vsize; lia|].
      repeat split; [by rewrite length_insert|].
      intros i' v' Hi' Hv'.
      destruct (decide (i' = Z.to_nat i)) as [->|Hne].
      * assert (v' = v) as -> by congruence.
        rewrite list_lookup_insert_eq by lia. f_equal. lia.
      * rewrite list_lookup_insert_ne; [apply Hdone; [lia|done]|].
        intros Heq.
        pose proof (proj1 (Forall_lookup _ _) Hrange _ _ Hv') as Hvr'.
        simpl in Hvr'. assert (v = v') as -> by lia.
        apply Hne. by eapply NoDup_lookup.
  - intros r w' (-> & Hlen & Hdone). repeat split; [done|].
    intros i v Hv. apply Hdone; [|done].
    apply lookup_lt_Some in Hv. unfold vsize. lia.
Qed.

(** A permutation of the vertices has an inverse. *)
Lemma vertex_order_range (vert_order : list Z) (n : Z) :
  vert_order ≡ₚ seqZ 0 n ->
  NoDup vert_order /\ Forall (fun x => 0 <= x < vsize vert_order) vert_order.
Proof.
  intros Hperm. split.
  - rewrite Hperm. apply NoDup_seqZ.
  - unfold vsize. rewrite (Permutation_length Hperm), length_seqZ.
    rewrite Hperm. apply Forall_seqZ. intros; lia.
Qed.

Lemma fold_max_spec (v : list Z) (x : Z) :
  (forall y, y ∈ x :: v -> y <= fold_left Z.max v x)
  /\ fold_left Z.max v x ∈ x :: v.
Proof.
  revert x. induction v as [|z v IH]; intros x; simpl.
  - split; [|by left]. intros y Hy. apply list_elem_of_singleton in Hy. lia.
  - destruct (IH (Z.max x z)) as [Hle Hin]. split.
    + intros y Hy. apply elem_of_cons in Hy as [->|Hy].
      * pose proof (Hle (Z.max x z) ltac:(by left)). lia.
      * apply elem_of_cons in Hy as [->|Hy].
        -- pose proof (Hle (Z.max x z) ltac:(by left)). lia.
        -- apply Hle. by right.
    + apply elem_of_cons in Hin as [Heq|Hin].
      * rewrite Heq. destruct (Z.max_spec x z) as [[_ ->]|[_ ->]].
        -- right. by left.
        -- by left.
      * right. by right.
Qed.

(** The largest vertex of a list exceeds [n - 1] exactly when some vertex
    of the list is [n] or larger. *)
Lemma max_element_beyond (v : list Z) (n m : Z) :
  max_element v = Ok m ->
  (m >? n - 1) = true <-> exists x, x ∈ v /\ n <= x.
Proof.
  destruct v as [|x v]; [done|]. simpl. intros [= <-].
  destruct (fold_max_spec v x) as [Hle Hin].
  rewrite Z.gtb_lt. split.
  - intros Hm. exists (fold_left Z.max v x). split; [done|lia].
  - intros (y & Hy & Hny). specialize (Hle y Hy). lia.
Qed.

(** The check of the edge order returns when both lists have an entry; it
    prints the warning exactly when a vertex is [n] or larger, and draws
    nothing. *)
Lemma check_max_spec (n : Z) (perm_heads perm_tails : list Z) (w : world) :
  perm_heads <> [] -> perm_tails <> [] ->
  returns (check_max n perm_heads perm_tails) w
    (fun _ w' =>
       rng_pos w' = rng_pos w
       /\ (beyond n perm_heads perm_tails ->
           Rcout w' = Rcout w ++ [range_warning])
       /\ (~ beyond n perm_heads perm_tails -> Rcout w' = Rcout w)).
Proof.
  intros Hh Ht. unfold check_max.
  destruct perm_tails as [|t tails]; [done|].
  destruct perm_heads as [|h heads]; [done|].
  set (mt := fold_left Z.max tails t). set (mh := fold_left Z.max heads h).
  apply returns_bind, (returns_lift _ mt); [done|].
  apply returns_bind, (returns_lift _ mh); [done|].
  pose proof (max_element_beyond (t :: tails) n mt eq_refl) as Hmt.
  pose proof (max_element_beyond (h :: heads) n mh eq_refl) as Hmh.
  destruct ((mt >? n - 1) || (mh >? n - 1)) eqn:E.
  - unfold returns, Rcout_print. simpl. split; [done|]. split; [done|].
    intros Hnb. exfalso. apply Hnb.
    apply orb_true_iff in E as [E|E].
    + apply Hmt in E as (x & Hx & Hnx). exists x. auto.
    + apply Hmh in E as (x & Hx & Hnx). exists x. auto.
  - apply returns_ret. split; [done|]. split; [|done].
    intros (x & [Hx|Hx] & Hnx); apply orb_false_iff in E as [E1 E2].
    + assert ((mh >? n - 1) = true) by (apply Hmh; eauto). congruence.
    + assert ((mt >? n - 1) = true) by (apply Hmt; eauto). congruence.
Qed.

(** ** The generative samplers as a whole *)

Lemma dyad_slots_nonneg (directed : bool) (n : Z) :
  0 <= (if directed then n * (n - 1) else n * (n - 1) / 2).
Proof.
  assert (0 <= n * (n - 1)) by nia.
  destruct directed; [done|]. by apply Z.div_pos.
Qed.

Section GenRun.
Context {Net St : Type} {NO : NetworkOps Net} {MO : ModelOps Net St}.
Context {RS : RandomStream} {US : UnitStream} {LM : Libm}.
Context {RK : Ranker} {RL : RankerLaws}.
Context {ML : ModelLaws}.
Context (J : gen Net St -> Prop) (HJ : dyad_invariant J).
Context (this : LatentOrderLikelihood Net St).

Let n : Z := netSize (network (model this)).
Let emptyStats : list Q := g_terms (gen_start this [] []).

(** [generateNetworkWithOrder] returns for a permutation of the vertices;
    its locals before the rank order is attached satisfy the invariant of
    the dyads, and the rank order is the inverse of the vertex order. *)
Lemma generateNetworkWithOrder_run_spec (vert_order : list Z)
  (storeChangeStats : bool) (w : world) :
  J (gen_start this [] []) ->
  vert_order ≡ₚ seqZ 0 n ->
  returns (generateNetworkWithOrder_run this vert_order storeChangeStats) w
    (fun sr w' =>
       exists (s : gen Net St) (rankOrder : list Z),
         J s
         /\ inverse_order vert_order rankOrder
         /\ sr = gen_finished s rankOrder emptyStats
                   (if storeChangeStats then Some (g_changeStats s)
                    else None)
         /\ Rcout w' = Rcout w).
Proof.
  intros Hstart Hperm. unfold generateNetworkWithOrder_run.
  destruct (vertex_order_range _ _ Hperm) as [Hnd Hrange].
  assert (Hlen : length vert_order = Z.to_nat n)
    by (by rewrite (Permutation_length Hperm), length_seqZ).
  set (directedGraph := isDirected _).
  set (changeStats := if storeChangeStats then _ else _).
  apply returns_bind.
  eapply returns_mono.
  - apply (returns_for_range_max
             (fun _ => gen_loop_inv J (length vert_order)
                         (length changeStats) w)).
    + split; [by apply (inv_reads J HJ (gen_start this [] []))|].
      by repeat split.
    + intros i s w' Hi Hinv.
      eapply returns_mono.
      * apply (gen_outer_returns J HJ _ _ _ n); try done; [fold n; lia|].
        intros ->. unfold changeStats. rewrite length_replicate.
        pose proof (dyad_slots_nonneg directedGraph n).
        destruct directedGraph; simpl; fold n; lia.
      * by intros s' w'' [? _].
  - intros s w1 (Hs & Hw & Hc & Hout). apply returns_bind.
    eapply returns_mono; [by apply rank_order_spec|].
    intros rankOrder w2 [-> Hinv]. apply returns_ret.
    exists s, rankOrder. split; [done|]. split; [done|]. by split.
Qed.

Lemma gen_edge_body_returns (vert_order perm_heads perm_tails : list Z)
  (i : Z) (k slots : nat) (w0 : world) (s : gen Net St) (w : world) :
  0 <= i < vsize perm_tails ->
  vsize perm_tails <= vsize perm_heads ->
  vsize perm_tails <= Z.of_nat slots ->
  n <= vsize vert_order ->
  gen_loop_inv J k slots w0 s w ->
  returns (gen_edge_body n vert_order perm_heads perm_tails i s) w
    (fun s' w' => gen_loop_inv J k slots w0 s' w'
                  /\ g_workingVertOrder s' = g_workingVertOrder s).
Proof.
  intros Hi Hle Hslots Hn Hinv. unfold vsize in Hi, Hle, Hslots.
  destruct (lookup_lt_is_Some_2 perm_tails (Z.to_nat i)) as [vertex Hv];
    [lia|].
  destruct (lookup_lt_is_Some_2 perm_heads (Z.to_nat i)) as [alter Ha];
    [lia|].
  destruct (find_actor_returns _ vert_order vertex Hn) as [found Hfound].
  unfold gen_edge_body.
  apply returns_bind, (returns_lift _ vertex);
    [apply vec_get_Ok; [lia|done]|].
  apply returns_bind, (returns_lift _ alter);
    [apply vec_get_Ok; [lia|done]|].
  apply returns_bind, (returns_lift _ found); [done|].
  apply returns_bind.
  eapply returns_mono; [by apply (gen_dyad_returns J HJ)|].
  intros s1 w1 (Hinv1 & Hw1 & _).
  eapply returns_mono;
    [apply (store_change_returns J HJ i k slots w0); [lia|done]|].
  intros s2 w2 (Hinv2 & Hw2 & _). split; [done|congruence].
Qed.

(** [generateNetworkWithEdgeOrder] returns for an edge order that is not
    empty, gives a head to every tail and has at most as many dyads as the
    network; it prints the warning exactly when a vertex of the edge order
    is [n] or larger. *)
Lemma generateNetworkWithEdgeOrder_run_spec (perm_heads perm_tails : list Z)
  (w : world) :
  J (gen_start this [] []) ->
  order_fits this ->
  perm_heads <> [] -> perm_tails <> [] ->
  vsize perm_tails <= vsize perm_heads ->
  vsize perm_tails
  <= (if isDirected (network (model this)) then n * (n - 1)
      else n * (n - 1) / 2) ->
  returns (generateNetworkWithEdgeOrder_run this perm_heads perm_tails) w
    (fun sr w' =>
       exists (s : gen Net St) (rankOrder : list Z),
         J s
         /\ g_workingVertOrder s ≡ₚ seqZ 0 n
         /\ inverse_order (g_workingVertOrder s) rankOrder
         /\ sr = gen_finished s rankOrder emptyStats
                   (Some (g_changeStats s))
         /\ (beyond n perm_heads perm_tails ->
             Rcout w' = Rcout w ++ [range_warning])
         /\ (~ beyond n perm_heads perm_tails -> Rcout w' = Rcout w)).
Proof.
  intros Hstart Hfit Hh Ht Hle Hslots.
  unfold generateNetworkWithEdgeOrder_run. fold n.
  apply returns_bind.
  eapply returns_mono; [by apply check_max_spec|].
  intros _ w1 (_ & Hwarn & Hquiet).
  apply returns_bind.
  eapply returns_mono; [by apply make_vertices_spec|].
  intros vo w2 [Hvo Hout2]. fold n in Hvo.
  destruct (vertex_order_range _ _ Hvo) as [Hnd Hrange].
  assert (Hlen : length vo = Z.to_nat n)
    by (by rewrite (Permutation_length Hvo), length_seqZ).
  set (e := if negb (isDirected (network (model this))) then _ else _).
  assert (He : vsize perm_tails <= Z.of_nat (Z.to_nat e)).
  { unfold e. destruct (isDirected (network (model this))); simpl in *; lia. }
  apply returns_bind.
  eapply returns_mono.
  - apply (returns_for_range
             (fun _ s w' => gen_loop_inv J (length vo) (Z.to_nat e) w2 s w'
                            /\ g_workingVertOrder s = vo)).
    + unfold vsize. lia.
    + split; [|done].
      split; [by apply (inv_reads J HJ (gen_start this [] []))|].
      simpl. by rewrite length_replicate.
    + intros i s w' Hi [Hinv Hw].
      eapply returns_mono.
      * apply (gen_edge_body_returns vo perm_heads perm_tails i
                 (length vo) (Z.to_nat e) w2); try done.
        unfold vsize. lia.
      * intros s' w'' [? ?]. split; [done|congruence].
  - intros s w3 [(Hs & Hw & Hc & Hout3) Hwvo]. apply returns_bind.
    eapply returns_mono; [by apply rank_order_spec|].
    intros rankOrder w4 [-> Hinv]. apply returns_ret.
    exists s, rankOrder. subst vo.
    split; [done|]. split; [done|]. split; [done|]. split; [done|].
    split; intros Hb; rewrite Hout3, Hout2; auto.
Qed.
End GenRun.

(** ** The change statistics of a full edge order *)

Section CalcRun.
Context {Net St : Type} {NO : NetworkOps Net} {MO : ModelOps Net St}.
Context {RS : RandomStream} {US : UnitStream}.
Context {RK : Ranker} {RL : RankerLaws}.
Context {ML : ModelLaws}.
Context (this : LatentOrderLikelihood Net St).

Let n : Z := netSize (network (model this)).
Let nStats : nat := length (thetas (internals (model this))).

Lemma calc_body_returns (vert_order perm_heads perm_tails : list Z)
  (i e : Z) (w0 : world) (s : calc Net St) (w : world) :
  0 <= i < e ->
  e <= vsize perm_heads -> e <= vsize perm_tails ->
  n <= vsize vert_order ->
  length (m_statistics (c_runningModel s)) = nStats ->
  length (c_result s) = Z.to_nat e ->
  Rcout w = Rcout w0 ->
  returns (calc_body this n nStats vert_order perm_heads perm_tails i s) w
    (fun s' w' =>
       length (m_statistics (c_runningModel s')) = nStats
       /\ length (c_result s') = Z.to_nat e
       /\ Rcout w' = Rcout w0).
Proof.
  intros Hi Hh Ht Hn Hstat Hres Hout. unfold vsize in Hh, Ht.
  destruct (lookup_lt_is_Some_2 perm_tails (Z.to_nat i)) as [vertex Hv];
    [lia|].
  destruct (lookup_lt_is_Some_2 perm_heads (Z.to_nat i)) as [alter Ha];
    [lia|].
  destruct (find_actor_returns _ vert_order vertex Hn) as [found Hfound].
  unfold calc_body.
  apply returns_bind, (returns_lift _ vertex);
    [apply vec_get_Ok; [lia|done]|].
  apply returns_bind, (returns_lift _ alter);
    [apply vec_get_Ok; [lia|done]|].
  apply returns_bind, (returns_lift _ found); [done|].
  set (actorIndex := match found with Some k => k | None => _ end).
  set (rm := m_dyadUpdate _ _ _ _ _).
  assert (Hrm : length (m_statistics rm) = nStats).
  { unfold rm, m_statistics in *. simpl.
    by rewrite statistics_dyadUpdate_length. }
  apply returns_bind. unfold transform_minus.
  rewrite Hrm, Hstat, length_replicate, Nat.leb_refl. simpl.
  eapply returns_lift; [done|].
  apply returns_bind.
  eapply returns_lift; [apply vec_set_Ok; unfold vsize; lia|].
  apply returns_ret. simpl. rewrite length_insert.
  split; [|done]. unfold m_statistics in *.
  destruct (hasEdge _ _ _); simpl; [done|].
  unfold rm. simpl. by rewrite statistics_rollback.
Qed.

(** [calcChangeStats] returns for an edge order that has an entry for every
    dyad of the network; it prints the warning about the vertices, after
    the one about the length if that is printed, exactly when a vertex
    of the edge order is [n] or larger. *)
Lemma calcChangeStats_run_spec (perm_heads perm_tails : list Z)
  (w : world) :
  order_fits this ->
  internals (noTieModel this) = internals (model this) ->
  perm_heads <> [] -> perm_tails <> [] ->
  let e := if isDirected (network (model this)) then n * (n - 1)
           else n * (n - 1) / 2 in
  let printed := Rcout w
    ++ (if negb (vsize perm_heads =? e) || negb (vsize perm_tails =? e)
        then [length_warning] else []) in
  e <= vsize perm_heads -> e <= vsize perm_tails ->
  returns (calcChangeStats_run this perm_heads perm_tails) w
    (fun sv w' =>
       length (c_result (fst sv)) = Z.to_nat e
       /\ snd sv ≡ₚ seqZ 0 n
       /\ (beyond n perm_heads perm_tails ->
           Rcout w' = printed ++ [range_warning])
       /\ (~ beyond n perm_heads perm_tails -> Rcout w' = printed)).
Proof.
  intros Hfit Hint Hh Ht e printed Hhe Hte.
  unfold calcChangeStats_run. fold n.
  set (e' := if negb (isDirected (network (model this))) then _ else _).
  assert (e' = e) as ->
    by (unfold e', e; by destruct (isDirected (network (model this)))).
  apply returns_bind.
  eapply returns_mono; [by apply make_vertices_spec|].
  intros vo w1 [Hvo Hout1]. fold n in Hvo.
  assert (Hlen : length vo = Z.to_nat n)
    by (by rewrite (Permutation_length Hvo), length_seqZ).
  apply returns_bind.
  apply (returns_mono _ _ (fun _ w2 => Rcout w2 = printed)).
  { unfold printed. rewrite <- Hout1.
    destruct (negb (vsize perm_heads =? e) || negb (vsize perm_tails =? e)).
    - done.
    - apply returns_ret. by rewrite app_nil_r. }
  intros _ w2 Hout2.
  apply returns_bind.
  eapply returns_mono; [by apply check_max_spec|].
  intros _ w3 (_ & Hwarn & Hquiet).
  apply returns_bind.
  eapply returns_mono.
  - apply (returns_for_range_max
             (fun _ s w' =>
                length (m_statistics (c_runningModel s)) = nStats
                /\ length (c_result s) = Z.to_nat e
                /\ Rcout w' = Rcout w3)).
    + simpl. rewrite length_replicate. unfold m_statistics. simpl.
      rewrite statistics_calculate_length, Hint. done.
    + intros i s w' Hi (Hstat & Hres & Hout).
      apply (calc_body_returns vo perm_heads perm_tails i e w3);
        try done. unfold vsize. lia.
  - intros s w4 (_ & Hres & Hout4). apply returns_ret. simpl.
    split; [done|]. split; [done|].
    split; intros Hb; rewrite Hout4; [rewrite Hwarn|rewrite Hquiet];
      by rewrite ?Hout2.
Qed.
End CalcRun.

(** ** Invariants of the dyads of the generative sampler *)

Lemma veq_refl (xs : list Q) : veq xs xs.
Proof. unfold veq. by apply Forall2_same_length_lookup_2; [|intros; simplify_eq]. Qed.

Lemma veq_sym (xs ys : list Q) : veq xs ys -> veq ys xs.
Proof.
  unfold veq. intros Hv. apply Forall2_flip.
  eapply Forall2_impl; [done|]. intros x y. apply Qeq_sym.
Qed.

Lemma veq_trans (xs ys zs : list Q) : veq xs ys -> veq ys zs -> veq xs zs.
Proof.
  unfold veq. intros H1 H2.
  eapply Forall2_trans; [|done|done]. intros x y z. apply Qeq_trans.
Qed.

(** Adding to [terms] the difference to [newTerms] gives [newTerms]. *)
Lemma veq_plus_delta (newTerms terms : list Q) :
  length newTerms = length terms ->
  veq (zip_with Qplus terms (delta newTerms terms)) newTerms.
Proof.
  intros Hlen. unfold veq, delta.
  apply Forall2_same_length_lookup_2.
  - rewrite !length_zip_with. lia.
  - intros i x y Hx Hy.
    apply lookup_zip_with_Some in Hx as (t & d & -> & Ht & Hd).
    apply lookup_zip_with_Some in Hd as (nt & t' & -> & Hnt & Ht').
    simplify_eq. ring.
Qed.

(** Realized statistics and [terms] gain the same change statistics. *)
Lemma veq_accumulate (emptyStats stats terms d : list Q) :
  veq (zip_with Qplus emptyStats stats) terms ->
  veq (zip_with Qplus emptyStats (zip_with Qplus stats d))
      (zip_with Qplus terms d).
Proof.
  unfold veq. intros Hv.
  pose proof (Forall2_length _ _ _ Hv) as Hlen.
  rewrite length_zip_with in Hlen.
  apply Forall2_same_length_lookup_2.
  - rewrite !length_zip_with. lia.
  - intros i x y Hx Hy.
    apply lookup_zip_with_Some in Hx as (e & sd & -> & He & Hsd).
    apply lookup_zip_with_Some in Hsd as (st & di & -> & Hst & Hdi).
    apply lookup_zip_with_Some in Hy as (t & di' & -> & Ht & Hdi').
    simplify_eq.
    assert (Heq : (e + st == t)%Q).
    { eapply (Forall2_lookup_lr _ _ _ i); [exact Hv| |done].
      rewrite lookup_zip_with, He. simpl. by rewrite Hst. }
    rewrite <- Heq. ring.
Qed.

Section DyadInvariants.
Context {Net St : Type} {NO : NetworkOps Net} {MO : ModelOps Net St}.
Context {LM : Libm} {ML : ModelLaws}.

Lemma gen_after_wf from to vert_order actorIndex u (s : gen Net St) :
  gen_wf s -> gen_wf (gen_after from to vert_order actorIndex u s).
Proof.
  intros (Ht & He & Hs). unfold gen_wf, gen_after, delta, m_statistics in *.
  simpl. destruct (Qltb u _); simpl;
    rewrite ?statistics_rollback, ?length_zip_with,
      ?statistics_dyadUpdate_length; repeat split; lia.
Qed.

(** The lengths of the vectors are an invariant of the dyads. *)
Lemma gen_wf_invariant : dyad_invariant (gen_wf (Net := Net) (St := St)).
Proof.
  split.
  - done.
  - intros. by apply gen_after_wf.
  - intros s s' Hrm He Hs Ht. unfold gen_wf. by rewrite Hrm, He, Hs, Ht.
Qed.

Context {TL : TransactionLaws}.

(** So is the agreement of [terms] and of the realized statistics with
    the statistics of the running model. *)
Lemma gen_synced_invariant (emptyStats : list Q) :
  dyad_invariant (gen_synced (Net := Net) (St := St) emptyStats).
Proof.
  split.
  - by intros s [? _].
  - intros from to vert_order actorIndex u s (Hwf & Hcons & Hterms & Hsum).
    split; [by apply gen_after_wf|].
    destruct Hwf as (Ht & He & Hs).
    unfold gen_after, m_statistics in *. simpl.
    destruct (Qltb u _); simpl.
    + split; [by apply commit_consistent|]. split.
      * apply veq_plus_delta. by rewrite statistics_dyadUpdate_length.
      * by apply veq_accumulate.
    + split; [by apply rollback_consistent|].
      by rewrite statistics_rollback.
  - intros s s' Hrm He Hs Ht. unfold gen_synced, gen_wf.
    by rewrite Hrm, He, Hs, Ht.
Qed.

(** The locals before the loop satisfy both invariants. *)
Lemma gen_start_synced (this : LatentOrderLikelihood Net St) :
  internals (noTieModel this) = internals (model this) ->
  gen_synced (g_terms (gen_start this [] [])) (gen_start this [] []).
Proof.
  intros Hint. unfold gen_synced, gen_wf, gen_start, m_statistics. simpl.
  rewrite !length_replicate, statistics_calculate_length, Hint.
  split; [done|]. split; [apply calculate_consistent|].
  split; [apply veq_refl|].
  unfold veq. apply Forall2_same_length_lookup_2.
  - rewrite length_zip_with, length_replicate,
      statistics_calculate_length. lia.
  - intros i x y Hx Hy.
    apply lookup_zip_with_Some in Hx as (e & z & -> & He & Hz).
    apply lookup_replicate in Hz as [-> _]. simplify_eq. ring.
Qed.
End DyadInvariants.

(** ** Properties of the replay sampler *)

Section ReplayClaims.
Context {Net St : Type} {NO : NetworkOps Net} {MO : ModelOps Net St}.
Context {RS : RandomStream} {US : UnitStream}.
Context {RK : Ranker} {RL : RankerLaws}.
Context {NL : NetworkLaws} {ML : ModelLaws}.
Context (this : LatentOrderLikelihood Net St).

Lemma modelFrameGivenOrder_of_run rate vert_order w s w' :
  modelFrameGivenOrder_run this rate vert_order w = Ok (s, w') ->
  modelFrameGivenOrder this rate vert_order w
  = Ok (mkFrameResult (f_outcome s) (f_predictors s), w').
Proof. intros Hrun. unfold modelFrameGivenOrder, bind. by rewrite Hrun. Qed.

Lemma modelFrameGivenEdgeOrder_of_run rate perm_heads perm_tails w s w' :
  modelFrameGivenEdgeOrder_run this rate perm_heads perm_tails w
  = Ok (s, w') ->
  modelFrameGivenEdgeOrder this rate perm_heads perm_tails w
  = Ok (mkFrameResult (f_outcome s) (f_predictors s), w').
Proof.
  intros Hrun. unfold modelFrameGivenEdgeOrder, bind. by rewrite Hrun.
Qed.

Lemma modelFrameGivenOrder_unreservable rate vert_order w :
  ~ reservable this rate ->
  modelFrameGivenOrder this rate vert_order w = Fail UndefinedBehaviour.
Proof.
  intros Hres.
  unfold modelFrameGivenOrder, modelFrameGivenOrder_run, frame_init, bind.
  rewrite reserve_columns_fails; [done| |done].
  rewrite length_replicate. unfold m_statistics. simpl.
  by rewrite statistics_calculate_length.
Qed.

Lemma modelFrameGivenEdgeOrder_unreservable rate perm_heads perm_tails w :
  order_fits this ->
  ~ reservable this rate ->
  modelFrameGivenEdgeOrder this rate perm_heads perm_tails w
  = Fail UndefinedBehaviour.
Proof.
  intros Hfit Hres.
  destruct (returns_elim _ _ _ (make_vertices_spec this w Hfit))
    as (vo & w1 & Hvo & _).
  unfold modelFrameGivenEdgeOrder, modelFrameGivenEdgeOrder_run, bind.
  rewrite Hvo. rewrite reserve_columns_fails; [done| |done].
  rewrite length_replicate. unfold m_statistics. simpl.
  by rewrite statistics_calculate_length.
Qed.

Lemma replayed_aligned (V : list visit) (s : frame Net St) :
  replayed this V s ->
  aligned (length (thetas (internals (noTieModel this))))
          (mkFrameResult (f_outcome s) (f_predictors s))
  /\ length (f_outcome s) = length (List.filter v_sample V).
Proof.
  intros (Hout & _ & _ & Hpred & Hcols). unfold aligned. simpl.
  repeat split; [done|done|]. by rewrite Hout, length_map.
Qed.



(** C4. With a downsample rate of 0 the replay over a vertex order returns
    no label and no feature entry, and at the end the running network has
    an edge at a visited dyad exactly when the observed network has one
    there. *)
Theorem replay_rate_zero_rebuilds_observed (vert_order : list Z)
  (w : world) :
  constructed this ->
  vert_order ≡ₚ seqZ 0 (netSize (network (model this))) ->
  let obs := network (model this) in
  exists s w',
    modelFrameGivenOrder_run this 0 vert_order w = Ok (s, w')
    /\ modelFrameGivenOrder this 0 vert_order w
       = Ok (mkFrameResult (f_outcome s) (f_predictors s), w')
    /\ f_outcome s = []
    /\ Forall (fun col => col = []) (f_predictors s)
    /\ forall u v,
         (u, v) ∈ dyads (isDirected obs) vert_order ->
         hasEdge (network (f_runningModel s)) u v = hasEdge obs u v.
Proof.
  intros Hc Hperm obs.
  destruct (constructed_facts this Hc) as (Hint & Hnet & Hfit).
  pose proof (constructed_isDirected this Hc) as Hdir.
  assert (Hlen : length vert_order
                 = Z.to_nat (netSize (network (model this))))
    by (by rewrite (Permutation_length Hperm), length_seqZ).
  assert (Hn : netSize (network (model this)) <= vsize vert_order)
    by (unfold vsize; lia).
  assert (Hrate : (0 <= 0)%Q) by lra.
  destruct (returns_elim _ _ _
    (modelFrameGivenOrder_run_spec this 0 vert_order w
       (reservable_nonneg this 0 Hrate) Hn))
    as (s & w' & Hrun & V & Hvis & Hrep & _).
  replace (Z.to_nat (Z.max 0 (netSize (network (model this)))))
    with (length vert_order) in Hvis by lia.
  exists s, w'. split; [done|].
  split; [by apply modelFrameGivenOrder_of_run|].
  destruct Hrep as (Hout & Hrn & _ & _ & Hcols).
  assert (Hzero : (0 <= 0)%Q) by lra.
  rewrite (visited_none_retained _ _ _ _ _ Hzero Hvis) in Hout.
  simpl in Hout. split; [done|]. split.
  { eapply Forall_impl; [done|]. intros col Hcol. rewrite Hout in Hcol.
    by apply length_zero_iff_nil. }
  intros u v Huv.
  pose proof (visited_dyads _ _ _ _ _ Hvis) as Hds.
  rewrite take_ge, Hdir in Hds by done.
  rewrite Hrn, replay_net_hasEdge, Hnet, hasEdge_emptyGraph.
  rewrite isDirected_emptyGraph. simpl.
  apply odd_toggles_visited.
  - rewrite Hds. apply dyads_canon_NoDup.
    rewrite Hperm. apply NoDup_seqZ.
  - by rewrite Hds.
Qed.
End ReplayClaims.

(** ** The shuffle of the vertex-order samplers *)

Section ShuffleClaims.
Context {Net St : Type} {NO : NetworkOps Net} {MO : ModelOps Net St}.
Context {RS : RandomStream} {US : UnitStream} {LM : Libm}.
Context {NL : NetworkLaws} {ML : ModelLaws}.
Context (this : LatentOrderLikelihood Net St).

End ShuffleClaims.

(** ** Properties of the generative sampler *)

Section GenClaims.
Context {Net St : Type} {NO : NetworkOps Net} {MO : ModelOps Net St}.
Context {RS : RandomStream} {LM : Libm}.
Context {ML : ModelLaws}.

End GenClaims.

Section GenRunClaims.
Context {Net St : Type} {NO : NetworkOps Net} {MO : ModelOps Net St}.
Context {RS : RandomStream} {US : UnitStream} {LM : Libm}.
Context {RK : Ranker} {RL : RankerLaws}.
Context {NL : NetworkLaws} {ML : ModelLaws}.
Context (this : LatentOrderLikelihood Net St).

Lemma generateNetworkWithOrder_of_run vert_order storeChangeStats w sr w' :
  generateNetworkWithOrder_run this vert_order storeChangeStats w
  = Ok (sr, w') ->
  generateNetworkWithOrder this vert_order storeChangeStats w
  = Ok (snd sr, w').
Proof. intros Hrun. unfold generateNetworkWithOrder, bind. by rewrite Hrun. Qed.

Lemma generateNetworkWithEdgeOrder_of_run perm_heads perm_tails w sr w' :
  generateNetworkWithEdgeOrder_run this perm_heads perm_tails w
  = Ok (sr, w') ->
  generateNetworkWithEdgeOrder this perm_heads perm_tails w
  = Ok (snd sr, w').
Proof.
  intros Hrun. unfold generateNetworkWithEdgeOrder, bind. by rewrite Hrun.
Qed.

Lemma calcChangeStats_of_run perm_heads perm_tails w sv w' :
  calcChangeStats_run this perm_heads perm_tails w = Ok (sv, w') ->
  calcChangeStats this perm_heads perm_tails w
  = Ok (c_result (fst sv), w').
Proof. intros Hrun. unfold calcChangeStats, bind. by rewrite Hrun. Qed.

Lemma gen_start_wf :
  constructed this -> gen_wf (gen_start this [] []).
Proof.
  intros Hc. destruct (constructed_facts this Hc) as (Hint & _).
  unfold gen_wf, gen_start, m_statistics. simpl.
  by rewrite !length_replicate, statistics_calculate_length, Hint.
Qed.


(** C8 (as amended). When a vertex of an edge order, which has an entry,
    is [n] or larger, [generateNetworkWithEdgeOrder] and [calcChangeStats]
    print the warning and run to completion: the former for an edge order
    that gives a head to every tail and has no more dyads than the network,
    the latter for one that has an entry for every dyad of the network
    (it prints the warning about the length first if the edge order has
    further entries). *)
Theorem range_warning_then_completion (perm_heads perm_tails : list Z)
  (w : world) :
  constructed this ->
  perm_heads <> [] -> perm_tails <> [] ->
  let n := netSize (network (model this)) in
  let e := if isDirected (network (model this)) then n * (n - 1)
           else n * (n - 1) / 2 in
  beyond n perm_heads perm_tails ->
  (vsize perm_tails <= vsize perm_heads -> vsize perm_tails <= e ->
   exists r w',
     generateNetworkWithEdgeOrder this perm_heads perm_tails w
     = Ok (r, w')
     /\ Rcout w' = Rcout w ++ [range_warning])
  /\ (e <= vsize perm_heads -> e <= vsize perm_tails ->
      exists r w',
        calcChangeStats this perm_heads perm_tails w = Ok (r, w')
        /\ vsize r = e
        /\ Rcout w'
           = (Rcout w
              ++ (if negb (vsize perm_heads =? e)
                     || negb (vsize perm_tails =? e)
                  then [length_warning] else []))
             ++ [range_warning]).
Proof.
  intros Hc Hh Ht n e Hb. pose proof (gen_start_wf Hc) as Hstart.
  destruct (constructed_facts this Hc) as (Hint & _ & Hfit).
  split.
  - intros Hle Hslots.
    destruct (returns_elim _ _ _
      (generateNetworkWithEdgeOrder_run_spec gen_wf gen_wf_invariant this
         perm_heads perm_tails w Hstart Hfit Hh Ht Hle Hslots))
      as (sr & w' & Hrun & s & rankOrder & _ & _ & _ & _ & Hwarn & _).
    exists (snd sr), w'.
    split; [by apply generateNetworkWithEdgeOrder_of_run|]. by apply Hwarn.
  - intros Hhe Hte.
    destruct (returns_elim _ _ _
      (calcChangeStats_run_spec this perm_heads perm_tails w Hfit Hint
         Hh Ht Hhe Hte))
      as (sv & w' & Hrun & Hlen & _ & Hwarn & _).
    exists (c_result (fst sv)), w'.
    split; [by apply calcChangeStats_of_run|]. split; [|by apply Hwarn].
    assert (He : 0 <= e) by apply dyad_slots_nonneg.
    unfold vsize. rewrite Hlen. change (Z.of_nat (Z.to_nat e) = e). lia.
Qed.
End GenRunClaims.

Section StatisticsClaims.
Context {Net St : Type} {NO : NetworkOps Net} {MO : ModelOps Net St}.
Context {RS : RandomStream} {US : UnitStream} {LM : Libm}.
Context {RK : Ranker} {RL : RankerLaws}.
Context {NL : NetworkLaws} {ML : ModelLaws} {TL : TransactionLaws}.
Context (this : LatentOrderLikelihood Net St).

End StatisticsClaims.

(** ** Reasoning about what a program does if it returns *)

Section PartialLogic.
Context {A B : Type}.

Lemma ensures_ret (a : A) w (P : A -> world -> Prop) :
  P a w -> ensures (ret a) w P.
Proof. intros HP a' w' [= <- <-]. done. Qed.

Lemma ensures_bind (c : prog A) (k : A -> prog B) w
  (P : B -> world -> Prop) :
  ensures c w (fun a w' => ensures (k a) w' P) -> ensures (bind c k) w P.
Proof.
  unfold ensures, bind. intros Hc b w' Hrun.
  destruct (c w) as [[a w1]|] eqn:Hcw; [|done]. by eapply Hc.
Qed.

Lemma ensures_lift (r : result A) w (P : A -> world -> Prop) :
  (forall a, r = Ok a -> P a w) -> ensures (lift r) w P.
Proof.
  intros HP a w'. unfold lift. destruct r as [a'|]; [|done].
  intros [= <- <-]. by apply HP.
Qed.

Lemma ensures_mono (c : prog A) w (P Q : A -> world -> Prop) :
  ensures c w P -> (forall a w', P a w' -> Q a w') -> ensures c w Q.
Proof. unfold ensures. eauto. Qed.

Lemma returns_ensures (c : prog A) w (P Q : A -> world -> Prop) :
  returns c w P -> ensures c w Q ->
  returns c w (fun a w' => P a w' /\ Q a w').
Proof.
  unfold returns, ensures. destruct (c w) as [[a w']|]; [|done]. auto.
Qed.
End PartialLogic.

Lemma ensures_for_steps {S} (I : Z -> S -> world -> Prop)
  (body : Z -> S -> prog S) (k : nat) (lo : Z) (s : S) (w : world) :
  I lo s w ->
  (forall i s w, lo <= i < lo + Z.of_nat k -> I i s w ->
                 ensures (body i s) w (I (i + 1))) ->
  ensures (for_steps k lo body s) w (I (lo + Z.of_nat k)).
Proof.
  revert lo s w. induction k as [|k IH]; intros lo s w Hinit Hstep.
  - simpl. apply ensures_ret. by replace (lo + Z.of_nat 0) with lo by lia.
  - simpl. apply ensures_bind.
    eapply ensures_mono; [apply Hstep; [lia|done]|].
    intros s' w' Hs'.
    replace (lo + Z.of_nat (Datatypes.S k)) with (lo + 1 + Z.of_nat k) by lia.
    apply IH; [done|]. intros i s0 w0 Hi. apply Hstep. lia.
Qed.

Lemma ensures_for_range {S} (I : Z -> S -> world -> Prop)
  (body : Z -> S -> prog S) (lo hi : Z) (s : S) (w : world) :
  I lo s w ->
  (forall i s w, lo <= i < hi -> I i s w -> ensures (body i s) w (I (i + 1))) ->
  ensures (for_range lo hi body s) w (I (Z.max lo hi)).
Proof.
  intros Hinit Hstep. unfold for_range.
  replace (Z.max lo hi) with (lo + Z.of_nat (Z.to_nat (hi - lo))) by lia.
  apply ensures_for_steps; [done|].
  intros i s0 w0 Hi. apply Hstep. lia.
Qed.

(** A loop is the loop up to [mid] followed by the loop from [mid]. *)
Lemma for_steps_app {S} (body : Z -> S -> prog S) (k1 k2 : nat) (lo : Z)
  (s : S) (w : world) :
  for_steps (k1 + k2) lo body s w
  = (s' <- for_steps k1 lo body s ;;
     for_steps k2 (lo + Z.of_nat k1) body s') w.
Proof.
  revert lo s w. induction k1 as [|k1 IH]; intros lo s w.
  - simpl. unfold bind, ret. by rewrite Z.add_0_r.
  - change (for_steps (Datatypes.S k1 + k2) lo body s w)
      with ((s' <- body lo s ;; for_steps (k1 + k2) (lo + 1) body s') w).
    change (for_steps (Datatypes.S k1) lo body s)
      with (s' <- body lo s ;; for_steps k1 (lo + 1) body s').
    unfold bind.
    destruct (body lo s w) as [[s1 w1]|]; [|done].
    rewrite IH. unfold bind.
    by replace (lo + 1 + Z.of_nat k1)
      with (lo + Z.of_nat (Datatypes.S k1)) by lia.
Qed.

Lemma for_range_split {S} (body : Z -> S -> prog S) (lo mid hi : Z) (s : S)
  (w : world) :
  lo <= mid <= hi ->
  for_range lo hi body s w
  = (s' <- for_range lo mid body s ;; for_range mid hi body s') w.
Proof.
  intros Hm. unfold for_range.
  replace (Z.to_nat (hi - lo))
    with (Z.to_nat (mid - lo) + Z.to_nat (hi - mid))%nat by lia.
  rewrite for_steps_app.
  by replace (lo + Z.of_nat (Z.to_nat (mid - lo))) with mid by lia.
Qed.

(** A loop whose iteration [mid] fails after the iterations before it
    returned fails likewise. *)
Lemma for_range_fails_at {S} (body : Z -> S -> prog S) (lo mid hi : Z)
  (s s1 : S) (w w1 : world) (f : fault) :
  lo <= mid < hi ->
  for_range lo mid body s w = Ok (s1, w1) ->
  body mid s1 w1 = Fail f ->
  for_range lo hi body s w = Fail f.
Proof.
  intros Hm Hpre Hfail.
  rewrite (for_range_split body lo mid hi) by lia.
  unfold bind. rewrite Hpre. unfold for_range.
  replace (Z.to_nat (hi - mid)) with (Datatypes.S (Z.to_nat (hi - mid - 1)))
    by lia.
  simpl. unfold bind. by rewrite Hfail.
Qed.

(** ** More about the shuffle and the generated orders *)

Section ShuffleDraws.
Context {RS : RandomStream}.

(** [shuffle] takes one draw per iteration of its loop. *)
Lemma shuffle_draws {T} (vec : list T) (offset : Z) (w : world) :
  ensures (shuffle vec offset) w
    (fun _ w' => rng_pos w' = (rng_pos w + Z.to_nat (offset - 1))%nat).
Proof.
  unfold shuffle.
  eapply ensures_mono.
  - apply (ensures_for_range
             (fun i _ w' => rng_pos w' = (rng_pos w + Z.to_nat i)%nat)).
    + simpl. lia.
    + intros i v w1 Hi Hpos. unfold shuffle_body.
      apply ensures_bind. intros u w2 [= <- <-].
      apply ensures_bind, ensures_lift. intros tmp _.
      apply ensures_bind, ensures_lift. intros x _.
      apply ensures_bind, ensures_lift. intros v1 _.
      apply ensures_lift. intros v2 _. simpl. lia.
  - intros v w' Hpos. simpl in Hpos. lia.
Qed.
End ShuffleDraws.

Section ShuffleExtra.
Context {RS : RandomStream} {US : UnitStream}.

(** X1. [shuffle(vec, offset)] with an offset within the vector returns a
    permutation of the vector; it takes [offset - 1] uniform draws (none
    when the offset is at most 1, and then the vector is returned as it
    is) and prints nothing. *)
Theorem shuffle_permutation_and_draws {T} (vec : list T) (offset : Z)
  (w : world) :
  offset <= vsize vec ->
  exists vec' w',
    shuffle vec offset w = Ok (vec', w')
    /\ vec' ≡ₚ vec
    /\ rng_pos w' = (rng_pos w + Z.to_nat (offset - 1))%nat
    /\ Rcout w' = Rcout w
    /\ (offset <= 1 -> vec' = vec).
Proof.
  intros Hoff.
  destruct (returns_elim _ _ _
              (returns_ensures _ _ _ _ (shuffle_spec vec offset w Hoff)
                 (shuffle_draws vec offset w)))
    as (vec' & w' & Hrun & (Htake & Hdrop & Hlen & Hout) & Hpos).
  exists vec', w'. split; [done|]. split; [|split; [done|split; [done|]]].
  - rewrite <- (take_drop (Z.to_nat offset) vec'),
      <- (take_drop (Z.to_nat offset) vec).
    by rewrite Htake, Hdrop.
  - intros Hsmall. unfold shuffle in Hrun.
    rewrite for_range_empty in Hrun by lia. by injection Hrun as <- _.
Qed.
End ShuffleExtra.

Section SortedOrder.
Context (target : list Z).

Lemma sort_insert_sorted (x : Z) (l r : list Z) :
  0 <= x < vsize target ->
  Forall (fun a => 0 <= a < vsize target) l ->
  all_ordered (rank_le target) l ->
  sort_insert target x l = Ok r ->
  all_ordered (rank_le target) r.
Proof.
  intros Hx Hl. revert r.
  induction Hl as [|y l Hy Hl IH]; intros r Hs Hr.
  - injection Hr as <-. by repeat split.
  - simpl in Hr. unfold IdxCompare in Hr.
    destruct (vec_get target x) as [tx|] eqn:Htx; [|done].
    destruct (vec_get target y) as [ty|] eqn:Hty; [|done].
    apply vec_get_inv in Htx as [_ Htx]. apply vec_get_inv in Hty as [_ Hty].
    destruct Hs as [Hall Hs].
    destruct (Z.ltb_spec tx ty) as [Hlt|Hge].
    + injection Hr as <-. split; [|by split].
      constructor.
      * intros ya yb Ha Hb. simplify_eq. lia.
      * eapply Forall_impl; [exact Hall|]. intros z Hz ya yb Ha Hb.
        simplify_eq. pose proof (Hz _ _ Hty Hb). lia.
    + destruct (sort_insert target x l) as [r'|] eqn:Hr'; [|done].
      injection Hr as <-.
      destruct (sort_insert_spec target x l Hx Hl) as (r'' & Hr'' & Hperm).
      rewrite Hr' in Hr''. injection Hr'' as <-.
      split; [|by apply IH].
      rewrite Hperm. constructor; [|done].
      intros ya yb Ha Hb. simplify_eq. lia.
Qed.

Lemma std_sort_sorted (l r : list Z) :
  Forall (fun a => 0 <= a < vsize target) l ->
  std_sort target l = Ok r ->
  all_ordered (rank_le target) r.
Proof.
  intros Hl. revert r. induction Hl as [|x l Hx Hl IH]; intros r Hr.
  - by injection Hr as <-.
  - simpl in Hr.
    destruct (std_sort_spec target l Hl) as (r' & Hr' & Hperm).
    rewrite Hr' in Hr.
    apply (sort_insert_sorted x r'); [done| |by apply IH|done].
    by rewrite Hperm.
Qed.

Lemma std_sort_sorted_by (l r : list Z) :
  Forall (fun a => 0 <= a < vsize target) l ->
  std_sort target l = Ok r ->
  sorted_by target r.
Proof.
  intros Hl Hr. pose proof (std_sort_sorted l r Hl Hr) as Hs.
  clear Hl Hr. induction r as [|a r IH].
  - intros i j a b ya yb _ Hi. done.
  - destruct Hs as [Hall Hs].
    intros [|i] [|j] x z yx yz Hij Hi Hj Hx Hz; simplify_eq/=; [lia| |lia|].
    + apply (proj1 (Forall_lookup _ _) Hall _ _ Hj _ _ Hx Hz).
    + apply (IH Hs i j x z); (done || lia).
Qed.
End SortedOrder.

Section GenerateOrderExtra.
Context {RS : RandomStream} {RK : Ranker} {RL : RankerLaws}.

(** X2. [generateOrder(vertexOrder, order)] returns, whatever the vector
    [vertexOrder] held before, a permutation of the indices of [order]
    that is sorted by the ranks the ranker gave them; only the ranker
    draws random numbers, and nothing is printed. *)
Theorem generateOrder_sorts_by_rank (vertexOrder order : list Z)
  (w : world) :
  exists y r w',
    rank order (replicate (length order) 0) "random" w = Ok (y, w')
    /\ generateOrder vertexOrder order w = Ok (r, w')
    /\ r ≡ₚ seqZ 0 (vsize order)
    /\ sorted_by y r
    /\ Rcout w' = Rcout w.
Proof.
  assert (Hrl : length (vec_resize vertexOrder (length order))
                = length order).
  { unfold vec_resize. rewrite length_app, length_take, length_replicate.
    lia. }
  destruct (returns_elim _ _ _
              (rank_returns order (replicate (length order) 0) "random" w
                 ltac:(by rewrite length_replicate)))
    as (y & w' & Hrank & Hy & Hout).
  rewrite length_replicate in Hy.
  destruct (returns_elim _ _ _
              (iota_loop_spec (vsize y)
                 (vec_resize vertexOrder (length order)) w'
                 ltac:(unfold vsize; rewrite Hrl, Hy; lia)))
    as (v & w1 & Hiota & -> & ->).
  assert (Hrange : Forall (fun a => 0 <= a < vsize y) (seqZ 0 (vsize y)))
    by (apply Forall_seqZ; intros; lia).
  destruct (std_sort_spec y (seqZ 0 (vsize y)) Hrange) as (r & Hr & Hperm).
  exists y, r, w'. split; [done|].
  split; [|split; [|split; [|done]]].
  - unfold generateOrder, bind. rewrite Hrl, Hrank, Hiota.
    unfold lift. by rewrite Hr.
  - rewrite Hperm. unfold vsize. by rewrite Hy.
  - by apply (std_sort_sorted_by y (seqZ 0 (vsize y))).
Qed.
End GenerateOrderExtra.

(** ** More about the rank order *)

(** The inverse of a permutation of the vertices is one. *)
Lemma inverse_order_Permutation (vert_order rankOrder : list Z) (n : Z) :
  vert_order ≡ₚ seqZ 0 n ->
  inverse_order vert_order rankOrder ->
  rankOrder ≡ₚ seqZ 0 n.
Proof.
  intros Hperm [Hlen Hinv]. symmetry.
  apply submseteq_length_Permutation.
  - apply NoDup_submseteq; [apply NoDup_seqZ|].
    intros i Hi. apply elem_of_seqZ in Hi.
    destruct (lookup_lt_is_Some_2 vert_order (Z.to_nat i)) as [v Hv].
    { rewrite (Permutation_length Hperm), length_seqZ. lia. }
    apply list_elem_of_lookup. exists (Z.to_nat v).
    rewrite (Hinv _ _ Hv). f_equal. lia.
  - by rewrite Hlen, (Permutation_length Hperm).
Qed.

(** X18. The rank order of the rank order of a permutation of the vertices is the
    permutation: attaching the ranks loses nothing of the order. *)
Theorem rank_order_round_trip (vert_order : list Z) (n : Z) (w : world) :
  vert_order ≡ₚ seqZ 0 n ->
  exists rankOrder,
    rank_order vert_order w = Ok (rankOrder, w)
    /\ rankOrder ≡ₚ seqZ 0 n
    /\ rank_order rankOrder w = Ok (vert_order, w).
Proof.
  intros Hperm.
  destruct (vertex_order_range _ _ Hperm) as [Hnd Hrange].
  destruct (returns_elim _ _ _ (rank_order_spec vert_order w Hnd Hrange))
    as (r & w' & Hrun & -> & Hinv).
  pose proof (inverse_order_Permutation _ _ _ Hperm Hinv) as Hr.
  destruct (vertex_order_range _ _ Hr) as [Hnd' Hrange'].
  destruct (returns_elim _ _ _ (rank_order_spec r w Hnd' Hrange'))
    as (r' & w' & Hrun' & -> & Hinv').
  exists r. split; [done|]. split; [done|].
  rewrite Hrun'. do 2 f_equal.
  destruct Hinv as [Hlen Hinv], Hinv' as [Hlen' Hinv'].
  apply list_eq_same_length with (length vert_order); [done|lia|].
  intros i x y Hi Hx Hy.
  pose proof (Hinv _ _ Hy) as Hri. pose proof (Hinv' _ _ Hri) as Hr'i.
  rewrite Nat2Z.id in Hr'i.
  pose proof (proj1 (Forall_lookup _ _) Hrange _ _ Hy) as Hyr. simpl in Hyr.
  replace (Z.of_nat (Z.to_nat y)) with y in Hr'i by lia. congruence.
Qed.

(** A vertex order with an entry that is not an index of the order makes
    the loop that inverts it write outside the vector. *)
Lemma rank_order_out_of_range (vert_order : list Z) (w : world) :
  Exists (fun v => v < 0 \/ vsize vert_order <= v) vert_order ->
  rank_order vert_order w = Fail UndefinedBehaviour.
Proof.
  intros Hex. apply Exists_exists in Hex as (v0 & Hin & Hbad).
  destruct (list_find_elem_of
              (fun v => v < 0 \/ vsize vert_order <= v) vert_order v0 Hin Hbad)
    as [[i v] Hfind].
  apply list_find_Some in Hfind as (Hv & Hvbad & Hbefore).
  pose proof (lookup_lt_Some _ _ _ Hv) as Hi.
  unfold rank_order.
  set (body := fun (i : Z) (rankOrder : list Z) =>
         v <- lift (vec_get vert_order i) ;; lift (vec_set rankOrder v i)).
  assert (Hpre : returns (for_range 0 (Z.of_nat i) body vert_order) w
            (fun r w' => w' = w /\ length r = length vert_order)).
  { apply (returns_for_range
             (fun _ (r : list Z) (w' : world) =>
                w' = w /\ length r = length vert_order)); [lia|done|].
    intros j r w' Hj [-> Hlen]. unfold body.
    destruct (lookup_lt_is_Some_2 vert_order (Z.to_nat j)) as [x Hx]; [lia|].
    apply returns_bind, (returns_lift _ x); [apply vec_get_Ok; [lia|done]|].
    assert (Hok : ~ (x < 0 \/ vsize vert_order <= x))
      by (apply (Hbefore (Z.to_nat j)); [done|lia]).
    eapply returns_lift; [apply vec_set_Ok; unfold vsize in *; lia|].
    split; [done|]. by rewrite length_insert. }
  apply returns_elim in Hpre as (r & w' & Hpre & -> & Hlen).
  apply (for_range_fails_at body 0 (Z.of_nat i) (vsize vert_order)
           vert_order r w w);
    [unfold vsize; lia|done|].
  unfold body, bind, lift.
  rewrite (vec_get_Ok vert_order (Z.of_nat i) v)
    by (rewrite ?Nat2Z.id; (done || lia)).
  unfold vec_set. destruct (Z.ltb_spec v 0); [done|].
  destruct (Nat.ltb_spec (Z.to_nat v) (length r)); [|done].
  unfold vsize in Hvbad. lia.
Qed.

(** ** More about the replay over a vertex order *)

Lemma step_visits_filter_pairs vertex (alters : list (Z * bool)) :
  exists k : nat,
    length (List.filter v_sample (step_visits true vertex alters))
    = (2 * k)%nat.
Proof.
  induction alters as [|[a b] alters [k IH]]; [by exists O|].
  assert (Hcons : step_visits true vertex ((a, b) :: alters)
                  = [(vertex, a, b); (a, vertex, b)]
                    ++ step_visits true vertex alters) by done.
  unfold visit in *. rewrite Hcons, List.filter_app, length_app, IH.
  destruct b; [exists (Datatypes.S k)|exists k]; simpl; lia.
Qed.

Lemma visited_filter_pairs rate order (i : nat) (V : list visit) :
  visited true rate order i V ->
  exists k : nat, length (List.filter v_sample V) = (2 * k)%nat.
Proof.
  induction 1 as [|i V vertex alters flags _ [k IH] _ _ _ _];
    [by exists O|].
  destruct (step_visits_filter_pairs vertex (zip alters flags)) as [k' Hk'].
  exists (k + k')%nat. rewrite List.filter_app, length_app, IH, Hk'. lia.
Qed.

Lemma filter_sublist {A} (f : A -> bool) (l : list A) :
  List.filter f l `sublist_of` l.
Proof.
  induction l as [|x l IH]; [constructor|]. simpl.
  destruct (f x); by constructor.
Qed.

Section ReplayMore.
Context {Net St : Type} {NO : NetworkOps Net} {MO : ModelOps Net St}.
Context {RS : RandomStream} {US : UnitStream}.
Context {RK : Ranker} {RL : RankerLaws}.
Context {NL : NetworkLaws} {ML : ModelLaws}.
Context (this : LatentOrderLikelihood Net St).

(** The locals of [modelFrameGivenOrder] before its loop. *)
Lemma frame_init_spec (rate : Q) (vert_order : list Z) w :
  reservable this rate ->
  returns (frame_init this rate vert_order) w
    (fun s w' => w' = w /\ frame_inv this rate vert_order 0 s).
Proof.
  intros Hres. unfold frame_init. apply returns_bind.
  eapply returns_mono;
    [apply reserve_columns_spec;
     [rewrite length_replicate; unfold m_statistics; simpl;
      by rewrite statistics_calculate_length|done]|].
  intros p w' [-> ->]. apply returns_ret. split; [done|].
  exists []. split; [constructor|]. split; [|split; [|done]].
  - unfold replayed, m_statistics. simpl.
    rewrite length_replicate, !statistics_calculate_length.
    repeat split; try done.
    apply Forall_forall. intros col Hcol.
    by apply elem_of_replicate in Hcol as [-> _].
  - by repeat split.
Qed.

(** The outer steps within the vertex order return. *)
Lemma frame_prefix_spec (rate : Q) (vert_order : list Z) (i : Z)
  (s : frame Net St) w :
  0 <= i <= vsize vert_order ->
  frame_inv this rate vert_order 0 s ->
  returns (for_range 0 i (frame_outer this rate vert_order) s) w
    (fun s' _ => frame_inv this rate vert_order i s').
Proof.
  intros Hi Hinv.
  apply (returns_for_range
           (fun i s _ => frame_inv this rate vert_order i s));
    [lia|done|].
  intros j s' w' Hj Hinv'.
  eapply returns_mono; [apply frame_outer_spec; [lia|done]|].
  by intros s'' w'' [? _].
Qed.

(** X5. [modelFrameGivenOrder] reads [workingVertOrder[i]] for every [i] below
    the vertex count: with a vertex order of fewer entries it reads beyond
    the end of the vector. *)
Theorem modelFrameGivenOrder_short_order_undefined (rate : Q)
  (vert_order : list Z) (w : world) :
  reservable this rate ->
  vsize vert_order < netSize (network (model this)) ->
  modelFrameGivenOrder this rate vert_order w = Fail UndefinedBehaviour.
Proof.
  intros Hres Hshort.
  destruct (returns_elim _ _ _ (frame_init_spec rate vert_order w Hres))
    as (s0 & w0 & Hinit & -> & Hinv0).
  destruct (returns_elim _ _ _
              (frame_prefix_spec rate vert_order (vsize vert_order) s0 w
                 ltac:(unfold vsize; lia) Hinv0))
    as (s1 & w1 & Hpre & V & _ & _ & (_ & _ & Hlen) & _).
  unfold modelFrameGivenOrder, modelFrameGivenOrder_run, bind.
  rewrite Hinit.
  rewrite (for_range_fails_at _ 0 (vsize vert_order) _ s0 s1 w w1
             UndefinedBehaviour); [done|unfold vsize in *; lia|done|].
  unfold frame_outer, bind, lift, vec_get.
  destruct (Z.ltb_spec (vsize vert_order) 0); [done|].
  rewrite lookup_ge_None_2; [done|]. unfold vsize. lia.
Qed.


End ReplayMore.

(** ** The random draws and the output of the samplers *)

Lemma effect_refl (w : world) : effect 0 w w.
Proof. split; [lia|done]. Qed.

Lemma effect_trans (k1 k2 k : nat) (w w1 w2 : world) :
  effect k1 w w1 -> effect k2 w1 w2 -> k = (k1 + k2)%nat -> effect k w w2.
Proof. intros [? ?] [? ?] ->. split; [lia|congruence]. Qed.

(** [shuffle] takes one draw per iteration of its loop. *)
Lemma shuffle_effect {RS : RandomStream} {T} (vec : list T) (offset : Z)
  (w : world) :
  ensures (shuffle vec offset) w
    (fun _ w' => effect (Z.to_nat (offset - 1)) w w').
Proof.
  unfold shuffle.
  eapply ensures_mono.
  - apply (ensures_for_range (fun i _ w' => effect (Z.to_nat i) w w')).
    + apply effect_refl.
    + intros i v w1 Hi [Hpos Hout]. unfold shuffle_body.
      apply ensures_bind. intros u w2 [= <- <-].
      apply ensures_bind, ensures_lift. intros tmp _.
      apply ensures_bind, ensures_lift. intros x _.
      apply ensures_bind, ensures_lift. intros v1 _.
      apply ensures_lift. intros v2 _. split; simpl; [lia|done].
  - intros v w' [Hpos Hout]. split; [|done]. lia.
Qed.

(** A loop of pure steps leaves the world as it is. *)
Lemma ensures_for_range_pure {S} (body : Z -> S -> prog S) (lo hi : Z)
  (s : S) (w : world) :
  (forall i s w, ensures (body i s) w (fun _ w' => w' = w)) ->
  ensures (for_range lo hi body s) w (fun _ w' => w' = w).
Proof.
  intros Hbody.
  eapply ensures_mono.
  - apply (ensures_for_range (fun _ _ w' => w' = w)); [done|].
    intros i s' w' _ ->. apply Hbody.
  - done.
Qed.

Section ReplayEffect.
Context {Net St : Type} {NO : NetworkOps Net} {MO : ModelOps Net St}.
Context {RS : RandomStream}.
Context (this : LatentOrderLikelihood Net St).

Lemma push_predictors_pure (terms newTerms : list Q) (p : list (list Q)) w :
  ensures (push_predictors terms newTerms p) w (fun _ w' => w' = w).
Proof.
  apply ensures_for_range_pure. intros k p' w'.
  apply ensures_bind, ensures_lift. intros nt _.
  apply ensures_bind, ensures_lift. intros t _.
  apply ensures_bind, ensures_lift. intros col _.
  by apply ensures_lift.
Qed.

Lemma reserve_columns_pure (rate : Q) (p : list (list Q)) w :
  ensures (reserve_columns this rate p) w (fun _ w' => w' = w).
Proof.
  apply ensures_for_range_pure. intros k p' w'.
  apply ensures_bind, ensures_lift. intros col _.
  destruct (_ <? 0); [by apply ensures_lift|by apply ensures_ret].
Qed.

Lemma replay_dyad_pure (sample hasEdge_ : bool) (from to : Z)
  (vert_order : list Z) (actorIndex : Z) (s : frame Net St) w :
  ensures (replay_dyad sample hasEdge_ from to vert_order actorIndex s) w
    (fun _ w' => w' = w).
Proof.
  unfold replay_dyad. destruct sample.
  - apply ensures_bind.
    eapply ensures_mono; [apply push_predictors_pure|].
    intros p w' ->. by apply ensures_ret.
  - destruct hasEdge_; by apply ensures_ret.
Qed.

Lemma frame_inner_effect (rate : Q) (vert_order : list Z) (i vertex j : Z)
  (s : frame Net St) w :
  ensures (frame_inner this rate vert_order i vertex j s) w
    (fun _ w' => effect 1 w w').
Proof.
  unfold frame_inner.
  apply ensures_bind, ensures_lift. intros alter _.
  apply ensures_bind. intros u w1 [= <- <-].
  apply ensures_bind.
  eapply ensures_mono; [apply replay_dyad_pure|].
  intros s1 w1 ->.
  destruct (isDirected _).
  - eapply ensures_mono; [apply replay_dyad_pure|].
    intros s2 w2 ->. split; simpl; [lia|done].
  - apply ensures_ret. split; simpl; [lia|done].
Qed.

Lemma frame_outer_effect (rate : Q) (vert_order : list Z) (i : Z)
  (s : frame Net St) w :
  ensures (frame_outer this rate vert_order i s) w
    (fun _ w' => effect (Z.to_nat (i - 1) + Z.to_nat i) w w').
Proof.
  unfold frame_outer.
  apply ensures_bind, ensures_lift. intros vertex _.
  apply ensures_bind.
  eapply ensures_mono; [apply shuffle_effect|].
  intros wvo w1 Hw1.
  eapply ensures_mono.
  - apply (ensures_for_range (fun j _ w' => effect (Z.to_nat j) w1 w')).
    + apply effect_refl.
    + intros j s' w' Hj Hw'.
      eapply ensures_mono; [apply frame_inner_effect|].
      intros s'' w'' Hw''.
      eapply effect_trans; [exact Hw'|exact Hw''|lia].
  - intros s' w' Hw'. eapply effect_trans; [exact Hw1|exact Hw'|lia].
Qed.

(** The number of draws of the vertex-order replay up to the outer
    step [i]. *)
Lemma frame_loop_effect (rate : Q) (vert_order : list Z) (n : Z)
  (s : frame Net St) w :
  ensures (for_range 0 n (frame_outer this rate vert_order) s) w
    (fun _ w' => effect (Z.to_nat ((Z.max 1 n - 1) * (Z.max 1 n - 1)))
                        w w').
Proof.
  eapply ensures_mono.
  - apply (ensures_for_range
             (fun i _ w' =>
                effect (Z.to_nat ((Z.max 1 i - 1) * (Z.max 1 i - 1)))
                       w w')).
    + apply effect_refl.
    + intros i s' w' Hi Hw'.
      eapply ensures_mono; [apply frame_outer_effect|].
      intros s'' w'' Hw''.
      eapply effect_trans; [exact Hw'|exact Hw''|].
      destruct (Z.eq_dec i 0) as [->|Hne]; [done|].
      rewrite !Z.max_r by lia. nia.
  - intros s' w' Hw'. by replace (Z.max 1 (Z.max 0 n)) with (Z.max 1 n)
      in Hw' by lia.
Qed.
End ReplayEffect.

Section ReplayDraws.
Context {Net St : Type} {NO : NetworkOps Net} {MO : ModelOps Net St}.
Context {RS : RandomStream} {US : UnitStream}.
Context {NL : NetworkLaws} {ML : ModelLaws}.
Context (this : LatentOrderLikelihood Net St).

(** X8. [modelFrameGivenOrder] on a network of [n >= 1] vertices takes
    [(n - 1)^2] uniform draws, whatever the rate, the order and the
    observed network: one per pair of vertices for the retain decision and
    [i - 1] for the shuffle of each outer step [i >= 1].  It prints
    nothing. *)
Theorem modelFrameGivenOrder_draws (rate : Q) (vert_order : list Z)
  (w : world) :
  reservable this rate ->
  netSize (network (model this)) <= vsize vert_order ->
  let n := Z.max 1 (netSize (network (model this))) in
  exists r w',
    modelFrameGivenOrder this rate vert_order w = Ok (r, w')
    /\ rng_pos w' = (rng_pos w + Z.to_nat ((n - 1) * (n - 1)))%nat
    /\ Rcout w' = Rcout w.
Proof.
  intros Hres Hn n.
  destruct (returns_elim _ _ _
              (modelFrameGivenOrder_run_spec this rate vert_order w
                 Hres Hn)) as (s & w' & Hrun & _).
  exists (mkFrameResult (f_outcome s) (f_predictors s)), w'.
  split; [by apply modelFrameGivenOrder_of_run|].
  assert (He : ensures (modelFrameGivenOrder_run this rate vert_order) w
            (fun _ w' => effect (Z.to_nat ((n - 1) * (n - 1))) w w')).
  { unfold modelFrameGivenOrder_run, frame_init.
    apply ensures_bind, ensures_bind.
    eapply ensures_mono; [apply reserve_columns_pure|].
    intros p w1 ->. apply ensures_ret, frame_loop_effect. }
  apply (He _ _ Hrun).
Qed.
End ReplayDraws.

Section GenEffect.
Context {Net St : Type} {NO : NetworkOps Net} {MO : ModelOps Net St}.
Context {RS : RandomStream} {LM : Libm}.

Lemma gen_accumulate_pure (m : Z) (s : gen Net St) w :
  ensures (gen_accumulate m s) w (fun _ w' => w' = w).
Proof.
  unfold gen_accumulate.
  apply ensures_bind, ensures_lift. intros nt _.
  apply ensures_bind, ensures_lift. intros t _.
  apply ensures_bind, ensures_lift. intros e _.
  apply ensures_bind, ensures_lift. intros eStats _.
  apply ensures_bind, ensures_lift. intros change _.
  destruct (g_hasEdge s); [|by apply ensures_ret].
  apply ensures_bind, ensures_lift. intros st _.
  apply ensures_bind, ensures_lift. intros stats _.
  apply ensures_bind, ensures_lift. intros terms _.
  by apply ensures_ret.
Qed.

Lemma gen_dyad_effect (declare_change : bool) (from to : Z)
  (vert_order : list Z) (actorIndex : Z) (s : gen Net St) w :
  ensures (gen_dyad declare_change from to vert_order actorIndex s) w
    (fun _ w' => effect 1 w w').
Proof.
  unfold gen_dyad. apply ensures_bind. intros u w1 [= <- <-].
  eapply ensures_mono;
    [apply ensures_for_range_pure; intros; apply gen_accumulate_pure|].
  intros s' w' ->. split; simpl; [lia|done].
Qed.

Lemma store_change_pure (idx : Z) (s : gen Net St) w :
  ensures (store_change idx s) w (fun _ w' => w' = w).
Proof.
  unfold store_change. apply ensures_bind, ensures_lift. intros cs _.
  by apply ensures_ret.
Qed.

Lemma gen_inner_effect (storeChangeStats directedGraph : bool)
  (vert_order : list Z) (i vertex j : Z) (s : gen Net St) w :
  ensures (gen_inner storeChangeStats directedGraph vert_order i vertex j s)
    w (fun _ w' => effect (if directedGraph then 2 else 1) w w').
Proof.
  unfold gen_inner.
  apply ensures_bind, ensures_lift. intros alter _.
  apply ensures_bind.
  eapply ensures_mono; [apply gen_dyad_effect|].
  intros s1 w1 Hw1. apply ensures_bind.
  eapply ensures_mono with (P := fun _ w' => w' = w1).
  { destruct storeChangeStats; [|by apply ensures_ret].
    destruct directedGraph; apply store_change_pure. }
  intros s2 w2 ->.
  destruct directedGraph; [|by apply ensures_ret].
  apply ensures_bind.
  eapply ensures_mono; [apply gen_dyad_effect|].
  intros s3 w3 Hw3.
  eapply ensures_mono with (P := fun _ w' => w' = w3).
  { destruct storeChangeStats; [apply store_change_pure|
                                by apply ensures_ret]. }
  intros s4 w4 ->. eapply effect_trans; [exact Hw1|exact Hw3|done].
Qed.

Lemma gen_outer_effect (storeChangeStats directedGraph : bool)
  (vert_order : list Z) (i : Z) (s : gen Net St) w :
  ensures (gen_outer storeChangeStats directedGraph vert_order i s) w
    (fun _ w' =>
       effect (Z.to_nat (i - 1)
               + (if directedGraph then 2 else 1) * Z.to_nat i) w w').
Proof.
  unfold gen_outer.
  apply ensures_bind, ensures_lift. intros vertex _.
  apply ensures_bind.
  eapply ensures_mono; [apply shuffle_effect|].
  intros wvo w1 Hw1.
  eapply ensures_mono.
  - apply (ensures_for_range
             (fun j _ w' =>
                effect ((if directedGraph then 2 else 1) * Z.to_nat j)
                       w1 w')).
    + rewrite Nat.mul_0_r. apply effect_refl.
    + intros j s' w' Hj Hw'.
      eapply ensures_mono; [apply gen_inner_effect|].
      intros s'' w'' Hw''.
      eapply effect_trans; [exact Hw'|exact Hw''|].
      destruct directedGraph; lia.
  - intros s' w' Hw'. eapply effect_trans; [exact Hw1|exact Hw'|].
    destruct directedGraph; lia.
Qed.

Lemma gen_draws_step (directed : bool) (i : Z) :
  1 <= i ->
  gen_draws directed (i + 1)
  = gen_draws directed i + (i - 1) + (if directed then 2 else 1) * i.
Proof.
  intros Hi. unfold gen_draws.
  replace ((i + 1) * (i + 1 - 1)) with (i * (i - 1) + i * 2) by lia.
  rewrite Z.div_add by done. destruct directed; lia.
Qed.

Lemma gen_loop_effect (storeChangeStats directedGraph : bool)
  (vert_order : list Z) (n : Z) (s : gen Net St) w :
  ensures (for_range 0 n
             (gen_outer storeChangeStats directedGraph vert_order) s) w
    (fun _ w' =>
       effect (Z.to_nat (gen_draws directedGraph (Z.max 1 n))) w w').
Proof.
  eapply ensures_mono.
  - apply (ensures_for_range
             (fun i _ w' =>
                effect (Z.to_nat (gen_draws directedGraph (Z.max 1 i)))
                       w w')).
    + destruct directedGraph; apply effect_refl.
    + intros i s' w' Hi Hw'.
      eapply ensures_mono; [apply gen_outer_effect|].
      intros s'' w'' Hw''.
      eapply effect_trans; [exact Hw'|exact Hw''|].
      destruct (Z.eq_dec i 0) as [->|Hne]; [by destruct directedGraph|].
      rewrite !Z.max_r by lia. rewrite gen_draws_step by lia.
      assert (0 <= gen_draws directedGraph i).
      { unfold gen_draws.
        assert (0 <= i * (i - 1) / 2) by (apply Z.div_pos; nia).
        destruct directedGraph; nia. }
      destruct directedGraph; lia.
  - intros s' w' Hw'. by replace (Z.max 1 (Z.max 0 n)) with (Z.max 1 n)
      in Hw' by lia.
Qed.

Lemma rank_order_pure (vert_order : list Z) w :
  ensures (rank_order vert_order) w (fun _ w' => w' = w).
Proof.
  apply ensures_for_range_pure. intros i r w'.
  apply ensures_bind, ensures_lift. intros v _. by apply ensures_lift.
Qed.
End GenEffect.

Section GenDraws.
Context {Net St : Type} {NO : NetworkOps Net} {MO : ModelOps Net St}.
Context {RS : RandomStream} {US : UnitStream} {LM : Libm}.
Context {RK : Ranker} {RL : RankerLaws}.
Context {NL : NetworkLaws} {ML : ModelLaws}.
Context (this : LatentOrderLikelihood Net St).

Lemma generateNetworkWithOrder_run_effect (vert_order : list Z)
  (storeChangeStats : bool) (w : world) :
  constructed this ->
  ensures (generateNetworkWithOrder_run this vert_order storeChangeStats) w
    (fun _ w' =>
       effect (Z.to_nat
                 (gen_draws (isDirected (network (model this)))
                    (Z.max 1 (netSize (network (model this))))))
              w w').
Proof.
  intros Hc. pose proof (constructed_isDirected this Hc) as Hdir.
  unfold generateNetworkWithOrder_run. apply ensures_bind.
  eapply ensures_mono; [apply gen_loop_effect|].
  intros s w1 Hw1. apply ensures_bind.
  eapply ensures_mono; [apply rank_order_pure|].
  intros r w2 ->. apply ensures_ret.
  simpl in Hw1 |- *. by rewrite <- Hdir.
Qed.

(** X16. [generateNetworkWithOrder] on a network of [n >= 1] vertices takes a
    number of uniform draws that only depends on [n] and on whether the
    network is directed: one per dyad for the tie and [i - 1] for the
    shuffle of each outer step [i >= 1], that is [(n - 1)^2] for an
    undirected network and [n (n - 1) / 2] more for a directed one.  It
    prints nothing. *)
Theorem generateNetworkWithOrder_draws (vert_order : list Z)
  (storeChangeStats : bool) (w : world) :
  constructed this ->
  vert_order ≡ₚ seqZ 0 (netSize (network (model this))) ->
  let n := Z.max 1 (netSize (network (model this))) in
  let directed := isDirected (network (model this)) in
  exists r w',
    generateNetworkWithOrder this vert_order storeChangeStats w
    = Ok (r, w')
    /\ rng_pos w'
       = (rng_pos w
          + Z.to_nat ((n - 1) * (n - 1)
                      + if directed then n * (n - 1) / 2 else 0))%nat
    /\ Rcout w' = Rcout w.
Proof.
  intros Hc Hperm n directed.
  pose proof (constructed_isDirected this Hc) as Hdir.
  destruct (returns_elim _ _ _
    (generateNetworkWithOrder_run_spec gen_wf gen_wf_invariant this
       vert_order storeChangeStats w (gen_start_wf this Hc) Hperm))
    as (sr & w' & Hrun & _).
  exists (snd sr), w'.
  split; [by apply generateNetworkWithOrder_of_run|].
  pose proof (generateNetworkWithOrder_run_effect vert_order
                storeChangeStats w Hc) as He.
  apply (He _ _ Hrun).
Qed.
End GenDraws.

(** ** More about the generative sampler over a vertex order *)

Section GenPrefix.
Context {Net St : Type} {NO : NetworkOps Net} {MO : ModelOps Net St}.
Context {RS : RandomStream} {US : UnitStream} {LM : Libm}.
Context {ML : ModelLaws}.
Context (J : gen Net St -> Prop) (HJ : dyad_invariant J).

(** An outer step within the working order returns. *)
Lemma gen_outer_step (storeChangeStats directedGraph : bool)
  (vert_order : list Z) (n : Z) (i : Z) (k slots : nat)
  (w0 : world) (s : gen Net St) (w : world) :
  0 <= i < n -> i < Z.of_nat k ->
  slots_fit storeChangeStats directedGraph n slots ->
  gen_loop_inv J k slots w0 s w ->
  returns (gen_outer storeChangeStats directedGraph vert_order i s) w
    (gen_loop_inv J k slots w0).
Proof.
  intros Hi Hn Hfit (Hs & Hw & Hc & Hout). unfold gen_outer.
  destruct (lookup_lt_is_Some_2 (g_workingVertOrder s) (Z.to_nat i))
    as [vertex Hv]; [lia|].
  apply returns_bind, (returns_lift _ vertex);
    [apply vec_get_Ok; [lia|done]|].
  apply returns_bind.
  eapply returns_mono; [apply shuffle_spec; unfold vsize; lia|].
  intros wvo w1 (Htake & Hdrop & Hlen & Hout1).
  apply (returns_for_range (fun _ => gen_loop_inv J k slots w0)); [lia| |].
  - split; [by apply (inv_reads J HJ s)|]. simpl.
    repeat split; congruence.
  - intros j s' w' Hj Hinv.
    eapply returns_mono;
      [apply (gen_inner_returns J HJ _ _ _ n i vertex j k slots w0);
       [done|lia|lia|done|done]|].
    by intros s'' w'' [? _].
Qed.

(** The outer steps within the working order return. *)
Lemma gen_prefix_returns (storeChangeStats directedGraph : bool)
  (vert_order : list Z) (n m : Z) (k slots : nat) (s : gen Net St)
  (w : world) :
  0 <= m <= n -> m <= Z.of_nat k ->
  slots_fit storeChangeStats directedGraph n slots ->
  gen_loop_inv J k slots w s w ->
  returns (for_range 0 m
             (gen_outer storeChangeStats directedGraph vert_order) s) w
    (gen_loop_inv J k slots w).
Proof.
  intros Hm Hk Hfit Hinv.
  apply (returns_for_range (fun _ => gen_loop_inv J k slots w));
    [lia|done|].
  intros i s' w' Hi Hinv'.
  by apply (gen_outer_step _ _ _ n); [lia|lia| |].
Qed.
End GenPrefix.

Section GenBadOrder.
Context {Net St : Type} {NO : NetworkOps Net} {MO : ModelOps Net St}.
Context {RS : RandomStream} {US : UnitStream} {LM : Libm}.
Context {RK : Ranker} {RL : RankerLaws}.
Context {NL : NetworkLaws} {ML : ModelLaws}.
Context (this : LatentOrderLikelihood Net St).

Lemma gen_start_loop_inv (vert_order : list Z) (changeStats : RcppList)
  (w : world) :
  constructed this ->
  gen_loop_inv gen_wf (length vert_order) (length changeStats) w
    (gen_start this vert_order changeStats) w.
Proof.
  intros Hc. split; [|by repeat split].
  apply (inv_reads _ gen_wf_invariant (gen_start this [] []));
    try done. by apply gen_start_wf.
Qed.

Lemma change_slots_fit (storeChangeStats : bool) (n : Z)
  (directedGraph : bool) :
  slots_fit storeChangeStats directedGraph n
    (length (if storeChangeStats
             then replicate
                    (Z.to_nat (if negb directedGraph then n * (n - 1) / 2
                               else n * (n - 1)))
                    (@None (list Q))
             else replicate 1 None)).
Proof.
  intros ->. rewrite length_replicate.
  pose proof (dyad_slots_nonneg directedGraph n).
  destruct directedGraph; simpl in *; lia.
Qed.

(** X15. [generateNetworkWithOrder] needs a vertex order of [n] entries that
    are indices of the order: with fewer entries it reads
    [workingVertOrder[i]] beyond the end of the vector; and with an entry
    that is negative or not below the length of the order (an order
    counted from 1, as R counts) the loop that inverts the order writes
    outside the vector [rankOrder], after all dyads were sampled. *)
Theorem generateNetworkWithOrder_bad_order_undefined (vert_order : list Z)
  (storeChangeStats : bool) (w : world) :
  constructed this ->
  vsize vert_order < netSize (network (model this))
  \/ Exists (fun v => v < 0 \/ vsize vert_order <= v) vert_order ->
  generateNetworkWithOrder this vert_order storeChangeStats w
  = Fail UndefinedBehaviour.
Proof.
  intros Hc Hbad.
  set (n := netSize (network (model this))).
  unfold generateNetworkWithOrder, generateNetworkWithOrder_run.
  set (directedGraph := isDirected _).
  set (changeStats := if storeChangeStats then _ else _).
  fold (gen_start this vert_order changeStats). fold n.
  pose proof (gen_start_loop_inv vert_order changeStats w Hc) as Hinv.
  pose proof (change_slots_fit storeChangeStats n directedGraph) as Hfit.
  fold changeStats in Hfit.
  destruct (Z_lt_ge_dec (vsize vert_order) n) as [Hshort|Hlong].
  - destruct (returns_elim _ _ _
      (gen_prefix_returns gen_wf gen_wf_invariant storeChangeStats
         directedGraph vert_order n (vsize vert_order)
         (length vert_order) (length changeStats)
         (gen_start this vert_order changeStats) w
         ltac:(unfold vsize in *; lia) ltac:(unfold vsize; lia) Hfit Hinv))
      as (s1 & w1 & Hpre & _ & Hlen & _).
    unfold bind at 1 2.
    rewrite (for_range_fails_at _ 0 (vsize vert_order) n _ s1 w w1
               UndefinedBehaviour); [done|unfold vsize in *; lia|done|].
    unfold gen_outer, bind, lift, vec_get.
    destruct (Z.ltb_spec (vsize vert_order) 0); [done|].
    rewrite lookup_ge_None_2; [done|]. unfold vsize. lia.
  - destruct Hbad as [Hshort|Hex]; [lia|].
    assert (Hloop : exists s1 w1,
      for_range 0 n (gen_outer storeChangeStats directedGraph vert_order)
        (gen_start this vert_order changeStats) w = Ok (s1, w1)).
    { destruct (Z_le_gt_dec n 0) as [Hn|Hn].
      - eexists _, _. by apply for_range_empty.
      - destruct (returns_elim _ _ _
          (gen_prefix_returns gen_wf gen_wf_invariant storeChangeStats
             directedGraph vert_order n n
             (length vert_order) (length changeStats)
             (gen_start this vert_order changeStats) w
             ltac:(lia) ltac:(unfold vsize in *; lia) Hfit Hinv))
          as (s1 & w1 & Hpre & _).
        by exists s1, w1. }
    destruct Hloop as (s1 & w1 & Hloop).
    unfold bind at 1 2. rewrite Hloop.
    unfold bind. by rewrite rank_order_out_of_range.
Qed.
End GenBadOrder.

(** ** The list of change statistics *)

Lemma slots_filled_insert (k : nat) (upto upto' idx : Z) (v : list Q)
  (cs : list (option (list Q))) :
  slots_filled k upto cs ->
  0 <= idx < vsize cs -> length v = k ->
  (forall x, x < upto' -> x = idx \/ x < upto) ->
  slots_filled k upto' (<[Z.to_nat idx := Some v]> cs).
Proof.
  intros Hcs Hidx Hv Hup x Hx. unfold vsize in Hidx.
  destruct (decide (x = Z.to_nat idx)) as [->|Hne].
  - exists (Some v). rewrite list_lookup_insert_eq by lia.
    split; [done|]. by exists v.
  - rewrite list_lookup_insert_ne by done. apply Hcs.
    destruct (Hup _ Hx); lia.
Qed.

Lemma dyad_count_step (directed : bool) (i : Z) :
  dyad_count directed (i + 1)
  = dyad_count directed i + (if directed then 2 else 1) * i.
Proof.
  unfold dyad_count. destruct directed; [lia|].
  replace ((i + 1) * (i + 1 - 1)) with (i * (i - 1) + i * 2) by lia.
  rewrite Z.div_add by done. lia.
Qed.

Section ChangeSlots.
Context {Net St : Type} {NO : NetworkOps Net} {MO : ModelOps Net St}.
Context {RS : RandomStream} {LM : Libm}.
Context {ML : ModelLaws}.
Context (K : nat).

(** The invariant of the list of change statistics: the locals are well
    formed with [K] statistics, and the slots below [upto] are filled. *)
Let slots_inv (upto : Z) (s : gen Net St) : Prop :=
  gen_wf s /\ length (g_terms s) = K
  /\ slots_filled K upto (g_changeStats s).

Lemma gen_dyad_change (declare_change : bool) (from to : Z)
  (vert_order : list Z) (actorIndex : Z) (upto : Z) (s : gen Net St) w :
  slots_inv upto s ->
  (declare_change = false -> length (g_change s) = length (g_terms s)) ->
  ensures (gen_dyad declare_change from to vert_order actorIndex s) w
    (fun s' _ => slots_inv upto s' /\ length (g_change s') = K
                 /\ g_changeStats s' = g_changeStats s).
Proof.
  intros (Hwf & HK & Hcs) Hch s' w' Hrun.
  rewrite gen_dyad_spec in Hrun by done. injection Hrun as <- _.
  pose proof (gen_after_wf from to vert_order actorIndex
                (0 + (1 - 0) * unif_rand (rng_pos w))%Q s Hwf) as Hwf'.
  destruct Hwf as (Ht & _ & _).
  assert (Hlen : length (g_terms (gen_after from to vert_order actorIndex
                   (0 + (1 - 0) * unif_rand (rng_pos w))%Q s)) = K
                 /\ length (g_change (gen_after from to vert_order
                      actorIndex (0 + (1 - 0) * unif_rand (rng_pos w))%Q s))
                    = K).
  { unfold gen_after, delta. simpl. unfold m_statistics in *. simpl.
    destruct (Qltb _ _); rewrite !length_zip_with,
      ?statistics_dyadUpdate_length; lia. }
  destruct Hlen as [Hlt Hlc].
  split; [by split; [|split]|]. by split.
Qed.

Lemma store_change_slot (idx upto upto' : Z) (s : gen Net St) w :
  slots_inv upto s -> length (g_change s) = K ->
  (forall x, x < upto' -> x = idx \/ x < upto) ->
  ensures (store_change idx s) w
    (fun s' _ => slots_inv upto' s' /\ g_change s' = g_change s
                 /\ length (g_changeStats s') = length (g_changeStats s)).
Proof.
  intros (Hwf & HK & Hcs) Hc Hup. unfold store_change.
  apply ensures_bind, ensures_lift. intros cs Hset.
  apply ensures_ret. unfold vec_set in Hset.
  destruct (Z.ltb_spec idx 0); [done|].
  destruct (Nat.ltb_spec (Z.to_nat idx) (length (g_changeStats s)));
    [|done].
  injection Hset as <-. simpl.
  split; [|by rewrite length_insert].
  split; [done|]. split; [done|]. simpl.
  apply (slots_filled_insert K upto); try done. unfold vsize. lia.
Qed.

Lemma gen_inner_slots (directedGraph : bool) (vert_order : list Z)
  (i vertex j : Z) (s : gen Net St) w :
  0 <= j ->
  slots_inv (dyad_count directedGraph i
             + (if directedGraph then 2 else 1) * j) s ->
  ensures (gen_inner true directedGraph vert_order i vertex j s) w
    (fun s' _ =>
       slots_inv (dyad_count directedGraph i
                  + (if directedGraph then 2 else 1) * (j + 1)) s'
       /\ length (g_changeStats s') = length (g_changeStats s)).
Proof.
  intros Hj Hinv. unfold gen_inner.
  apply ensures_bind, ensures_lift. intros alter _.
  apply ensures_bind.
  eapply ensures_mono; [by apply gen_dyad_change|].
  intros s1 w1 (Hinv1 & Hc1 & Hcs1).
  apply ensures_bind.
  destruct directedGraph.
  - eapply ensures_mono.
    { apply (store_change_slot ((i - 1) * i + 2 * j)
               (dyad_count true i + 2 * j)
               (dyad_count true i + 2 * j + 1));
        [exact Hinv1|done|].
      unfold dyad_count. intros x Hx.
      replace ((i - 1) * i) with (i * (i - 1)) by lia. lia. }
    intros s2 w2 (Hinv2 & Hc2 & Hl2).
    apply ensures_bind.
    eapply ensures_mono.
    { apply gen_dyad_change; [exact Hinv2|].
      intros _. destruct Hinv2 as (_ & -> & _). congruence. }
    intros s3 w3 (Hinv3 & Hc3 & Hcs3).
    eapply ensures_mono.
    { apply (store_change_slot ((i - 1) * i + (2 * j + 1))
               (dyad_count true i + 2 * j + 1)
               (dyad_count true i + 2 * (j + 1)));
        [exact Hinv3|done|].
      unfold dyad_count. intros x Hx.
      replace ((i - 1) * i) with (i * (i - 1)) by lia. lia. }
    intros s4 w4 (Hinv4 & _ & Hl4). split; [done|]. congruence.
  - eapply ensures_mono.
    { apply (store_change_slot ((i - 1) * i / 2 + j)
               (dyad_count false i + 1 * j)
               (dyad_count false i + 1 * (j + 1)));
        [exact Hinv1|done|].
      unfold dyad_count. intros x Hx.
      replace ((i - 1) * i) with (i * (i - 1)) by lia. lia. }
    intros s2 w2 (Hinv2 & Hc2 & Hl2).
    apply ensures_ret. split; [done|]. congruence.
Qed.

Lemma gen_outer_slots (directedGraph : bool) (vert_order : list Z)
  (i : Z) (s : gen Net St) w :
  0 <= i ->
  slots_inv (dyad_count directedGraph i) s ->
  ensures (gen_outer true directedGraph vert_order i s) w
    (fun s' _ =>
       slots_inv (dyad_count directedGraph (i + 1)) s'
       /\ length (g_changeStats s') = length (g_changeStats s)).
Proof.
  intros Hi Hinv. unfold gen_outer.
  apply ensures_bind, ensures_lift. intros vertex _.
  apply ensures_bind. intros wvo w1 _.
  eapply ensures_mono.
  - apply (ensures_for_range
             (fun j s' _ =>
                slots_inv (dyad_count directedGraph i
                           + (if directedGraph then 2 else 1) * j) s'
                /\ length (g_changeStats s') = length (g_changeStats s))).
    + split; [|done]. by rewrite Z.mul_0_r, Z.add_0_r.
    + intros j s' w' Hj [Hinv' Hl'].
      eapply ensures_mono; [apply gen_inner_slots; [lia|done]|].
      intros s'' w'' [? ?]. split; [done|congruence].
  - intros s' w' [Hinv' Hl']. split; [|done].
    rewrite dyad_count_step. by rewrite Z.max_r in Hinv' by lia.
Qed.

Lemma gen_loop_slots (directedGraph : bool) (vert_order : list Z)
  (n : Z) (s : gen Net St) w :
  slots_inv 0 s ->
  ensures (for_range 0 n (gen_outer true directedGraph vert_order) s) w
    (fun s' _ =>
       slots_inv (dyad_count directedGraph (Z.max 0 n)) s'
       /\ length (g_changeStats s') = length (g_changeStats s)).
Proof.
  intros Hinv.
  apply (ensures_for_range
           (fun i s' _ =>
              slots_inv (dyad_count directedGraph i) s'
              /\ length (g_changeStats s') = length (g_changeStats s))).
  - split; [|done]. by destruct directedGraph.
  - intros i s' w' Hi [Hinv' Hl'].
    eapply ensures_mono; [apply gen_outer_slots; [lia|done]|].
    intros s'' w'' [? ?]. split; [done|congruence].
Qed.
End ChangeSlots.

Section SizedInvariant.
Context {Net St : Type} {NO : NetworkOps Net} {MO : ModelOps Net St}.
Context {LM : Libm} {ML : ModelLaws}.

(** The vectors of the locals keep their number of entries. *)
Lemma gen_sized_invariant (K : nat) :
  dyad_invariant (fun s : gen Net St => gen_wf s /\ length (g_terms s) = K).
Proof.
  split.
  - by intros s [? _].
  - intros from to vert_order actorIndex u s [Hwf HK].
    split; [by apply gen_after_wf|].
    destruct Hwf as (Ht & _ & _).
    unfold gen_after, delta. simpl. unfold m_statistics in *. simpl.
    destruct (Qltb _ _); rewrite ?length_zip_with,
      ?statistics_dyadUpdate_length; lia.
  - intros s s' Hrm He Hs Ht [Hwf HK].
    split; [by apply (inv_reads _ gen_wf_invariant s)|congruence].
Qed.
End SizedInvariant.

Section ChangeStatistics.
Context {Net St : Type} {NO : NetworkOps Net} {MO : ModelOps Net St}.
Context {RS : RandomStream} {US : UnitStream} {LM : Libm}.
Context {RK : Ranker} {RL : RankerLaws}.
Context {NL : NetworkLaws} {ML : ModelLaws}.
Context (this : LatentOrderLikelihood Net St).

Lemma gen_start_sized :
  constructed this ->
  gen_wf (gen_start this [] [])
  /\ length (g_terms (gen_start this [] []))
     = length (thetas (internals (model this))).
Proof.
  intros Hc. split; [by apply gen_start_wf|].
  destruct (constructed_facts this Hc) as (Hint & _ & _).
  unfold gen_start, m_statistics. simpl.
  by rewrite statistics_calculate_length, Hint.
Qed.

Lemma slots_filled_Forall (K : nat) (e : Z) (cs : list (option (list Q))) :
  slots_filled K e cs -> vsize cs = e -> Forall (filled K) cs.
Proof.
  intros Hcs Hlen. apply Forall_lookup. intros i slot Hi.
  destruct (Hcs i) as (slot' & Hslot & Hf).
  - apply lookup_lt_Some in Hi. unfold vsize in Hlen. lia.
  - congruence.
Qed.

(** The list of change statistics at the end of
    [generateNetworkWithOrder] with [storeChangeStats]. *)
Lemma generateNetworkWithOrder_run_slots (vert_order : list Z) (w : world) :
  constructed this ->
  0 <= netSize (network (model this)) ->
  let n := netSize (network (model this)) in
  let K := length (thetas (internals (model this))) in
  ensures (generateNetworkWithOrder_run this vert_order true) w
    (fun sr _ =>
       slots_filled K (dyad_count (isDirected (network (model this))) n)
                    (g_changeStats (fst sr))
       /\ vsize (g_changeStats (fst sr))
          = dyad_count (isDirected (network (model this))) n).
Proof.
  intros Hc Hn0 n K.
  pose proof (constructed_isDirected this Hc) as Hdir.
  destruct (gen_start_sized Hc) as [Hstart HK]. fold K in HK.
  unfold generateNetworkWithOrder_run. apply ensures_bind. simpl.
  rewrite Hdir. fold n.
  eapply ensures_mono.
  - apply (gen_loop_slots K). split; [|split]; [| |by intros idx ?; lia].
    + apply (inv_reads _ gen_wf_invariant (gen_start this [] []));
        done.
    + exact HK.
  - intros s1 w1 [(_ & _ & Hcs) Hlen]. apply ensures_bind.
    eapply ensures_mono; [apply rank_order_pure|].
    intros r w2 ->. apply ensures_ret. simpl.
    rewrite Z.max_r in Hcs by done. split; [done|].
    unfold vsize. rewrite Hlen. simpl. rewrite length_replicate.
    pose proof (dyad_slots_nonneg
                  (isDirected (network (model this))) n).
    unfold dyad_count.
    destruct (isDirected (network (model this))); simpl in *; lia.
Qed.

(** X17. With [storeChangeStats], the list of change statistics that
    [generateNetworkWithOrder] returns has one slot per dyad of the
    network, and every slot holds a vector with one entry per statistic:
    the indices [(i-1)i + 2j], [(i-1)i + 2j + 1] (directed) and
    [(i-1)i/2 + j] (undirected) of the dyads cover the list.  Without it
    the result has no change statistics.  The three statistic vectors of
    the result have one entry per statistic as well. *)
Theorem generateNetworkWithOrder_change_statistics (vert_order : list Z)
  (storeChangeStats : bool) (w : world) :
  constructed this ->
  0 <= netSize (network (model this)) ->
  vert_order ≡ₚ seqZ 0 (netSize (network (model this))) ->
  let n := netSize (network (model this)) in
  let K := length (thetas (internals (model this))) in
  exists r w',
    generateNetworkWithOrder this vert_order storeChangeStats w
    = Ok (r, w')
    /\ length (r_emptyNetworkStats r) = K
    /\ length (r_stats r) = K
    /\ length (r_expectedStats r) = K
    /\ (storeChangeStats = false -> r_changeStats r = None)
    /\ (storeChangeStats = true ->
        exists cs, r_changeStats r = Some cs
                   /\ vsize cs
                      = dyad_count (isDirected (network (model this))) n
                   /\ Forall (filled K) cs).
Proof.
  intros Hc Hn0 Hperm n K.
  pose proof (constructed_isDirected this Hc) as Hdir.
  destruct (gen_start_sized Hc) as [Hstart HK]. fold K in HK.
  destruct (returns_elim _ _ _
    (generateNetworkWithOrder_run_spec _ (gen_sized_invariant K) this
       vert_order storeChangeStats w (conj Hstart HK) Hperm))
    as (sr & w' & Hrun & s & rankOrder & [Hwf HKs] & _ & -> & _).
  eexists _, w'.
  split; [by apply (generateNetworkWithOrder_of_run _ _ _ _ _ _ Hrun)|].
  destruct Hwf as (Ht & He & Hs). simpl.
  split; [done|]. split; [lia|]. split; [lia|].
  split; [by intros ->|]. intros ->.
  exists (g_changeStats s). split; [done|].
  pose proof (generateNetworkWithOrder_run_slots vert_order w Hc Hn0)
    as Hens.
  destruct (Hens _ _ Hrun) as [Hcs Hlen]. simpl in Hcs, Hlen.
  split; [done|]. by apply (slots_filled_Forall K _ _ Hcs).
Qed.
End ChangeStatistics.

(** ** More about the generative sampler over an edge order *)

Section GenEdgeSteps.
Context {Net St : Type} {NO : NetworkOps Net} {MO : ModelOps Net St}.
Context {RS : RandomStream} {US : UnitStream} {LM : Libm}.
Context {ML : ModelLaws}.
Context (J : gen Net St -> Prop) (HJ : dyad_invariant J).

(** A step of the loop over the edge order returns while the index is
    within the heads, the tails and the list of change statistics. *)
Lemma gen_edge_body_step (n : Z) (vert_order perm_heads perm_tails : list Z)
  (i : Z) (k slots : nat) (w0 : world) (s : gen Net St) (w : world) :
  0 <= i ->
  i < vsize perm_tails -> i < vsize perm_heads -> i < Z.of_nat slots ->
  n <= vsize vert_order ->
  gen_loop_inv J k slots w0 s w ->
  returns (gen_edge_body n vert_order perm_heads perm_tails i s) w
    (gen_loop_inv J k slots w0).
Proof.
  intros Hi Ht Hh Hslots Hn Hinv. unfold vsize in Ht, Hh.
  destruct (lookup_lt_is_Some_2 perm_tails (Z.to_nat i)) as [vertex Hv];
    [lia|].
  destruct (lookup_lt_is_Some_2 perm_heads (Z.to_nat i)) as [alter Ha];
    [lia|].
  destruct (find_actor_returns _ vert_order vertex Hn) as [found Hfound].
  unfold gen_edge_body.
  apply returns_bind, (returns_lift _ vertex);
    [apply vec_get_Ok; [lia|done]|].
  apply returns_bind, (returns_lift _ alter);
    [apply vec_get_Ok; [lia|done]|].
  apply returns_bind, (returns_lift _ found); [done|].
  apply returns_bind.
  eapply returns_mono; [by apply (gen_dyad_returns J HJ)|].
  intros s1 w1 (Hinv1 & Hw1 & _).
  eapply returns_mono;
    [apply (store_change_returns J HJ i k slots w0); [lia|done]|].
  by intros s2 w2 (Hinv2 & _).
Qed.

Lemma gen_edge_prefix_returns (n : Z)
  (vert_order perm_heads perm_tails : list Z) (m : Z) (k slots : nat)
  (s : gen Net St) (w : world) :
  0 <= m ->
  m <= vsize perm_tails -> m <= vsize perm_heads -> m <= Z.of_nat slots ->
  n <= vsize vert_order ->
  gen_loop_inv J k slots w s w ->
  returns (for_range 0 m
             (gen_edge_body n vert_order perm_heads perm_tails) s) w
    (gen_loop_inv J k slots w).
Proof.
  intros Hm Ht Hh Hslots Hn Hinv.
  apply (returns_for_range (fun _ => gen_loop_inv J k slots w));
    [lia|done|].
  intros i s' w' Hi Hinv'.
  apply gen_edge_body_step; (done || lia).
Qed.

(** The step at an index beyond the heads, or beyond the list of change
    statistics, reads or writes outside the vector. *)
Lemma gen_edge_body_fails (n : Z)
  (vert_order perm_heads perm_tails : list Z) (i : Z) (k slots : nat)
  (w0 : world) (s : gen Net St) (w : world) :
  0 <= i < vsize perm_tails ->
  vsize perm_heads <= i \/ Z.of_nat slots <= i ->
  n <= vsize vert_order ->
  gen_loop_inv J k slots w0 s w ->
  gen_edge_body n vert_order perm_heads perm_tails i s w
  = Fail UndefinedBehaviour.
Proof.
  intros Hi Hout Hn (Hs & _ & Hc & _). unfold vsize in Hi.
  destruct (lookup_lt_is_Some_2 perm_tails (Z.to_nat i)) as [vertex Hv];
    [lia|].
  unfold gen_edge_body, bind at 1. unfold lift at 1.
  rewrite (vec_get_Ok _ _ vertex) by (done || lia).
  unfold bind at 1. unfold lift at 1.
  destruct (vec_get perm_heads i) as [alter|] eqn:Ha.
  2:{ unfold vec_get in Ha. destruct (i <? 0); [by injection Ha as <-|].
      destruct (perm_heads !! Z.to_nat i); [done|by injection Ha as <-]. }
  apply vec_get_inv in Ha as [_ Ha]. apply lookup_lt_Some in Ha.
  destruct Hout as [Hout|Hout]; [unfold vsize in Hout; lia|].
  destruct (find_actor_returns _ vert_order vertex Hn) as [found Hfound].
  unfold bind at 1. unfold lift at 1. rewrite Hfound.
  unfold bind. rewrite gen_dyad_spec; [|by apply (inv_wf J HJ)|done].
  unfold store_change, bind, lift, vec_set. simpl.
  destruct (Z.ltb_spec i 0); [done|].
  destruct (Nat.ltb_spec (Z.to_nat i) (length (g_changeStats s)));
    [lia|done].
Qed.
End GenEdgeSteps.

Section EdgeSlots.
Context {Net St : Type} {NO : NetworkOps Net} {MO : ModelOps Net St}.
Context {RS : RandomStream} {LM : Libm}.
Context {ML : ModelLaws}.
Context (K : nat).

(** The invariant of the list of change statistics in the loop over the
    edge order: the slots below [i] are filled, the others are empty. *)
Let edge_slots_inv (i : Z) (s : gen Net St) : Prop :=
  (gen_wf s /\ length (g_terms s) = K
   /\ slots_filled K i (g_changeStats s))
  /\ forall idx : nat, i <= Z.of_nat idx ->
       (idx < length (g_changeStats s))%nat ->
       (g_changeStats s : list (option (list Q))) !! idx = Some None.

Lemma gen_edge_body_slots (n : Z)
  (vert_order perm_heads perm_tails : list Z) (i : Z) (s : gen Net St) w :
  0 <= i ->
  edge_slots_inv i s ->
  ensures (gen_edge_body n vert_order perm_heads perm_tails i s) w
    (fun s' _ => edge_slots_inv (i + 1) s'
                 /\ length (g_changeStats s') = length (g_changeStats s)).
Proof.
  intros Hi [Hinv Hrest]. unfold gen_edge_body.
  apply ensures_bind, ensures_lift. intros vertex _.
  apply ensures_bind, ensures_lift. intros alter _.
  apply ensures_bind, ensures_lift. intros found _.
  apply ensures_bind.
  eapply ensures_mono; [by apply (gen_dyad_change K)|].
  intros s1 w1 (Hinv1 & Hc1 & Hcs1).
  unfold store_change.
  apply ensures_bind, ensures_lift. intros cs Hset.
  apply ensures_ret. unfold vec_set in Hset.
  destruct (Z.ltb_spec i 0); [done|].
  destruct (Nat.ltb_spec (Z.to_nat i) (length (g_changeStats s1)));
    [|done].
  injection Hset as <-. simpl. rewrite length_insert.
  destruct Hinv1 as (Hwf1 & HK1 & Hf1). rewrite Hcs1 in *.
  split; [|done].
  split; [split; [done|split; [done|]]|].
  - apply (slots_filled_insert K i (i + 1) i); [done| |done|].
    + unfold vsize. lia.
    + intros x Hx. lia.
  - simpl. intros idx Hidx Hlt. rewrite length_insert in Hlt.
    rewrite list_lookup_insert_ne by lia.
    apply Hrest; lia.
Qed.

Lemma gen_edge_loop_slots (n : Z)
  (vert_order perm_heads perm_tails : list Z) (m : Z) (s : gen Net St) w :
  edge_slots_inv 0 s ->
  ensures (for_range 0 m
             (gen_edge_body n vert_order perm_heads perm_tails) s) w
    (fun s' _ => edge_slots_inv (Z.max 0 m) s'
                 /\ length (g_changeStats s') = length (g_changeStats s)).
Proof.
  intros Hinv.
  apply (ensures_for_range
           (fun i s' _ =>
              edge_slots_inv i s'
              /\ length (g_changeStats s') = length (g_changeStats s)));
    [done|].
  intros i s' w' Hi [Hinv' Hl'].
  eapply ensures_mono; [apply gen_edge_body_slots; [lia|done]|].
  intros s'' w'' [? ?]. split; [done|congruence].
Qed.
End EdgeSlots.

Section GenEdgeMore.
Context {Net St : Type} {NO : NetworkOps Net} {MO : ModelOps Net St}.
Context {RS : RandomStream} {US : UnitStream} {LM : Libm}.
Context {RK : Ranker} {RL : RankerLaws}.
Context {NL : NetworkLaws} {ML : ModelLaws}.
Context (this : LatentOrderLikelihood Net St).

(** An edge order that is empty, lacks a head for a tail or has more
    tails than the network has dyads. *)
Lemma generateNetworkWithEdgeOrder_run_fails
  (perm_heads perm_tails : list Z) (w : world) :
  constructed this ->
  let n := netSize (network (model this)) in
  perm_heads = [] \/ perm_tails = []
  \/ vsize perm_heads < vsize perm_tails
  \/ dyad_count (isDirected (network (model this))) n < vsize perm_tails ->
  generateNetworkWithEdgeOrder_run this perm_heads perm_tails w
  = Fail UndefinedBehaviour.
Proof.
  intros Hc n Hbad.
  destruct (constructed_facts this Hc) as (_ & _ & Hfit).
  unfold generateNetworkWithEdgeOrder_run. fold n.
  destruct perm_tails as [|t tails]; [done|].
  destruct perm_heads as [|h heads]; [done|].
  set (perm_tails := t :: tails) in *. set (perm_heads := h :: heads) in *.
  destruct Hbad as [Hbad|[Hbad|Hbad]]; [done|done|].
  destruct (returns_elim _ _ _
              (check_max_spec n perm_heads perm_tails w
                 ltac:(done) ltac:(done)))
    as ([] & w1 & Hcheck & _).
  destruct (returns_elim _ _ _ (make_vertices_spec this w1 Hfit))
    as (vo & w2 & Hvo & Hperm & _). fold n in Hvo, Hperm.
  unfold bind at 1. rewrite Hcheck.
  unfold bind at 1. rewrite Hvo.
  set (e := if negb (isDirected (network (model this))) then _ else _).
  assert (He : dyad_count (isDirected (network (model this))) n = e).
  { unfold e, dyad_count.
    by destruct (isDirected (network (model this))). }
  pose proof (dyad_slots_nonneg (isDirected (network (model this))) n)
    as He0. fold (dyad_count (isDirected (network (model this))) n) in He0.
  rewrite He in Hbad, He0.
  fold (gen_start this vo (replicate (Z.to_nat e) None)).
  assert (Hinv : gen_loop_inv gen_wf (length vo) (Z.to_nat e) w2
                   (gen_start this vo (replicate (Z.to_nat e) None)) w2).
  { pose proof (gen_start_loop_inv this vo (replicate (Z.to_nat e) None)
                  w2 Hc) as Hinv.
    by rewrite length_replicate in Hinv. }
  assert (Hn : n <= vsize vo).
  { unfold vsize. rewrite (Permutation_length Hperm), length_seqZ. lia. }
  set (m := Z.min (vsize perm_heads) e).
  assert (Hm : 0 <= m < vsize perm_tails) by (unfold m, vsize in *; lia).
  destruct (returns_elim _ _ _
    (gen_edge_prefix_returns gen_wf gen_wf_invariant n vo perm_heads
       perm_tails m (length vo) (Z.to_nat e) _ w2
       ltac:(lia) ltac:(lia) ltac:(lia) ltac:(lia) Hn Hinv))
    as (s1 & w3 & Hpre & Hinv1).
  unfold bind at 1.
  rewrite (for_range_fails_at _ 0 m (vsize perm_tails) _ s1 w2 w3
             UndefinedBehaviour); [done|lia|done|].
  apply (gen_edge_body_fails gen_wf gen_wf_invariant n vo perm_heads
           perm_tails m (length vo) (Z.to_nat e) w2); (done || lia).
Qed.

(** X19. [generateNetworkWithEdgeOrder] needs an edge order that is not empty
    (it dereferences [std::max_element] of the heads and of the tails),
    that has a head for every tail (it reads [perm_heads[i]] for every
    index of the tails) and that has no more tails than the network has
    dyads (it writes [changeStats[i]] into a list of that many slots):
    otherwise it runs into undefined behaviour. *)
Theorem generateNetworkWithEdgeOrder_malformed_order_undefined
  (perm_heads perm_tails : list Z) (w : world) :
  constructed this ->
  let n := netSize (network (model this)) in
  perm_heads = [] \/ perm_tails = []
  \/ vsize perm_heads < vsize perm_tails
  \/ dyad_count (isDirected (network (model this))) n < vsize perm_tails ->
  generateNetworkWithEdgeOrder this perm_heads perm_tails w
  = Fail UndefinedBehaviour.
Proof.
  intros Hc n Hbad. unfold generateNetworkWithEdgeOrder, bind.
  by rewrite (generateNetworkWithEdgeOrder_run_fails _ _ w Hc Hbad).
Qed.

(** X20. For an edge order that is well formed, the list of change statistics
    that [generateNetworkWithEdgeOrder] returns has one slot per dyad of
    the network; the slots of the positions of the edge order hold vectors
    with one entry per statistic and the other slots are empty (NULL in
    R), as a truncated edge order leaves them.  The statistic vectors of
    the result have one entry per statistic, and nothing is printed when
    no vertex of the edge order exceeds [n - 1]. *)
Theorem generateNetworkWithEdgeOrder_change_statistics
  (perm_heads perm_tails : list Z) (w : world) :
  constructed this ->
  let n := netSize (network (model this)) in
  let e := dyad_count (isDirected (network (model this))) n in
  let K := length (thetas (internals (model this))) in
  perm_heads <> [] -> perm_tails <> [] ->
  vsize perm_tails <= vsize perm_heads ->
  vsize perm_tails <= e ->
  exists r w' cs,
    generateNetworkWithEdgeOrder this perm_heads perm_tails w = Ok (r, w')
    /\ r_changeStats r = Some cs
    /\ vsize cs = e
    /\ slots_filled K (vsize perm_tails) cs
    /\ (forall idx : nat, vsize perm_tails <= Z.of_nat idx < e ->
        cs !! idx = Some None)
    /\ length (r_emptyNetworkStats r) = K
    /\ length (r_stats r) = K
    /\ length (r_expectedStats r) = K
    /\ (~ beyond n perm_heads perm_tails -> Rcout w' = Rcout w).
Proof.
  intros Hc n e K Hh Ht Hle Hslots.
  destruct (constructed_facts this Hc) as (_ & _ & Hfit).
  destruct (gen_start_sized this Hc) as [Hstart HK]. fold K in HK.
  destruct (returns_elim _ _ _
    (generateNetworkWithEdgeOrder_run_spec _ (gen_sized_invariant K) this
       perm_heads perm_tails w (conj Hstart HK) Hfit Hh Ht Hle Hslots))
    as (sr & w' & Hrun & s & rankOrder & [Hwf HKs] & _ & _ & -> & _
        & Hquiet).
  assert (He0 : 0 <= e) by apply dyad_slots_nonneg.
  assert (Hens : ensures
    (generateNetworkWithEdgeOrder_run this perm_heads perm_tails) w
    (fun sr _ =>
       slots_filled K (vsize perm_tails) (g_changeStats (fst sr))
       /\ (forall idx : nat, vsize perm_tails <= Z.of_nat idx < e ->
           g_changeStats (fst sr) !! idx = Some None)
       /\ vsize (g_changeStats (fst sr)) = e)).
  { unfold generateNetworkWithEdgeOrder_run. fold n.
    apply ensures_bind. intros _ w1 _.
    apply ensures_bind. intros vo w2 _.
    set (e' := if negb (isDirected (network (model this))) then _ else _).
    assert (He : e' = e).
    { unfold e, e', dyad_count.
      by destruct (isDirected (network (model this))). }
    rewrite He. apply ensures_bind.
    eapply ensures_mono.
    - apply (gen_edge_loop_slots K). split; [split; [|split]|].
      + apply (inv_reads _ gen_wf_invariant (gen_start this [] []));
          done.
      + exact HK.
      + intros idx ?. lia.
      + intros idx _ Hidx. simpl in *. rewrite length_replicate in Hidx.
        by apply lookup_replicate_2.
    - intros s1 w3 [[(_ & _ & Hcs) Hrest] Hlen]. apply ensures_bind.
      eapply ensures_mono; [apply rank_order_pure|].
      intros r w4 ->. apply ensures_ret. simpl in *.
      rewrite length_replicate in Hlen.
      rewrite Z.max_r in Hcs, Hrest by (unfold vsize; lia).
      split; [done|]. split; [|unfold vsize; lia].
      intros idx Hidx. apply Hrest; lia. }
  destruct (Hens _ _ Hrun) as (Hcs & Hrest & Hlen). simpl in *.
  eexists _, w', (g_changeStats s).
  split; [by apply (generateNetworkWithEdgeOrder_of_run _ _ _ _ _ _ Hrun)|].
  destruct Hwf as (Hterms & HeS & HsS). simpl.
  repeat (split; [done || lia|]). exact Hquiet.
Qed.
End GenEdgeMore.

Section GenEdgeStatistics.
Context {Net St : Type} {NO : NetworkOps Net} {MO : ModelOps Net St}.
Context {RS : RandomStream} {US : UnitStream} {LM : Libm}.
Context {RK : Ranker} {RL : RankerLaws}.
Context {NL : NetworkLaws} {ML : ModelLaws} {TL : TransactionLaws}.
Context (this : LatentOrderLikelihood Net St).

End GenEdgeStatistics.

(** ** More about the replay over an edge order *)

Lemma edge_visits_snoc directed (heads tails : list Z) (flags : list bool)
  (h t : Z) (b : bool) :
  length heads = length tails -> length flags = length tails ->
  edge_visits directed (heads ++ [h]) (tails ++ [t]) (flags ++ [b])
  = edge_visits directed heads tails flags
    ++ ((t, h, b) :: if directed then [(h, t, b)] else []).
Proof.
  intros Hh Hf. unfold edge_visits.
  rewrite !zip_with_app; [|by rewrite length_zip_with; lia|done].
  rewrite flat_map_app. simpl. by rewrite app_nil_r.
Qed.

Lemma edge_visits_dyads directed (heads tails : list Z) (flags : list bool) :
  length heads = length tails -> length flags = length tails ->
  v_dyad <$> edge_visits directed heads tails flags
  = edge_dyads directed heads tails.
Proof.
  revert heads flags.
  induction tails as [|t tails IH]; intros [|h heads] [|b flags] Hh Hf;
    simplify_eq/=; [done|].
  unfold edge_visits, edge_dyads in *. simpl.
  rewrite fmap_app, IH by done. by destruct directed.
Qed.

Lemma edge_visits_filter directed (heads tails : list Z)
  (flags : list bool) :
  (Forall (fun b => b = true) flags ->
   List.filter v_sample (edge_visits directed heads tails flags)
   = edge_visits directed heads tails flags)
  /\ (Forall (fun b => b = false) flags ->
      List.filter v_sample (edge_visits directed heads tails flags) = []).
Proof.
  revert heads flags.
  induction tails as [|t tails IH]; intros [|h heads] [|b flags]; try done.
  unfold edge_visits in *. simpl. split; intros Hf;
    apply Forall_cons in Hf as [-> Hf];
    destruct directed; simpl; unfold v_sample at 1; simpl;
    rewrite ?List.filter_app; f_equal; try f_equal; by apply IH.
Qed.

Section EdgeReplayMore.
Context {Net St : Type} {NO : NetworkOps Net} {MO : ModelOps Net St}.
Context {RS : RandomStream} {US : UnitStream}.
Context {RK : Ranker} {RL : RankerLaws}.
Context {NL : NetworkLaws} {ML : ModelLaws}.
Context (this : LatentOrderLikelihood Net St) (rate : Q).
Context (perm_heads perm_tails : list Z).

(** The invariant of the loop of [modelFrameGivenEdgeOrder], with the
    retain decisions of the positions before [i]. *)
Let edge_flags_inv (i : Z) (s : frame Net St) : Prop :=
  exists flags : list bool,
    length flags = Z.to_nat i
    /\ Forall (flag_ok rate) flags
    /\ replayed this
         (edge_visits (isDirected (network (noTieModel this)))
            (take (Z.to_nat i) perm_heads) (take (Z.to_nat i) perm_tails)
            flags) s
    /\ isDirected (network (f_runningModel s))
       = isDirected (network (noTieModel this)).

Lemma frame_edge_body_flags (vert_order : list Z) (i : Z)
  (s : frame Net St) w :
  0 <= i -> i < vsize perm_heads -> i < vsize perm_tails ->
  netSize (network (model this)) <= vsize vert_order ->
  edge_flags_inv i s ->
  returns (frame_edge_body this rate (netSize (network (model this)))
             vert_order perm_heads perm_tails i s) w
    (fun s' w' => edge_flags_inv (i + 1) s' /\ effect 1 w w').
Proof.
  intros Hi Hh Ht Hn (flags & Hlen & Hflags & Hrep & Hdir).
  unfold vsize in Hh, Ht.
  destruct (lookup_lt_is_Some_2 perm_tails (Z.to_nat i)) as [vertex Hv];
    [lia|].
  destruct (lookup_lt_is_Some_2 perm_heads (Z.to_nat i)) as [alter Ha];
    [lia|].
  destruct (find_actor_returns _ vert_order vertex Hn) as [found Hfound].
  unfold frame_edge_body.
  apply returns_bind, (returns_lift _ vertex);
    [apply vec_get_Ok; [lia|done]|].
  apply returns_bind, (returns_lift _ alter);
    [apply vec_get_Ok; [lia|done]|].
  apply returns_bind. unfold returns at 1, Rf_runif.
  destruct (unit_stream (rng_pos w)) as [Hu0 Hu1].
  pose proof (unit_draw_flag_ok rate _ Hu0 Hu1) as Hflag.
  set (sample := Qltb _ rate) in *.
  apply returns_bind, (returns_lift _ found); [done|].
  apply returns_bind.
  eapply returns_mono; [by apply replay_dyad_spec|].
  intros s1 w1 (-> & Hrep1 & Hw1 & Hd1). rewrite Hd1, Hdir.
  assert (Hsnoc :
    edge_visits (isDirected (network (noTieModel this)))
      (take (Z.to_nat (i + 1)) perm_heads)
      (take (Z.to_nat (i + 1)) perm_tails) (flags ++ [sample])
    = edge_visits (isDirected (network (noTieModel this)))
        (take (Z.to_nat i) perm_heads) (take (Z.to_nat i) perm_tails)
        flags
      ++ ((vertex, alter, sample)
          :: if isDirected (network (noTieModel this))
             then [(alter, vertex, sample)] else [])).
  { replace (Z.to_nat (i + 1)) with (Datatypes.S (Z.to_nat i)) by lia.
    rewrite (take_S_r _ _ _ Hv), (take_S_r _ _ _ Ha).
    apply edge_visits_snoc; rewrite !length_take; lia. }
  assert (Hlen' : length (flags ++ [sample]) = Z.to_nat (i + 1))
    by (rewrite length_app; simpl; lia).
  assert (Hflags' : Forall (flag_ok rate) (flags ++ [sample]))
    by (apply Forall_app; split; [done|by constructor]).
  assert (Heff : effect 1 w
            {| rng_pos := Datatypes.S (rng_pos w); Rcout := Rcout w |})
    by (split; simpl; [lia|done]).
  destruct (isDirected (network (noTieModel this))) eqn:Edir.
  - eapply returns_mono; [by apply replay_dyad_spec|].
    intros s2 w2 (-> & Hrep2 & Hw2 & Hd2).
    rewrite <- app_assoc in Hrep2. split; [|done].
    exists (flags ++ [sample]). rewrite Hsnoc.
    split; [done|]. split; [done|]. split; [exact Hrep2|congruence].
  - apply returns_ret. split; [|done].
    exists (flags ++ [sample]). rewrite Hsnoc.
    split; [done|]. split; [done|]. split; [exact Hrep1|congruence].
Qed.

(** The steps within the heads and the tails return. *)
Lemma frame_edge_prefix (vert_order : list Z) (m : Z) (s : frame Net St)
  w :
  0 <= m -> m <= vsize perm_heads -> m <= vsize perm_tails ->
  netSize (network (model this)) <= vsize vert_order ->
  edge_flags_inv 0 s ->
  returns (for_range 0 m
             (frame_edge_body this rate (netSize (network (model this)))
                vert_order perm_heads perm_tails) s) w
    (fun s' w' => edge_flags_inv m s' /\ effect (Z.to_nat m) w w').
Proof.
  intros Hm Hh Ht Hn Hinv.
  apply (returns_for_range
           (fun i s' w' => edge_flags_inv i s'
                           /\ effect (Z.to_nat i) w w')); [lia| |].
  - split; [done|apply effect_refl].
  - intros i s' w' Hi [Hinv' Heff].
    eapply returns_mono; [apply frame_edge_body_flags; (done || lia)|].
    intros s'' w'' [? Heff']. split; [done|].
    eapply effect_trans; [exact Heff|exact Heff'|lia].
Qed.

(** The locals of [modelFrameGivenEdgeOrder] before its loop. *)
Lemma frame_edge_init (w : world) :
  order_fits this -> reservable this rate ->
  exists vo w1,
    make_vertices this (netSize (network (model this))) w = Ok (vo, w1)
    /\ vo ≡ₚ seqZ 0 (netSize (network (model this)))
    /\ Rcout w1 = Rcout w
    /\ modelFrameGivenEdgeOrder_run this rate perm_heads perm_tails w
       = for_range 0 (vsize perm_heads)
           (frame_edge_body this rate (netSize (network (model this)))
              vo perm_heads perm_tails)
           (frame_start this vo) w1
    /\ edge_flags_inv 0 (frame_start this vo).
Proof.
  intros Hfit Hres.
  destruct (returns_elim _ _ _ (make_vertices_spec this w Hfit))
    as (vo & w1 & Hvo & Hperm & Hout).
  exists vo, w1. split; [done|]. split; [done|]. split; [done|]. split.
  - unfold modelFrameGivenEdgeOrder_run, bind at 1. rewrite Hvo.
    unfold bind at 1.
    destruct (returns_elim _ _ _
      (reserve_columns_spec this rate
         (replicate (length (m_statistics (m_calculate
            (setNetwork (noTieModel this) (network (noTieModel this))))))
            []) w1
         ltac:(rewrite length_replicate; unfold m_statistics; simpl;
               by rewrite statistics_calculate_length) Hres))
      as (p & w2 & Hp & -> & ->).
    by rewrite Hp.
  - exists []. split; [done|]. split; [done|]. split; [|done].
    unfold replayed, frame_start, m_statistics. simpl.
    rewrite length_replicate, !statistics_calculate_length.
    repeat split; try done.
    apply Forall_forall. intros col Hcol.
    by apply elem_of_replicate in Hcol as [-> _].
Qed.

(** X9. [modelFrameGivenEdgeOrder] reads [perm_tails[i]] for every index of
    the heads: with fewer tails than heads it reads beyond the end of the
    tails. *)
Theorem modelFrameGivenEdgeOrder_short_tails_undefined (w : world) :
  order_fits this -> reservable this rate ->
  vsize perm_tails < vsize perm_heads ->
  modelFrameGivenEdgeOrder this rate perm_heads perm_tails w
  = Fail UndefinedBehaviour.
Proof.
  intros Hfit Hres Hshort.
  destruct (frame_edge_init w Hfit Hres)
    as (vo & w1 & Hvo & Hperm & _ & Hrun & Hinv).
  assert (Hn : netSize (network (model this)) <= vsize vo).
  { unfold vsize. rewrite (Permutation_length Hperm), length_seqZ. lia. }
  destruct (returns_elim _ _ _
              (frame_edge_prefix vo (vsize perm_tails) _ w1
                 ltac:(unfold vsize; lia) ltac:(lia) ltac:(lia) Hn Hinv))
    as (s1 & w2 & Hpre & _).
  unfold modelFrameGivenEdgeOrder, bind. rewrite Hrun.
  rewrite (for_range_fails_at _ 0 (vsize perm_tails) _ _ s1 w1 w2
             UndefinedBehaviour); [done|unfold vsize in *; lia|done|].
  unfold frame_edge_body, bind, lift, vec_get.
  destruct (Z.ltb_spec (vsize perm_tails) 0); [done|].
  rewrite lookup_ge_None_2; [done|]. unfold vsize. lia.
Qed.

(** The frame of an edge order with a tail for every head. *)
Lemma modelFrameGivenEdgeOrder_run_frame (w : world) :
  order_fits this -> reservable this rate ->
  vsize perm_heads <= vsize perm_tails ->
  let obs := network (model this) in
  let directed := isDirected (network (noTieModel this)) in
  exists s w' vo w1,
    make_vertices this (netSize obs) w = Ok (vo, w1)
    /\ modelFrameGivenEdgeOrder_run this rate perm_heads perm_tails w
       = Ok (s, w')
    /\ rng_pos w' = (rng_pos w1 + length perm_heads)%nat
    /\ Rcout w' = Rcout w
    /\ ((1 <= rate)%Q ->
        f_outcome s
        = label obs <$> edge_dyads directed perm_heads
                          (take (length perm_heads) perm_tails)
        /\ vsize (f_outcome s)
           = (if directed then 2 else 1) * vsize perm_heads)
    /\ ((rate <= 0)%Q ->
        f_outcome s = []
        /\ Forall (fun col => col = []) (f_predictors s)).
Proof.
  intros Hfit Hres Hle obs directed.
  destruct (frame_edge_init w Hfit Hres)
    as (vo & w1 & Hvo & Hperm & Hout1 & Hrun & Hinv).
  assert (Hn : netSize (network (model this)) <= vsize vo).
  { unfold vsize. rewrite (Permutation_length Hperm), length_seqZ. lia. }
  destruct (returns_elim _ _ _
              (frame_edge_prefix vo (vsize perm_heads) _ w1
                 ltac:(unfold vsize; lia) ltac:(lia) ltac:(lia) Hn Hinv))
    as (s & w' & Hloop & (flags & Hlen & Hflags & Hrep & _) & Heff).
  rewrite <- Hrun in Hloop. unfold vsize in Hlen, Heff, Hrep.
  rewrite Nat2Z.id in Hlen, Heff, Hrep.
  rewrite (take_ge perm_heads) in Hrep by lia.
  exists s, w', vo, w1.
  split; [done|].
  split; [done|].
  destruct Heff as [Hpos Hout]. split; [done|]. split; [congruence|].
  destruct Hrep as (Houtc & _ & _ & _ & Hcols). simpl.
  assert (Hlt : length (take (length perm_heads) perm_tails)
                = length perm_heads)
    by (rewrite length_take; unfold vsize in Hle; lia).
  split.
  - intros Hrate.
    assert (Hall : Forall (fun b => b = true) flags).
    { eapply Forall_impl; [exact Hflags|]. intros b [Hb _]. auto. }
    rewrite (proj1 (edge_visits_filter _ _ _ _) Hall) in Houtc.
    assert (Heq : f_outcome s
                  = label obs <$> edge_dyads directed perm_heads
                                    (take (length perm_heads) perm_tails)).
    { rewrite Houtc, <- (edge_visits_dyads directed perm_heads _ flags)
        by lia.
      by rewrite <- list_fmap_compose. }
    split; [done|]. rewrite Heq. unfold vsize.
    rewrite length_fmap. unfold edge_dyads.
    generalize (take (length perm_heads) perm_tails) Hlt.
    clear. intros tails Hlt. revert tails Hlt.
    induction perm_heads as [|h heads IH]; intros [|t tails] Hlt;
      simplify_eq/=; [by destruct directed|].
    specialize (IH tails Hlt). destruct directed; simpl; lia.
  - intros Hrate.
    assert (Hnone : Forall (fun b => b = false) flags).
    { eapply Forall_impl; [exact Hflags|]. intros b [_ Hb]. auto. }
    rewrite (proj2 (edge_visits_filter _ _ _ _) Hnone) in Houtc.
    simpl in Houtc. split; [done|].
    eapply Forall_impl; [exact Hcols|]. intros col Hcol.
    rewrite Houtc in Hcol. by apply length_zero_iff_nil.
Qed.

(** X10. [modelFrameGivenEdgeOrder] takes one uniform draw per position of the
    edge order, after those of the generation of the vertex order, and
    prints nothing, also when a vertex of the edge order does not exist.
    With a rate of 1 (or more) it returns, in the order of the edge order,
    the tie presence of the observed network at the dyad (tail, head) of
    every position, followed in a directed network by the one at the
    reverse dyad; with a rate of 0 (or less) it returns no row. *)
Theorem modelFrameGivenEdgeOrder_labels_edge_order (w : world) :
  order_fits this -> reservable this rate ->
  vsize perm_heads <= vsize perm_tails ->
  let obs := network (model this) in
  let directed := isDirected (network (noTieModel this)) in
  exists r w' vo w1,
    make_vertices this (netSize obs) w = Ok (vo, w1)
    /\ modelFrameGivenEdgeOrder this rate perm_heads perm_tails w
       = Ok (r, w')
    /\ rng_pos w' = (rng_pos w1 + length perm_heads)%nat
    /\ Rcout w' = Rcout w
    /\ ((1 <= rate)%Q ->
        r_outcome r
        = label obs <$> edge_dyads directed perm_heads
                          (take (length perm_heads) perm_tails)
        /\ vsize (r_outcome r)
           = (if directed then 2 else 1) * vsize perm_heads)
    /\ ((rate <= 0)%Q ->
        r_outcome r = [] /\ Forall (fun col => col = []) (r_samples r)).
Proof.
  intros Hfit Hres Hle obs directed.
  destruct (modelFrameGivenEdgeOrder_run_frame w Hfit Hres Hle)
    as (s & w' & vo & w1 & Hvo & Hrun & Hpos & Hout & Hone & Hzero).
  exists (mkFrameResult (f_outcome s) (f_predictors s)), w', vo, w1.
  split; [done|].
  split; [by apply modelFrameGivenEdgeOrder_of_run|].
  split; [done|]. split; [done|]. split; [exact Hone|exact Hzero].
Qed.
End EdgeReplayMore.

(** ** More about the change statistics of an edge order *)

(** The search loop breaks at the first position of the vertex. *)
Lemma find_actor_steps_found (fuel : nat) (k j : Z) (vert_order : list Z)
  (vertex : Z) :
  0 <= k <= j -> j < k + Z.of_nat fuel ->
  vert_order !! Z.to_nat j = Some vertex ->
  (forall j', k <= j' < j -> vert_order !! Z.to_nat j' <> Some vertex) ->
  find_actor_steps fuel k vert_order vertex = Ok (Some j).
Proof.
  revert k. induction fuel as [|fuel IH]; intros k Hk Hj Hv Hfirst; [lia|].
  simpl. destruct (Z.eq_dec k j) as [->|Hne].
  - rewrite (vec_get_Ok _ _ vertex) by (done || lia). by rewrite Z.eqb_refl.
  - pose proof (lookup_lt_Some _ _ _ Hv) as Hlt.
    destruct (lookup_lt_is_Some_2 vert_order (Z.to_nat k)) as [x Hx]; [lia|].
    rewrite (vec_get_Ok _ _ x) by (done || lia).
    destruct (Z.eqb_spec x vertex) as [->|Hx'].
    + exfalso. by apply (Hfirst k); [lia|].
    + apply IH; [lia|lia|done|]. intros j' Hj'. apply Hfirst. lia.
Qed.

(** It runs to its end when the vertex is at none of the positions. *)
Lemma find_actor_steps_absent (fuel : nat) (k : Z) (vert_order : list Z)
  (vertex : Z) :
  0 <= k -> k + Z.of_nat fuel <= vsize vert_order ->
  (forall j, k <= j < k + Z.of_nat fuel ->
             vert_order !! Z.to_nat j <> Some vertex) ->
  find_actor_steps fuel k vert_order vertex = Ok None.
Proof.
  revert k. induction fuel as [|fuel IH]; intros k Hk Hle Habs; [done|].
  simpl. unfold vsize in Hle.
  destruct (lookup_lt_is_Some_2 vert_order (Z.to_nat k)) as [x Hx]; [lia|].
  rewrite (vec_get_Ok _ _ x) by (done || lia).
  destruct (Z.eqb_spec x vertex) as [->|Hx'].
  - exfalso. by apply (Habs k); [lia|].
  - apply IH; [lia|unfold vsize; lia|]. intros j Hj. apply Habs. lia.
Qed.

(** In a permutation of the vertices, the search finds the position of
    every vertex and nothing for any other number. *)
Lemma find_actor_permutation (n : Z) (vert_order : list Z) (vertex : Z) :
  vert_order ≡ₚ seqZ 0 n ->
  (0 <= vertex < n ->
   exists k, 0 <= k < n /\ vert_order !! Z.to_nat k = Some vertex
             /\ find_actor n vert_order vertex = Ok (Some k))
  /\ (~ 0 <= vertex < n -> find_actor n vert_order vertex = Ok None).
Proof.
  intros Hperm.
  assert (Hlen : length vert_order = Z.to_nat n)
    by (by rewrite (Permutation_length Hperm), length_seqZ).
  assert (Hnd : NoDup vert_order) by (rewrite Hperm; apply NoDup_seqZ).
  split.
  - intros Hv.
    assert (Hin : vertex ∈ vert_order)
      by (rewrite Hperm; apply elem_of_seqZ; lia).
    apply list_elem_of_lookup in Hin as [k Hk].
    pose proof (lookup_lt_Some _ _ _ Hk) as Hlt.
    exists (Z.of_nat k). rewrite Nat2Z.id. split; [lia|]. split; [done|].
    apply find_actor_steps_found; [lia|lia|by rewrite Nat2Z.id|].
    intros j' Hj' Heq.
    pose proof (NoDup_lookup _ _ _ _ Hnd Heq Hk). lia.
  - intros Hv. apply find_actor_steps_absent; [lia|unfold vsize; lia|].
    intros j Hj Heq. apply Hv.
    apply list_elem_of_lookup_2 in Heq. rewrite Hperm in Heq.
    apply elem_of_seqZ in Heq. lia.
Qed.

Section CalcMore.
Context {Net St : Type} {NO : NetworkOps Net} {MO : ModelOps Net St}.
Context {RS : RandomStream} {US : UnitStream}.
Context {RK : Ranker} {RL : RankerLaws}.
Context {NL : NetworkLaws} {ML : ModelLaws}.
Context (this : LatentOrderLikelihood Net St).

(** An iteration of the loop of [calcChangeStats] in closed form. *)
Lemma calc_body_closed (vert_order perm_heads perm_tails : list Z)
  (i vertex alter : Z) (found : option Z) (s : calc Net St) (w : world) :
  0 <= i < vsize (c_result s) ->
  perm_tails !! Z.to_nat i = Some vertex ->
  perm_heads !! Z.to_nat i = Some alter ->
  find_actor (netSize (network (model this))) vert_order vertex
  = Ok found ->
  length (m_statistics (c_runningModel s))
  = length (thetas (internals (model this))) ->
  calc_body this (netSize (network (model this)))
    (length (thetas (internals (model this)))) vert_order perm_heads
    perm_tails i s w
  = Ok (calc_step this vert_order i vertex alter
          (match found with Some k => k | None => c_actorIndex s end) s,
        w).
Proof.
  intros Hi Hv Ha Hfound Hstat. unfold calc_body, bind, lift.
  rewrite (vec_get_Ok _ _ vertex), (vec_get_Ok _ _ alter) by (done || lia).
  rewrite Hfound.
  set (k := match found with Some k => k | None => _ end).
  set (rm := m_dyadUpdate _ _ _ _ _).
  assert (Hrm : length (m_statistics rm)
                = length (thetas (internals (model this)))).
  { unfold rm, m_statistics in *. simpl.
    by rewrite statistics_dyadUpdate_length. }
  unfold transform_minus.
  rewrite Hrm, Hstat, length_replicate, Nat.leb_refl. simpl.
  rewrite vec_set_Ok by done.
  rewrite drop_ge by (rewrite length_replicate; lia).
  by rewrite app_nil_r.
Qed.

(** X24. In [calcChangeStats], unlike in the two other edge-order entry points,
    the actor index that the tentative update of a dyad receives is the
    position of the tail of the dyad in the generated vertex order,
    whenever the tail is a vertex of the network; for a tail that is not,
    the search finds nothing and the index of the previous dyad is used
    again (1 for the first dyad). *)
Theorem calcChangeStats_passes_position
  (vert_order perm_heads perm_tails : list Z) (i vertex alter : Z)
  (s : calc Net St) (w : world) :
  let n := netSize (network (model this)) in
  vert_order ≡ₚ seqZ 0 n ->
  0 <= i < vsize (c_result s) ->
  perm_tails !! Z.to_nat i = Some vertex ->
  perm_heads !! Z.to_nat i = Some alter ->
  length (m_statistics (c_runningModel s))
  = length (thetas (internals (model this))) ->
  (0 <= vertex < n ->
   exists k, vert_order !! Z.to_nat k = Some vertex
             /\ calc_body this n (length (thetas (internals (model this))))
                  vert_order perm_heads perm_tails i s w
                = Ok (calc_step this vert_order i vertex alter k s, w))
  /\ (~ 0 <= vertex < n ->
      calc_body this n (length (thetas (internals (model this))))
        vert_order perm_heads perm_tails i s w
      = Ok (calc_step this vert_order i vertex alter (c_actorIndex s) s,
            w)).
Proof.
  intros n Hperm Hi Hv Ha Hstat.
  destruct (find_actor_permutation n vert_order vertex Hperm)
    as [Hfound Habsent].
  split.
  - intros Hvertex. destruct (Hfound Hvertex) as (k & _ & Hk & Hfind).
    exists k. split; [done|].
    by rewrite (calc_body_closed _ _ _ _ vertex alter (Some k)).
  - intros Hvertex.
    by rewrite (calc_body_closed _ _ _ _ vertex alter None)
      by (done || by apply Habsent).
Qed.

Lemma calc_step_statistics (vert_order : list Z) (i vertex alter k : Z)
  (s : calc Net St) :
  length (m_statistics (c_runningModel
                          (calc_step this vert_order i vertex alter k s)))
  = length (m_statistics (c_runningModel s)).
Proof.
  unfold calc_step, calc_after, m_statistics. simpl.
  destruct (hasEdge _ _ _); simpl;
    by rewrite ?statistics_rollback, ?statistics_dyadUpdate_length.
Qed.

(** The iterations within the heads, the tails and the result list
    return, without a draw or a print, and fill the slots below them. *)
Lemma calc_prefix_returns (vert_order perm_heads perm_tails : list Z)
  (m : Z) (s : calc Net St) (w : world) :
  let K := length (thetas (internals (model this))) in
  0 <= m ->
  m <= vsize perm_heads -> m <= vsize perm_tails ->
  m <= vsize (c_result s) ->
  netSize (network (model this)) <= vsize vert_order ->
  length (m_statistics (c_runningModel s)) = K ->
  returns (for_range 0 m
             (calc_body this (netSize (network (model this))) K
                vert_order perm_heads perm_tails) s) w
    (fun s' w' =>
       w' = w
       /\ length (m_statistics (c_runningModel s')) = K
       /\ length (c_result s') = length (c_result s)
       /\ slots_filled K m (c_result s')
       /\ forall idx : nat, m <= Z.of_nat idx ->
            (c_result s' : list (option (list Q))) !! idx
            = (c_result s : list (option (list Q))) !! idx).
Proof.
  intros K Hm Hh Ht Hr Hn Hstat. unfold vsize in Hh, Ht, Hr.
  apply (returns_for_range
           (fun i s' w' =>
              w' = w
              /\ length (m_statistics (c_runningModel s')) = K
              /\ length (c_result s') = length (c_result s)
              /\ slots_filled K i (c_result s')
              /\ forall idx : nat, i <= Z.of_nat idx ->
                   (c_result s' : list (option (list Q))) !! idx
                   = (c_result s : list (option (list Q))) !! idx));
    [lia| |].
  - split; [done|]. split; [done|]. split; [done|].
    split; [|done]. intros idx ?. lia.
  - intros i s' w' Hi (-> & Hstat' & Hlen' & Hfill & Hrest).
    destruct (lookup_lt_is_Some_2 perm_tails (Z.to_nat i)) as [vertex Hv];
      [lia|].
    destruct (lookup_lt_is_Some_2 perm_heads (Z.to_nat i)) as [alter Ha];
      [lia|].
    destruct (find_actor_returns _ vert_order vertex Hn) as [found Hfound].
    unfold returns.
    rewrite (calc_body_closed _ _ _ _ vertex alter found);
      [|unfold vsize; lia|done|done|done|done].
    split; [done|]. split; [by rewrite calc_step_statistics|].
    unfold calc_step. simpl. rewrite length_insert.
    split; [done|]. split.
    + apply (slots_filled_insert K i); [done|unfold vsize; lia| |].
      * rewrite length_zip_with. unfold m_statistics in *. simpl.
        rewrite statistics_dyadUpdate_length. lia.
      * intros x Hx. lia.
    + intros idx Hidx. rewrite list_lookup_insert_ne by lia.
      apply Hrest. lia.
Qed.

(** [calcChangeStats] up to its loop. *)
Lemma calc_init (perm_heads perm_tails : list Z) (w : world) :
  order_fits this ->
  perm_heads <> [] -> perm_tails <> [] ->
  let n := netSize (network (model this)) in
  let e := dyad_count (isDirected (network (model this))) n in
  exists vo w1 w2,
    make_vertices this n w = Ok (vo, w1)
    /\ vo ≡ₚ seqZ 0 n
    /\ rng_pos w2 = rng_pos w1
    /\ calcChangeStats_run this perm_heads perm_tails w
       = (s <- for_range 0 e
                 (calc_body this n (length (thetas (internals (model this))))
                    vo perm_heads perm_tails)
                 (mkCalc (m_calculate
                            (setNetwork (noTieModel this)
                               (network (noTieModel this))))
                         1 (replicate (Z.to_nat e) None)) ;;
          ret (s, vo)) w2.
Proof.
  intros Hfit Hh Ht n e.
  destruct (returns_elim _ _ _ (make_vertices_spec this w Hfit))
    as (vo & w1 & Hvo & Hperm & _). fold n in Hvo, Hperm.
  unfold calcChangeStats_run. fold n.
  set (e' := if negb (isDirected (network (model this))) then _ else _).
  assert (e' = e) as ->
    by (unfold e', e, dyad_count;
        by destruct (isDirected (network (model this)))).
  set (warn := if _ || _ then _ else _).
  assert (Hwarn : exists wa,
            warn w1 = Ok (tt, wa) /\ rng_pos wa = rng_pos w1).
  { unfold warn. destruct (_ || _); by eexists. }
  destruct Hwarn as (wa & Hwa & Hpa).
  destruct (returns_elim _ _ _
              (check_max_spec n perm_heads perm_tails wa Hh Ht))
    as ([] & w2 & Hcheck & Hp2 & _).
  exists vo, w1, w2. split; [done|]. split; [done|].
  split; [congruence|].
  unfold bind at 1. rewrite Hvo.
  unfold bind at 1. rewrite Hwa.
  unfold bind at 1. by rewrite Hcheck.
Qed.

Lemma calc_start_statistics :
  constructed this ->
  length (m_statistics
            (m_calculate (setNetwork (noTieModel this)
                            (network (noTieModel this)))))
  = length (thetas (internals (model this))).
Proof.
  intros Hc. destruct (constructed_facts this Hc) as (Hint & _).
  unfold m_statistics. simpl.
  by rewrite statistics_calculate_length, Hint.
Qed.

(** X22. [calcChangeStats] needs an edge order that is not empty and that has
    a head and a tail for every dyad of the network: it dereferences
    [std::max_element] of the heads and of the tails, and after the
    warning about the length it still reads [perm_tails[i]] and
    [perm_heads[i]] for every [i] below the number of dyads. *)
Theorem calcChangeStats_short_order_undefined
  (perm_heads perm_tails : list Z) (w : world) :
  constructed this ->
  let n := netSize (network (model this)) in
  let e := dyad_count (isDirected (network (model this))) n in
  perm_heads = [] \/ perm_tails = []
  \/ vsize perm_heads < e \/ vsize perm_tails < e ->
  calcChangeStats this perm_heads perm_tails w = Fail UndefinedBehaviour.
Proof.
  intros Hc n e Hbad.
  destruct (constructed_facts this Hc) as (_ & _ & Hfit).
  assert (Hrun : calcChangeStats_run this perm_heads perm_tails w
                 = Fail UndefinedBehaviour);
    [|by unfold calcChangeStats, bind; rewrite Hrun].
  destruct (decide (perm_tails = [])) as [->|Ht].
  { destruct (returns_elim _ _ _ (make_vertices_spec this w Hfit))
      as (vo & w1 & Hvo & _).
    unfold calcChangeStats_run, bind at 1. rewrite Hvo.
    unfold bind at 1. by destruct (_ || _). }
  destruct (decide (perm_heads = [])) as [->|Hh].
  { destruct (returns_elim _ _ _ (make_vertices_spec this w Hfit))
      as (vo & w1 & Hvo & _).
    unfold calcChangeStats_run, bind at 1. rewrite Hvo.
    unfold bind at 1. destruct perm_tails; [done|]. by destruct (_ || _). }
  destruct Hbad as [?|[?|Hbad]]; [done|done|].
  destruct (calc_init perm_heads perm_tails w Hfit Hh Ht)
    as (vo & w1 & w2 & _ & Hperm & _ & ->). fold n e in Hperm |- *.
  assert (Hn : n <= vsize vo).
  { unfold vsize. rewrite (Permutation_length Hperm), length_seqZ. lia. }
  set (m := Z.min (vsize perm_heads) (vsize perm_tails)).
  set (s0 := mkCalc _ _ _).
  destruct (returns_elim _ _ _
    (calc_prefix_returns vo perm_heads perm_tails m s0 w2
       ltac:(unfold m, vsize; lia) ltac:(lia) ltac:(lia)
       ltac:(unfold s0, vsize; simpl; rewrite length_replicate; lia) Hn
       (calc_start_statistics Hc)))
    as (s1 & w3 & Hpre & -> & _).
  unfold bind.
  rewrite (for_range_fails_at _ 0 m e s0 s1 w2 w2 UndefinedBehaviour);
    [done|unfold m, vsize in *; lia|done|].
  unfold calc_body, bind, lift, vec_get.
  destruct (Z.ltb_spec m 0); [done|].
  destruct (perm_tails !! Z.to_nat m) as [vertex|] eqn:Hv; [|done].
  apply lookup_lt_Some in Hv.
  rewrite lookup_ge_None_2; [done|]. unfold m, vsize in *. lia.
Qed.

(** X23. For an edge order with an entry for every dyad of the network,
    [calcChangeStats] returns a list with one slot per dyad, each holding
    a vector with one entry per statistic; apart from the generation of
    the vertex order it takes no uniform draw. *)
Theorem calcChangeStats_fills_every_slot (perm_heads perm_tails : list Z)
  (w : world) :
  constructed this ->
  let n := netSize (network (model this)) in
  let e := dyad_count (isDirected (network (model this))) n in
  let K := length (thetas (internals (model this))) in
  perm_heads <> [] -> perm_tails <> [] ->
  e <= vsize perm_heads -> e <= vsize perm_tails ->
  exists r w' vo w1,
    make_vertices this n w = Ok (vo, w1)
    /\ calcChangeStats this perm_heads perm_tails w = Ok (r, w')
    /\ vsize r = e
    /\ Forall (filled K) r
    /\ rng_pos w' = rng_pos w1.
Proof.
  intros Hc n e K Hh Ht Hhe Hte.
  destruct (constructed_facts this Hc) as (_ & _ & Hfit).
  destruct (calc_init perm_heads perm_tails w Hfit Hh Ht)
    as (vo & w1 & w2 & Hvo & Hperm & Hpos & Hrun).
  fold n e in Hvo, Hperm, Hrun.
  assert (Hn : n <= vsize vo).
  { unfold vsize. rewrite (Permutation_length Hperm), length_seqZ. lia. }
  assert (He0 : 0 <= e) by apply dyad_slots_nonneg.
  set (s0 := mkCalc _ _ _) in Hrun.
  destruct (returns_elim _ _ _
    (calc_prefix_returns vo perm_heads perm_tails e s0 w2
       He0 Hhe Hte
       ltac:(unfold s0, vsize; simpl; rewrite length_replicate; lia) Hn
       (calc_start_statistics Hc)))
    as (s1 & w3 & Hloop & -> & _ & Hlen & Hfill & _).
  fold n in Hloop. unfold bind in Hrun. rewrite Hloop in Hrun.
  exists (c_result s1), w2, vo, w1. split; [done|].
  split; [by unfold calcChangeStats, bind; rewrite Hrun|].
  assert (Hsize : vsize (c_result s1) = e).
  { unfold vsize. rewrite Hlen. unfold s0. simpl.
    rewrite length_replicate. lia. }
  split; [done|]. split; [|done].
  by apply (slots_filled_Forall K e).
Qed.
End CalcMore.

(** ** The change statistics of the observed ties add up *)

Lemma zip_snoc_r {A B} (l1 : list A) (l2 : list B) (a : A) (b : B) :
  l1 !! length l2 = Some a ->
  zip l1 (l2 ++ [b]) = zip l1 l2 ++ [(a, b)].
Proof.
  revert l1. induction l2 as [|y l2 IH]; intros [|x l1] Ha; simplify_eq/=.
  - by destruct l1.
  - by rewrite IH.
Qed.

Lemma vsum_snoc (k : nat) (vs : list (list Q)) (v : list Q) :
  vsum k (vs ++ [v]) = zip_with Qplus (vsum k vs) v.
Proof. unfold vsum. by rewrite fold_left_app. Qed.

Lemma realized_changes_snoc {Net} `{NetworkOps Net} (obs : Net)
  (perm_heads perm_tails : list Z) (cs : list (option (list Q)))
  (t h : Z) (c : list Q) :
  perm_tails !! length cs = Some t -> perm_heads !! length cs = Some h ->
  realized_changes obs perm_heads perm_tails (cs ++ [Some c])
  = realized_changes obs perm_heads perm_tails cs
    ++ (if hasEdge obs t h then [c] else []).
Proof.
  intros Ht Hh. unfold realized_changes.
  rewrite (zip_snoc_r _ _ (t, h)).
  - rewrite omap_app. simpl. by destruct (hasEdge obs t h).
  - rewrite lookup_zip_with, Ht. simpl. by rewrite Hh.
Qed.

Lemma veq_plus_zero (k : nat) (xs : list Q) :
  length xs = k -> veq (zip_with Qplus xs (replicate k 0%Q)) xs.
Proof.
  intros Hlen. unfold veq. apply Forall2_same_length_lookup_2.
  - rewrite length_zip_with, length_replicate. lia.
  - intros i x y Hx Hy.
    apply lookup_zip_with_Some in Hx as (a & z & -> & Ha & Hz).
    apply lookup_replicate in Hz as [-> _]. simplify_eq. ring.
Qed.

Section CalcSum.
Context {Net St : Type} {NO : NetworkOps Net} {MO : ModelOps Net St}.
Context {RS : RandomStream} {US : UnitStream}.
Context {RK : Ranker} {RL : RankerLaws}.
Context {NL : NetworkLaws} {ML : ModelLaws} {TL : TransactionLaws}.
Context (this : LatentOrderLikelihood Net St).

(** The invariant of the loop of [calcChangeStats]: the statistics of the
    running model are those of its network, and they are the statistics
    [E] of the empty network plus the change statistics of the positions
    before [i] with an observed tie. *)
Let sum_inv (E : list Q) (perm_heads perm_tails : list Z) (i : Z)
  (s : calc Net St) : Prop :=
  length (m_statistics (c_runningModel s))
  = length (thetas (internals (model this)))
  /\ consistent (network (c_runningModel s))
                (internals (c_runningModel s))
  /\ veq (zip_with Qplus E
            (vsum (length (thetas (internals (model this))))
               (realized_changes (network (model this)) perm_heads
                  perm_tails (take (Z.to_nat i) (c_result s)))))
         (m_statistics (c_runningModel s)).

Lemma calc_step_sum (E : list Q) (vert_order perm_heads perm_tails : list Z)
  (i vertex alter k : Z) (s : calc Net St) :
  0 <= i < vsize (c_result s) ->
  perm_tails !! Z.to_nat i = Some vertex ->
  perm_heads !! Z.to_nat i = Some alter ->
  sum_inv E perm_heads perm_tails i s ->
  sum_inv E perm_heads perm_tails (i + 1)
    (calc_step this vert_order i vertex alter k s).
Proof.
  intros Hi Hv Ha (Hstat & Hcons & Hsum). unfold vsize in Hi.
  split; [by rewrite calc_step_statistics|].
  unfold calc_step, calc_after. simpl.
  set (rm' := m_dyadUpdate (c_runningModel s) vertex alter vert_order k).
  set (c := zip_with Qminus (m_statistics rm')
              (m_statistics (c_runningModel s))).
  replace (Z.to_nat (i + 1)) with (Datatypes.S (Z.to_nat i)) by lia.
  rewrite (take_S_r _ _ (Some c))
    by (rewrite list_lookup_insert_eq; [done|lia]).
  rewrite take_insert_ge by lia.
  rewrite (realized_changes_snoc _ _ _ _ vertex alter)
    by (rewrite length_take; replace (Z.to_nat i `min` _)%nat
          with (Z.to_nat i) by lia; done).
  destruct (hasEdge (network (model this)) vertex alter).
  - split.
    + apply commit_consistent, Hcons.
    + rewrite vsum_snoc.
      eapply veq_trans; [apply veq_accumulate, Hsum|].
      apply veq_plus_delta. unfold rm', m_statistics. simpl.
      by rewrite statistics_dyadUpdate_length.
  - split.
    + apply rollback_consistent, Hcons.
    + rewrite app_nil_r. unfold m_statistics in *. simpl.
      by rewrite statistics_rollback.
Qed.

End CalcSum.

(** ** The entry points that generate their vertex order *)

Section InvariantAnd.
Context {Net St : Type} {NO : NetworkOps Net} {MO : ModelOps Net St}.
Context {LM : Libm}.

(** Two invariants of the dyads make one. *)
Lemma dyad_invariant_and (J1 J2 : gen Net St -> Prop) :
  dyad_invariant J1 -> dyad_invariant J2 ->
  dyad_invariant (fun s => J1 s /\ J2 s).
Proof.
  intros H1 H2. split.
  - intros s [Hs _]. by apply (inv_wf J1 H1).
  - intros from to vert_order actorIndex u s [Hs1 Hs2].
    split; [by apply (inv_after J1 H1)|by apply (inv_after J2 H2)].
  - intros s s' Hrm He Hs Ht [Hs1 Hs2].
    split; [by apply (inv_reads J1 H1 s)|by apply (inv_reads J2 H2 s)].
Qed.
End InvariantAnd.

Section MakeVertices.
Context {Net St : Type} {NO : NetworkOps Net} {MO : ModelOps Net St}.
Context {RS : RandomStream} {RK : Ranker}.

(** Without a vertex order in the model, the generation of the vertex
    order takes the [n - 1] draws of its shuffle. *)
Lemma make_vertices_effect (this : LatentOrderLikelihood Net St) (n : Z)
  (w : world) :
  hasVertexOrder (internals (model this)) = false ->
  ensures (make_vertices this n) w
    (fun _ w' => effect (Z.to_nat (n - 1)) w w').
Proof.
  intros Hno. unfold make_vertices. rewrite Hno.
  apply ensures_bind.
  eapply ensures_mono.
  - apply ensures_for_range_pure. intros i v w'. by apply ensures_lift.
  - intros v w1 ->. apply shuffle_effect.
Qed.
End MakeVertices.

Section GenerateNetwork.
Context {Net St : Type} {NO : NetworkOps Net} {MO : ModelOps Net St}.
Context {RS : RandomStream} {US : UnitStream} {LM : Libm}.
Context {RK : Ranker} {RL : RankerLaws}.
Context {NL : NetworkLaws} {ML : ModelLaws}.
Context (this : LatentOrderLikelihood Net St).

(** X12. [generateNetworkReturnChanges] generates a vertex order, a
    permutation of the vertices, and returns what
    [generateNetworkWithOrder] returns for it with [storeChangeStats]:
    a network annotated with the inverse of the order, and a list of
    change statistics with one slot per dyad of the network, each holding
    a vector with one entry per statistic. *)
Theorem generateNetworkReturnChanges_fills_every_slot (w : world) :
  constructed this ->
  0 <= netSize (network (model this)) ->
  let n := netSize (network (model this)) in
  let K := length (thetas (internals (model this))) in
  exists vo w1 r w' cs g rankOrder,
    make_vertices this n w = Ok (vo, w1)
    /\ vo ≡ₚ seqZ 0 n
    /\ generateNetworkWithOrder this vo true w1 = Ok (r, w')
    /\ generateNetworkReturnChanges this w = Ok (r, w')
    /\ r_changeStats r = Some cs
    /\ vsize cs = dyad_count (isDirected (network (model this))) n
    /\ Forall (filled K) cs
    /\ r_network r = addDiscreteVariable g rankOrder "__order__"
    /\ inverse_order vo rankOrder
    /\ Rcout w' = Rcout w.
Proof.
  intros Hc Hn0 n K.
  destruct (constructed_facts this Hc) as (_ & _ & Hfit).
  destruct (returns_elim _ _ _ (make_vertices_spec this w Hfit))
    as (vo & w1 & Hvo & Hperm & Hout1). fold n in Hperm.
  destruct (returns_elim _ _ _
    (generateNetworkWithOrder_run_spec gen_wf gen_wf_invariant this
       vo true w1 (gen_start_wf this Hc) Hperm))
    as (sr & w' & Hrun & s & rankOrder & _ & Hinv & -> & Hout).
  destruct (generateNetworkWithOrder_run_slots this vo w1 Hc Hn0 _ _ Hrun)
    as [Hcs Hlen]. simpl in Hcs, Hlen.
  pose proof (generateNetworkWithOrder_of_run _ _ _ _ _ _ Hrun) as Hres.
  eexists vo, w1, _, w', (g_changeStats s), _, rankOrder.
  split; [done|]. split; [done|]. split; [exact Hres|].
  split; [by unfold generateNetworkReturnChanges, bind; rewrite Hvo|].
  split; [done|]. split; [done|].
  split; [by apply (slots_filled_Forall K _ _ Hcs)|].
  split; [done|]. split; [done|congruence].
Qed.
End GenerateNetwork.

Section GenerateNetworkStatistics.
Context {Net St : Type} {NO : NetworkOps Net} {MO : ModelOps Net St}.
Context {RS : RandomStream} {US : UnitStream} {LM : Libm}.
Context {RK : Ranker} {RL : RankerLaws}.
Context {NL : NetworkLaws} {ML : ModelLaws} {TL : TransactionLaws}.
Context (this : LatentOrderLikelihood Net St).

End GenerateNetworkStatistics.

(** ** The variational model frames *)

Section VariationalFrames.
Context {Net St : Type} {NO : NetworkOps Net} {MO : ModelOps Net St}.
Context {RS : RandomStream} {US : UnitStream}.
Context {RK : Ranker} {RL : RankerLaws}.
Context {NL : NetworkLaws} {ML : ModelLaws}.
Context (this : LatentOrderLikelihood Net St) (rate : Q).

(** What a frame of the replay over a permutation of the vertices is
    like. *)
Let frame_ok (r : frame_result) : Prop :=
  aligned (length (thetas (internals (noTieModel this)))) r
  /\ ((1 <= rate)%Q ->
      vsize (r_outcome r)
      = dyad_count (isDirected (network (noTieModel this)))
          (Z.max 0 (netSize (network (model this)))))
  /\ ((rate <= 0)%Q -> r_outcome r = []).

Lemma modelFrameGivenOrder_frame_ok (vert_order : list Z) (w : world) :
  reservable this rate ->
  vert_order ≡ₚ seqZ 0 (netSize (network (model this))) ->
  returns (modelFrameGivenOrder this rate vert_order) w
    (fun r w' => frame_ok r /\ Rcout w' = Rcout w).
Proof.
  intros Hres Hperm.
  assert (Hlen : length vert_order
                 = Z.to_nat (netSize (network (model this))))
    by (by rewrite (Permutation_length Hperm), length_seqZ).
  assert (Hn : netSize (network (model this)) <= vsize vert_order)
    by (unfold vsize; lia).
  destruct (returns_elim _ _ _
              (modelFrameGivenOrder_run_spec this rate vert_order w
                 Hres Hn))
    as (s & w' & Hrun & V & Hvis & Hrep & _).
  assert (Heff : Rcout w' = Rcout w).
  { assert (He : ensures (modelFrameGivenOrder_run this rate vert_order) w
              (fun _ w' => Rcout w' = Rcout w)).
    { unfold modelFrameGivenOrder_run, frame_init.
      apply ensures_bind, ensures_bind.
      eapply ensures_mono; [apply reserve_columns_pure|].
      intros p w1 ->. apply ensures_ret.
      eapply ensures_mono; [apply frame_loop_effect|].
      by intros s' w'' [_ ?]. }
    apply (He _ _ Hrun). }
  apply (returns_intro _ _ _ _ _
           (modelFrameGivenOrder_of_run this _ _ _ _ _ Hrun)).
  split; [|done].
  destruct (replayed_aligned this V s Hrep) as [Hal Hrows].
  split; [done|]. simpl.
  replace (Z.to_nat (Z.max 0 (netSize (network (model this)))))
    with (length vert_order) in Hvis by lia.
  split.
  - intros Hrate. unfold vsize.
    rewrite Hrows, (visited_all_retained _ _ _ _ _ Hrate Hvis).
    rewrite <- (length_fmap v_dyad).
    rewrite (Permutation_length (visited_dyads _ _ _ _ _ Hvis)).
    rewrite take_ge by done. rewrite dyads_length. unfold vsize, dyad_count.
    by replace (Z.of_nat (length vert_order))
      with (Z.max 0 (netSize (network (model this)))) by lia.
  - intros Hrate. apply length_zero_iff_nil.
    by rewrite Hrows, (visited_none_retained _ _ _ _ _ Hrate Hvis).
Qed.

(** The loop of the variational model frames, for a program that returns
    a permutation of the vertices as the vertex order. *)
Lemma frames_loop_spec (orders : prog (list Z)) (nOrders : Z) (w : world) :
  reservable this rate ->
  (forall w0, returns orders w0
     (fun v w' => v ≡ₚ seqZ 0 (netSize (network (model this)))
                  /\ Rcout w' = Rcout w0)) ->
  returns
    (for_range 0 nOrders
       (fun _ result =>
          vertices <- orders ;;
          r <- modelFrameGivenOrder this rate vertices ;;
          ret (result ++ [r])) [])
    w (fun rs w' => vsize rs = Z.max 0 nOrders
                    /\ Forall frame_ok rs /\ Rcout w' = Rcout w).
Proof.
  intros Hres Horders.
  eapply returns_mono.
  - apply (returns_for_range_max
             (fun i (rs : list frame_result) w' =>
                vsize rs = i /\ Forall frame_ok rs
                /\ Rcout w' = Rcout w)); [done|].
    intros i rs w0 Hi (Hlen & Hall & Hout).
    apply returns_bind.
    eapply returns_mono; [apply Horders|].
    intros v w1 [Hperm Hout1]. apply returns_bind.
    eapply returns_mono; [by apply modelFrameGivenOrder_frame_ok|].
    intros r w2 [Hr Hout2]. apply returns_ret.
    split; [unfold vsize in *; rewrite length_app; simpl; lia|].
    split; [|congruence].
    apply Forall_app. split; [done|by constructor].
  - done.
Qed.

(** X3. [variationalModelFrame] and [variationalModelFrameWithFunc] return
    [nOrders] frames (none when [nOrders] is not positive) and print
    nothing: the former for every engine whose vertex order fits, the
    latter when the ordering function returns a permutation of the
    vertices at every call and prints nothing.  Every frame has one column
    per statistic and one entry per label in every column; with a rate of
    1 every frame has a label for every dyad of the network, with a rate
    of 0 none. *)
Theorem variational_frames_count (nOrders : Z)
  (vertexOrderingFunction : prog (list Z)) (w : world) :
  order_fits this -> reservable this rate ->
  let K := length (thetas (internals (noTieModel this))) in
  let e := dyad_count (isDirected (network (noTieModel this)))
             (Z.max 0 (netSize (network (model this)))) in
  let good (rs : list frame_result) :=
    vsize rs = Z.max 0 nOrders
    /\ Forall (aligned K) rs
    /\ ((1 <= rate)%Q -> Forall (fun r => vsize (r_outcome r) = e) rs)
    /\ ((rate <= 0)%Q -> Forall (fun r => r_outcome r = []) rs) in
  (exists rs w',
     variationalModelFrame this nOrders rate w = Ok (rs, w')
     /\ good rs /\ Rcout w' = Rcout w)
  /\ ((forall w0, exists v w1,
         vertexOrderingFunction w0 = Ok (v, w1)
         /\ v ≡ₚ seqZ 0 (netSize (network (model this)))
         /\ Rcout w1 = Rcout w0) ->
      exists rs w',
        variationalModelFrameWithFunc this nOrders rate
          vertexOrderingFunction w = Ok (rs, w')
        /\ good rs /\ Rcout w' = Rcout w).
Proof.
  intros Hfit Hres K e good.
  assert (Hgood : forall rs, vsize rs = Z.max 0 nOrders ->
                             Forall frame_ok rs -> good rs).
  { intros rs Hlen Hall. split; [done|].
    split; [by eapply Forall_impl; [exact Hall|]; intros r [? _]|].
    split; intros Hrate; (eapply Forall_impl; [exact Hall|]);
      intros r (_ & H1 & H0); auto. }
  split.
  - destruct (returns_elim _ _ _
      (frames_loop_spec
         (make_vertices this (netSize (network (model this)))) nOrders w
         Hres (fun w0 => make_vertices_spec this w0 Hfit)))
      as (rs & w' & Hrun & Hlen & Hall & Hout).
    exists rs, w'. split; [done|]. split; [by apply Hgood|done].
  - intros Hfun.
    destruct (returns_elim _ _ _
      (frames_loop_spec vertexOrderingFunction nOrders w Hres
         ltac:(intros w0; destruct (Hfun w0) as (v & w1 & Hv & ? & ?);
               by apply (returns_intro _ _ _ _ _ Hv))))
      as (rs & w' & Hrun & Hlen & Hall & Hout).
    exists rs, w'. split; [done|]. split; [by apply Hgood|done].
Qed.
End VariationalFrames.

(** ** The generative sampler over a sampled edge order *)

Section Sampling.
Context {RS : RandomStream}.

(** The loops that draw the dyads fail only by reading [verts] outside its
    bounds, and the heads and tails they return have [count] entries more
    than before. *)
Lemma redraw_pair_shape (fuel : nat) (n ind_1 ind_2 : Z) (w : world) :
  match redraw_pair fuel n ind_1 ind_2 w with
  | None => True
  | Some (Fail f) => False
  | Some (Ok (a, b, w')) => a <> b /\ Rcout w' = Rcout w
  end.
Proof.
  revert ind_1 ind_2 w. induction fuel as [|fuel IH]; intros i1 i2 w;
    simpl; destruct (Z.eqb_spec i1 i2); try done.
  unfold draw_two, draw_index, bind, Rf_runif, ret. simpl.
  match goal with |- match redraw_pair _ _ ?a ?b ?w' with _ => _ end =>
    specialize (IH a b w') end.
  destruct (redraw_pair _ _ _ _ _) as [[[[a b] w']|]|]; try done.
Qed.

Lemma draw_pair_shape (fuel : nat) (n : Z) (w : world) :
  match draw_pair fuel n w with
  | None => True
  | Some (Fail f) => False
  | Some (Ok (a, b, w')) => a <> b /\ Rcout w' = Rcout w
  end.
Proof.
  unfold draw_pair, draw_two, draw_index, bind, Rf_runif, ret. simpl.
  match goal with |- match redraw_pair _ _ ?a ?b ?w' with _ => _ end =>
    pose proof (redraw_pair_shape fuel n a b w') as H end.
  destruct (redraw_pair _ _ _ _ _) as [[[[a b] w']|]|]; try done.
Qed.

Lemma sample_dyads_shape (fuel count : nat) (n : Z)
  (perm_head perm_tail : list Z) (w : world) :
  match sample_dyads fuel count n (seqZ 0 n) perm_head perm_tail w with
  | None => True
  | Some (Fail f) => f = UndefinedBehaviour
  | Some (Ok (heads, tails, w')) =>
      length heads = (length perm_head + count)%nat
      /\ length tails = (length perm_tail + count)%nat
      /\ Rcout w' = Rcout w
      /\ exists new_heads new_tails,
           heads = perm_head ++ new_heads /\ tails = perm_tail ++ new_tails
           /\ Forall (fun x => 0 <= x < n) new_heads
           /\ Forall (fun x => 0 <= x < n) new_tails
           /\ Forall2 (fun h t => h <> t) new_heads new_tails
  end.
Proof.
  revert perm_head perm_tail w.
  induction count as [|count IH]; intros heads tails w; simpl.
  - split; [lia|]. split; [lia|]. split; [done|].
    exists [], []. by rewrite !app_nil_r.
  - pose proof (draw_pair_shape fuel n w) as Hpair.
    destruct (draw_pair fuel n w) as [[[[i1 i2] w1]|]|]; try done.
    destruct Hpair as [Hne Hout1].
    destruct (vec_get (seqZ 0 n) i1) as [h|] eqn:Hh;
      [|by destruct f].
    destruct (vec_get (seqZ 0 n) i2) as [t|] eqn:Ht;
      [|by destruct f].
    apply vec_get_inv in Hh as [Hi1 Hh], Ht as [Hi2 Ht].
    apply lookup_seqZ in Hh as [-> Hh'], Ht as [-> Ht'].
    specialize (IH (heads ++ [0 + Z.of_nat (Z.to_nat i1)])
                   (tails ++ [0 + Z.of_nat (Z.to_nat i2)]) w1).
    destruct (sample_dyads _ _ _ _ _ _ _) as [[[[hs ts] w']|]|]; try done.
    destruct IH as (Hlh & Hlt & Hout & nh & nt & -> & -> & Hrh & Hrt & Hd).
    rewrite !length_app in Hlh, Hlt. simpl in Hlh, Hlt.
    split; [rewrite !length_app; simpl; lia|].
    split; [rewrite !length_app; simpl; lia|]. split; [congruence|].
    eexists (_ :: nh), (_ :: nt). rewrite <- !app_assoc. simpl.
    split; [done|]. split; [done|].
    split; [constructor; [lia|done]|].
    split; [constructor; [lia|done]|]. constructor; [lia|done].
Qed.
End Sampling.

Section SamplingUnit.
Context {RS : RandomStream} {US : UnitStream}.

(** With draws in [0, 1), an index drawn for [n >= 1] vertices is below
    [n]. *)
Lemma draw_floor_range (n : Z) (k : nat) :
  0 < n -> 0 <= Qfloor ((0 + (1 - 0) * unif_rand k) * inject_Z n) < n.
Proof.
  intros Hn. destruct (unit_stream k) as [H0 H1].
  assert (Hq : (0 < inject_Z n)%Q) by (by rewrite <- (Zlt_Qlt 0)).
  assert (Hu0 : (0 <= 0 + (1 - 0) * unif_rand k)%Q) by lra.
  assert (Hu1 : (0 + (1 - 0) * unif_rand k < 1)%Q) by lra.
  split.
  - rewrite <- (Qfloor_Z 0). apply Qfloor_resp_le.
    apply Qmult_le_0_compat; [done|lra].
  - rewrite Zlt_Qlt. eapply Qle_lt_trans; [apply Qfloor_le|].
    apply Qlt_le_trans with (1 * inject_Z n)%Q;
      [by apply Qmult_lt_compat_r|lra].
Qed.

Lemma redraw_pair_range (fuel : nat) (n ind_1 ind_2 : Z) (w : world) :
  0 < n -> 0 <= ind_1 < n -> 0 <= ind_2 < n ->
  match redraw_pair fuel n ind_1 ind_2 w with
  | Some (Ok (a, b, _)) => 0 <= a < n /\ 0 <= b < n
  | _ => True
  end.
Proof.
  intros Hn. revert ind_1 ind_2 w.
  induction fuel as [|fuel IH]; intros i1 i2 w H1 H2;
    simpl; destruct (Z.eqb_spec i1 i2); try done.
  unfold draw_two, draw_index, bind, Rf_runif, ret. simpl.
  apply IH; by apply draw_floor_range.
Qed.

Lemma draw_pair_range (fuel : nat) (n : Z) (w : world) :
  0 < n ->
  match draw_pair fuel n w with
  | Some (Ok (a, b, _)) => 0 <= a < n /\ 0 <= b < n
  | _ => True
  end.
Proof.
  intros Hn. unfold draw_pair, draw_two, draw_index, bind, Rf_runif, ret.
  simpl. apply redraw_pair_range; (done || by apply draw_floor_range).
Qed.

(** With draws in [0, 1) the loop that samples the dyads never reads
    [verts] outside its bounds. *)
Lemma sample_dyads_no_failure (fuel count : nat) (n : Z)
  (perm_head perm_tail : list Z) (w : world) (f : fault) :
  0 < n ->
  sample_dyads fuel count n (seqZ 0 n) perm_head perm_tail w
  <> Some (Fail f).
Proof.
  intros Hn. revert perm_head perm_tail w.
  induction count as [|count IH]; intros heads tails w; simpl; [done|].
  pose proof (draw_pair_range fuel n w Hn) as Hrange.
  pose proof (draw_pair_shape fuel n w) as Hshape.
  destruct (draw_pair fuel n w) as [[[[i1 i2] w1]|]|]; try done.
  destruct Hrange as [H1 H2].
  rewrite (vec_get_Ok (seqZ 0 n) i1 (0 + Z.of_nat (Z.to_nat i1)));
    [|lia|by apply lookup_seqZ; lia].
  rewrite (vec_get_Ok (seqZ 0 n) i2 (0 + Z.of_nat (Z.to_nat i2)));
    [|lia|by apply lookup_seqZ; lia].
  apply IH.
Qed.
End SamplingUnit.

Section Unconstrained.
Context {Net St : Type} {NO : NetworkOps Net} {MO : ModelOps Net St}.
Context {RS : RandomStream} {US : UnitStream} {LM : Libm}.
Context {RK : Ranker} {RL : RankerLaws}.
Context {NL : NetworkLaws} {ML : ModelLaws}.
Context (this : LatentOrderLikelihood Net St).

(** X13. [generateNetworkUnconstrained] counts [n(n-1)] dyads and halves the
    count when the network is directed, while the sampler it hands the edge
    order to, [generateNetworkWithEdgeOrder], halves the count when the
    network is not directed.  When the rate leaves no dyad to sample, the
    edge order is empty and the call runs into undefined behaviour; when
    it asks for more dyads than the sampler has slots for, the call never
    returns a network: either the loop that redraws equal indices does not
    come to an end, or the sampler writes past its list of change
    statistics.  The latter is the case of every network that is not
    directed, has two vertices or more and is sampled with a rate above
    1/2, the default rate of 1 included. *)
Theorem generateNetworkUnconstrained_needs_room
  (fuel : nat) (truncRate : Q) (w : world) :
  constructed this ->
  let net := network (model this) in
  let n := netSize net in
  let e := if isDirected net then n * (n - 1) / 2 else n * (n - 1) in
  let count := Qceiling (inject_Z e * truncRate) in
  let never_a_network :=
    generateNetworkUnconstrained fuel this truncRate w = None
    \/ generateNetworkUnconstrained fuel this truncRate w
       = Some (Fail UndefinedBehaviour) in
  (count <= 0 ->
   generateNetworkUnconstrained fuel this truncRate w
   = Some (Fail UndefinedBehaviour))
  /\ (dyad_count (isDirected net) n < count -> never_a_network)
  /\ (isDirected net = false -> 2 <= n -> (1 # 2 < truncRate)%Q ->
      never_a_network).
Proof.
  intros Hc net n e count never.
  assert (Hempty : count <= 0 ->
            generateNetworkUnconstrained fuel this truncRate w
            = Some (Fail UndefinedBehaviour)).
  { intros Hcount. unfold generateNetworkUnconstrained.
    fold net. fold n. fold e. fold count.
    replace (Z.to_nat count) with O by lia. simpl.
    reflexivity. }
  assert (Hover : dyad_count (isDirected net) n < count -> never).
  { intros Hcount. unfold never, generateNetworkUnconstrained.
    fold net. fold n. fold e. fold count.
    pose proof (sample_dyads_shape fuel (Z.to_nat count) n [] [] w)
      as Hshape.
    destruct (sample_dyads _ _ _ _ _ _ _) as [[[[heads tails] w1]|f]|];
      [|right; by rewrite Hshape|by left].
    destruct Hshape as (Hlh & Hlt & _). simpl in Hlh, Hlt.
    right. f_equal. unfold generateNetworkWithEdgeOrder, bind.
    rewrite (generateNetworkWithEdgeOrder_run_fails this heads tails w1
               Hc); [done|].
    right. right. right. fold net. fold n. unfold vsize. lia. }
  split; [done|]. split; [done|].
  intros Hdir Hn Hrate. apply Hover. rewrite Hdir. unfold dyad_count.
  unfold count, e. rewrite Hdir.
  assert (Heven : n * (n - 1) = 2 * (n * (n - 1) / 2)).
  { apply Z.div_exact; [done|].
    rewrite Z.mul_mod by done.
    destruct (Z.mod_pos_bound n 2 ltac:(done)) as [? ?].
    assert (Hcase : n mod 2 = 0 \/ n mod 2 = 1) by lia.
    assert (Hpred : (n - 1) mod 2 = (n mod 2 - 1) mod 2).
    { by rewrite Zminus_mod, Z.mod_1_l by done. }
    rewrite Hpred. by destruct Hcase as [-> | ->]. }
  set (h := n * (n - 1) / 2) in *.
  assert (Hh : 1 <= h) by nia.
  rewrite Zlt_Qlt.
  eapply Qlt_le_trans; [|apply Qle_ceiling].
  rewrite Heven, inject_Z_mult.
  assert (Hq : (1 <= inject_Z h)%Q) by (by rewrite <- (Zle_Qle 1)).
  change (inject_Z 2) with (2 # 1)%Q. nra.
Qed.

End Unconstrained.

(** ** The replay sampler over sampled edge orders *)

Lemma Qceiling_unique (y : Q) (z : Z) :
  (inject_Z (z - 1) < y)%Q -> (y <= inject_Z z)%Q -> Qceiling y = z.
Proof.
  intros Hlo Hhi.
  pose proof (Qle_ceiling y) as Hle. pose proof (Qceiling_lt y) as Hlt.
  assert (H1 : (inject_Z (z - 1) < inject_Z (Qceiling y))%Q)
    by (eapply Qlt_le_trans; eassumption).
  assert (H2 : (inject_Z (Qceiling y - 1) < inject_Z z)%Q)
    by (eapply Qlt_le_trans; eassumption).
  rewrite <- Zlt_Qlt in H1, H2. lia.
Qed.

(** The loop that adds dyads stops at once when its bound is reached. *)
Lemma dyads_added_done (x : Q) (s i : Z) :
  Qltb (inject_Z i) (x - inject_Z s) = false -> dyads_added x s i = O.
Proof.
  unfold Qltb, dyads_added. intros Hc. apply negb_false_iff in Hc.
  apply Qle_bool_iff in Hc.
  assert (Hle : ((x - inject_Z s - inject_Z i) / 2 <= 0)%Q).
  { apply Qle_shift_div_r; [done|]. lra. }
  apply Qceiling_resp_le in Hle. change (Qceiling 0%Q) with 0%Z in Hle. lia.
Qed.

(** An iteration of the loop moves the index and the size by one each. *)
Lemma dyads_added_step (x : Q) (s i : Z) :
  Qltb (inject_Z i) (x - inject_Z s) = true ->
  dyads_added x s i = Datatypes.S (dyads_added x (s + 1) (i + 1)).
Proof.
  unfold Qltb, dyads_added. intros Hc. apply negb_true_iff in Hc.
  assert (Hlt : (inject_Z i < x - inject_Z s)%Q).
  { apply Qnot_le_lt. intros Hle. apply Qle_bool_iff in Hle. congruence. }
  set (y := ((x - inject_Z (s + 1) - inject_Z (i + 1)) / 2)%Q).
  assert (Hy : ((x - inject_Z s - inject_Z i) / 2 == y + 1)%Q).
  { unfold y. rewrite !inject_Z_plus. change (inject_Z 1) with 1%Q. field. }
  assert (Hgt : (-1 < y)%Q).
  { unfold y. rewrite !inject_Z_plus. change (inject_Z 1) with 1%Q.
    apply Qlt_shift_div_l; [done|]. lra. }
  assert (Hpos : 0 <= Qceiling y).
  { assert (Hlt' : (inject_Z (-1) < inject_Z (Qceiling y))%Q).
    { eapply Qlt_le_trans; [exact Hgt|apply Qle_ceiling]. }
    rewrite <- Zlt_Qlt in Hlt'. lia. }
  assert (Hceil : Qceiling ((x - inject_Z s - inject_Z i) / 2)
                  = Qceiling y + 1).
  { apply Qceiling_unique.
    - rewrite Hy. replace (Qceiling y + 1 - 1) with (Qceiling y - 1 + 1)
        by lia.
      rewrite inject_Z_plus. change (inject_Z 1) with 1%Q.
      pose proof (Qceiling_lt y). lra.
    - rewrite Hy, inject_Z_plus. change (inject_Z 1) with 1%Q.
      pose proof (Qle_ceiling y). lra. }
  rewrite Hceil. lia.
Qed.

Section AddDyads.
Context {RS : RandomStream} {US : UnitStream}.

(** The loop that adds dyads, when it comes to an end, has added
    [dyads_added] heads and as many tails, all of them vertices, and no
    head equal to its tail; it prints nothing. *)
Lemma add_dyads_shape (fuel steps : nat) (x : Q) (n i : Z)
  (perm_heads perm_tails : list Z) (w : world) :
  ((0 < x)%Q -> 0 < n) -> 0 <= i ->
  match add_dyads fuel steps x n (seqZ 0 n) i perm_heads perm_tails w with
  | None => True
  | Some (Fail _) => False
  | Some (Ok (heads, tails, w')) =>
      Rcout w' = Rcout w
      /\ exists new_heads new_tails,
           heads = perm_heads ++ new_heads
           /\ tails = perm_tails ++ new_tails
           /\ length new_heads = dyads_added x (vsize perm_heads) i
           /\ length new_tails = dyads_added x (vsize perm_heads) i
           /\ Forall (fun v => 0 <= v < n) new_heads
           /\ Forall (fun v => 0 <= v < n) new_tails
           /\ Forall2 (fun h t => h <> t) new_heads new_tails
  end.
Proof.
  intros Hn. revert i perm_heads perm_tails w.
  induction steps as [|steps IH]; intros i heads tails w Hi; simpl;
    destruct (Qltb (inject_Z i) (x - inject_Z (vsize heads))) eqn:Hc;
    try done;
    try (split; [done|]; exists [], [];
         rewrite !app_nil_r, (dyads_added_done _ _ _ Hc);
         by repeat split).
  assert (Hpos : 0 < n).
  { apply Hn. unfold Qltb in Hc. apply negb_true_iff in Hc.
    assert (Hlt : (inject_Z i < x - inject_Z (vsize heads))%Q).
    { apply Qnot_le_lt. intros Hle. apply Qle_bool_iff in Hle.
      congruence. }
    assert (H0 : (0 <= inject_Z i)%Q) by (by rewrite <- (Zle_Qle 0)).
    assert (H1 : (0 <= inject_Z (vsize heads))%Q).
    { rewrite <- (Zle_Qle 0). unfold vsize. lia. }
    lra. }
  pose proof (draw_pair_range fuel n w Hpos) as Hrange.
  pose proof (draw_pair_shape fuel n w) as Hshape.
  destruct (draw_pair fuel n w) as [[[[i1 i2] w1]|]|]; try done.
  destruct Hrange as [H1 H2]. destruct Hshape as [Hne Hout1].
  rewrite (vec_get_Ok (seqZ 0 n) i1 (0 + Z.of_nat (Z.to_nat i1)));
    [|lia|by apply lookup_seqZ; lia].
  rewrite (vec_get_Ok (seqZ 0 n) i2 (0 + Z.of_nat (Z.to_nat i2)));
    [|lia|by apply lookup_seqZ; lia].
  specialize (IH (i + 1) (heads ++ [0 + Z.of_nat (Z.to_nat i1)])
                (tails ++ [0 + Z.of_nat (Z.to_nat i2)]) w1 ltac:(lia)).
  destruct (add_dyads _ _ _ _ _ _ _ _ _) as [[[[hs ts] w']|]|]; try done.
  destruct IH as (Hout & nh & nt & -> & -> & Hlh & Hlt & Hrh & Hrt & Hd).
  split; [congruence|].
  exists ((0 + Z.of_nat (Z.to_nat i1)) :: nh),
         ((0 + Z.of_nat (Z.to_nat i2)) :: nt).
  rewrite <- !app_assoc. split; [done|]. split; [done|].
  assert (Hsize : vsize (heads ++ [0 + Z.of_nat (Z.to_nat i1)])
                  = vsize heads + 1).
  { unfold vsize. rewrite length_app. simpl. lia. }
  rewrite Hsize in Hlh, Hlt. rewrite (dyads_added_step _ _ _ Hc). simpl.
  split; [by rewrite Hlh|]. split; [by rewrite Hlt|].
  split; [constructor; [lia|done]|].
  split; [constructor; [lia|done]|]. constructor; [lia|done].
Qed.
End AddDyads.

Section FramesUnconstrainedSpec.
Context {Net St : Type} {NO : NetworkOps Net} {MO : ModelOps Net St}.
Context {EL : EdgeListOps Net}.
Context {RS : RandomStream} {US : UnitStream}.
Context {RK : Ranker} {RL : RankerLaws}.
Context {NL : NetworkLaws} {ML : ModelLaws}.
Context (this : LatentOrderLikelihood Net St) (rate : Q).

Let directed : bool := isDirected (network (noTieModel this)).

(** The shuffles of the heads and of the tails and the frame of the edge
    order they leave. *)
Lemma frame_of_shuffled_spec (perm_heads perm_tails : list Z) (w : world) :
  order_fits this -> reservable this rate ->
  length perm_heads = length perm_tails ->
  exists heads tails r w',
    frame_of_shuffled this rate perm_heads perm_tails w
    = Ok (heads, tails, r, w')
    /\ heads ≡ₚ perm_heads /\ tails ≡ₚ perm_tails
    /\ Rcout w' = Rcout w
    /\ ((1 <= rate)%Q ->
        vsize (r_outcome r) = frame_rows directed (vsize perm_heads))
    /\ ((rate <= 0)%Q -> r_outcome r = []).
Proof.
  intros Hfit Hres Hlen. unfold frame_of_shuffled.
  destruct (returns_elim _ _ _
              (shuffle_spec perm_heads (vsize perm_heads) w ltac:(lia)))
    as (heads & w1 & Hheads & Hph & _ & Hlh & Hout1).
  destruct (returns_elim _ _ _
              (shuffle_spec perm_tails (vsize perm_tails) w1 ltac:(lia)))
    as (tails & w2 & Htails & Hpt & _ & Hlt & Hout2).
  unfold vsize in Hph, Hpt. rewrite Nat2Z.id in Hph, Hpt.
  rewrite !take_ge in Hph, Hpt by lia.
  destruct (modelFrameGivenEdgeOrder_run_frame this rate heads tails w2
              Hfit Hres ltac:(unfold vsize; lia))
    as (s & w' & vo & wv & _ & Hrun & _ & Hout & Hone & Hzero).
  apply (modelFrameGivenEdgeOrder_of_run this) in Hrun.
  set (r := mkFrameResult (f_outcome s) (f_predictors s)) in *.
  exists heads, tails, r, w'.
  split.
  { unfold bind. rewrite Hheads, Htails, Hrun. done. }
  split; [done|]. split; [done|]. split; [congruence|].
  split.
  - intros Hrate. destruct (Hone Hrate) as [_ Hsize].
    change (r_outcome r) with (f_outcome s).
    rewrite Hsize. unfold frame_rows, directed, vsize. by rewrite Hlh.
  - intros Hrate. by destruct (Hzero Hrate).
Qed.

(** The loop over the orders. *)
Lemma frames_unconstrained_spec (fuel : nat) (x : Q) (n : Z) (orders : nat)
  (perm_heads perm_tails : list Z) (result : list frame_result)
  (w : world) :
  order_fits this -> reservable this rate ->
  ((0 < x)%Q -> 0 < n) ->
  length perm_heads = length perm_tails ->
  match frames_unconstrained fuel this rate x n orders perm_heads
          perm_tails result w with
  | None => True
  | Some (Fail _) => False
  | Some (Ok (rs, w')) =>
      Rcout w' = Rcout w
      /\ exists new,
           rs = result ++ new
           /\ length new = orders
           /\ ((1 <= rate)%Q ->
               (fun r => vsize (r_outcome r)) <$> new
               = frame_rows directed
                 <$> edge_order_sizes x (vsize perm_heads) orders)
           /\ ((rate <= 0)%Q -> Forall (fun r => r_outcome r = []) new)
  end.
Proof.
  intros Hfit Hres Hn. revert perm_heads perm_tails result w.
  induction orders as [|orders IH]; intros heads tails result w Hlen;
    simpl.
  { split; [done|]. exists []. rewrite app_nil_r. by repeat split. }
  pose proof (add_dyads_shape fuel fuel x n 0 heads tails w Hn
                ltac:(done)) as Hadd.
  destruct (add_dyads _ _ _ _ _ _ _ _ _) as [[[[h1 t1] w1]|]|]; try done.
  destruct Hadd as (Hout1 & nh & nt & -> & -> & Hlh & Hlt & _).
  destruct (frame_of_shuffled_spec (heads ++ nh) (tails ++ nt) w1 Hfit
              Hres)
    as (h2 & t2 & r & w2 & Hrun & Hph & Hpt & Hout2 & Hone & Hzero).
  { rewrite !length_app. lia. }
  rewrite Hrun.
  specialize (IH h2 t2 (result ++ [r]) w2).
  assert (Hsize : vsize (heads ++ nh)
                  = vsize heads + Z.of_nat (dyads_added x (vsize heads) 0)).
  { unfold vsize. rewrite length_app, Hlh. unfold vsize. lia. }
  assert (Hsize2 : vsize h2 = vsize (heads ++ nh)).
  { unfold vsize. by rewrite (Permutation_length Hph). }
  destruct (frames_unconstrained _ _ _ _ _ _ _ _ _ _)
    as [[[rs w']|]|]; try done.
  - destruct IH as (Hout & new & -> & Hnew & Hones & Hzeros).
    { rewrite (Permutation_length Hph), (Permutation_length Hpt),
        !length_app. lia. }
    split; [congruence|]. exists (r :: new).
    rewrite <- app_assoc. split; [done|]. split; [simpl; lia|].
    split.
    + intros Hrate. cbn [edge_order_sizes]. rewrite !fmap_cons.
      rewrite (Hone Hrate), (Hones Hrate). by rewrite Hsize2, Hsize.
    + intros Hrate. constructor; [by apply Hzero|by apply Hzeros].
  - apply IH.
    rewrite (Permutation_length Hph), (Permutation_length Hpt),
      !length_app. lia.
Qed.

End FramesUnconstrainedSpec.

(** ** Scenarios on the concrete network and model *)

Module Scenarios.
Import EdgeCount EdgeCountLaws.

Lemma engine_constructed (k : nat) (g : graph) :
  constructed (engine_of (null_model k None g)).
Proof. by exists (null_model k None g), w0, w0. Qed.




Lemma replay_rate_zero_rebuilds_observed_witness :
  exists s w',
    modelFrameGivenOrder_run (RS := half_stream)
      (engine_of (null_model 1 None triangle)) 0 [2; 0; 1] w0
    = Ok (s, w')
    /\ f_outcome s = []
    /\ hasEdge (network (f_runningModel s)) 2 0 = true
    /\ hasEdge (network (f_runningModel s)) 0 2 = false.
Proof.
  destruct (replay_rate_zero_rebuilds_observed (RS := half_stream)
              (US := half_unit)
              (engine_of (null_model 1 None triangle)) [2; 0; 1] w0)
    as (s & w' & Hs & _ & Hout & _ & Hedges).
  - apply engine_constructed.
  - apply (bool_decide_unpack _). vm_compute. reflexivity.
  - exists s, w'. split; [exact Hs|]. split; [exact Hout|].
    split; rewrite Hedges; try reflexivity;
      apply (bool_decide_unpack _); vm_compute; reflexivity.
Defined.


(** The engine for the directed graph [triangle]. *)
Lemma triangle_engine_gen_wf :
  gen_wf (gen_start (engine_of (null_model 1 None triangle)) [] []).
Proof. by repeat split. Qed.




Lemma range_warning_then_completion_witness :
  exists r w',
    generateNetworkWithEdgeOrder (RS := half_stream)
      (engine_of (null_model 1 None triangle)) [0; 3] [2; 1] w0
    = Ok (r, w')
    /\ Rcout w' = [range_warning].
Proof.
  destruct (range_warning_then_completion (RS := half_stream)
              (US := half_unit) (RL := positional_ranker_laws)
              (engine_of (null_model 1 None triangle)) [0; 3] [2; 1] w0
              (engine_constructed 1 triangle))
    as [Hgen _].
  - intros Hd. discriminate Hd.
  - intros Hd. discriminate Hd.
  - exists 3. split; [|simpl; lia].
    left. apply list_elem_of_In. simpl. auto.
  - destruct Hgen as (r & w' & Hr & Hout).
    + unfold vsize. simpl. lia.
    + unfold vsize. simpl. lia.
    + exists r, w'. split; [exact Hr|exact Hout].
Defined.

(** C8, refuted as stated.  [modelFrameGivenEdgeOrder] does not look at
    the vertices of the edge order: with the head 5 on three vertices it
    returns and nothing is printed.  [generateNetworkWithEdgeOrder] only
    compares the largest vertex with [n - 1]: with the tail -1 it returns
    and nothing is printed. *)
Lemma edge_order_out_of_range_unreported :
  (exists r k,
     modelFrameGivenEdgeOrder (RS := half_stream)
       (engine_of (null_model 1 None triangle)) (1 # 2) [5] [0] w0
     = Ok (r, World k []))
  /\ (exists r k,
        generateNetworkWithEdgeOrder (RS := half_stream)
          (engine_of (null_model 1 None triangle)) [0] [-1] w0
        = Ok (r, World k [])).
Proof.
  split.
  - match eval vm_compute in
      (modelFrameGivenEdgeOrder (RS := half_stream)
         (engine_of (null_model 1 None triangle)) (1 # 2) [5] [0] w0)
    with Ok (?r, World ?k _) => exists r, k end.
    vm_compute. reflexivity.
  - match eval vm_compute in
      (generateNetworkWithEdgeOrder (RS := half_stream)
         (engine_of (null_model 1 None triangle)) [0] [-1] w0)
    with Ok (?r, World ?k _) => exists r, k end.
    vm_compute. reflexivity.
Qed.

(** C5, on a failing input.  On three vertices, with the generated vertex
    order 1, 2, 0: [modelFrameGivenEdgeOrder] passes the actor index 0 for
    the tail 2, which is at position 1, and [generateNetworkWithEdgeOrder]
    passes the actor index 1 for the tail 0, which is at position 2.
    [calcChangeStats] passes the positions: 1 for the tail 2, 2 for the
    tail 0. *)
Theorem edge_order_actor_index_constant :
  (exists s w',
     modelFrameGivenEdgeOrder_run (RS := half_stream)
       (engine_of (null_model 1 None triangle)) 1 [0] [2] w0 = Ok (s, w')
     /\ f_workingVertOrder s = [1; 2; 0]
     /\ find_actor 3 [1; 2; 0] 2 = Ok (Some 1)
     /\ s_calls (internals (f_runningModel s)) = [(2, 0, 0); (0, 2, 0)])
  /\ (exists s r w',
        generateNetworkWithEdgeOrder_run (RS := half_stream)
          (engine_of (null_model 1 None triangle)) [1] [0] w0
        = Ok ((s, r), w')
        /\ g_workingVertOrder s = [1; 2; 0]
        /\ find_actor 3 [1; 2; 0] 0 = Ok (Some 2)
        /\ s_calls (internals (g_runningModel s)) = [(0, 1, 1)])
  /\ (exists s w',
        calcChangeStats_run (RS := half_stream)
          (engine_of (null_model 1 None triangle))
          [0; 1; 1; 2; 2; 0] [2; 0; 2; 0; 1; 1] w0
        = Ok ((s, [1; 2; 0]), w')
        /\ s_calls (internals (c_runningModel s))
           = [(2, 0, 1); (0, 1, 2); (2, 1, 1); (0, 2, 2); (1, 2, 0);
              (1, 0, 0)]).
Proof.
  split; [|split].
  - match eval vm_compute in
      (modelFrameGivenEdgeOrder_run (RS := half_stream)
         (engine_of (null_model 1 None triangle)) 1 [0] [2] w0)
    with Ok (?s, ?w') => exists s, w' end.
    by vm_compute.
  - match eval vm_compute in
      (generateNetworkWithEdgeOrder_run (RS := half_stream)
         (engine_of (null_model 1 None triangle)) [1] [0] w0)
    with Ok ((?s, ?r), ?w') => exists s, r, w' end.
    by vm_compute.
  - match eval vm_compute in
      (calcChangeStats_run (RS := half_stream)
         (engine_of (null_model 1 None triangle))
         [0; 1; 1; 2; 2; 0] [2; 0; 2; 0; 1; 1] w0)
    with Ok ((?s, _), ?w') => exists s, w' end.
    by vm_compute.
Qed.

(** C7, on a failing input.  The constructor refuses a model whose vertex
    order has two entries for three vertices; [setModel] accepts it, and on
    the engine it returns [generateNetworkWithEdgeOrder] reads the vertex
    order beyond its end. *)
Theorem setModel_accepts_unfit_order :
  LatentOrderLikelihood_new unfit_model w0
  = Fail (RfError "Vertex ordering does not have the same number of elements as there are vertices in the network 95.")
  /\ exists this',
       setModel (engine_of (null_model 1 None triangle)) unfit_model w0
       = Ok (this', w0)
       /\ vsize (getVertexOrder (internals (model this'))) = 2
       /\ netSize (network (model this')) = 3
       /\ generateNetworkWithEdgeOrder (RS := half_stream) this' [0] [2] w0
          = Fail UndefinedBehaviour.
Proof.
  split; [done|].
  match eval vm_compute in
    (setModel (engine_of (null_model 1 None triangle)) unfit_model w0)
  with Ok (?t, _) => exists t end.
  by vm_compute.
Qed.
End Scenarios.

(** ** Further scenarios on the concrete network and model *)

Module MoreScenarios.
Import EdgeCount EdgeCountLaws.

(** A decidable proposition that holds by evaluation. *)
Ltac by_evaluation := apply (bool_decide_unpack _); vm_compute; reflexivity.

(** A hypothesis that is the goal once both are evaluated. *)
Ltac evaluated H :=
  match goal with |- ?G => exact (H <: G) end.

Lemma alternating_unit : @UnitStream alternating_stream.
Proof.
  intros k. unfold unif_rand, alternating_stream.
  destruct (Nat.even k); split; lra.
Qed.

Lemma null_engine_constructed (k : nat) (g : graph) :
  constructed (engine_of (null_model k None g)).
Proof. by exists (null_model k None g), w0, w0. Qed.

Lemma null_engine_order_fits (k : nat) (g : graph) :
  order_fits (engine_of (null_model k None g)).
Proof. intros Ho. simpl in Ho. discriminate Ho. Qed.

Lemma null_engine_reservable (k : nat) (g : graph) (rate : Q) :
  (0 <= rate)%Q -> 0 <= graph_maxEdges g ->
  reservable (engine_of (null_model k None g)) rate.
Proof.
  intros Hrate Hmax. right.
  assert (0 <= Qfloor (rate * inject_Z
            (maxEdges (network (noTieModel (engine_of
               (null_model k None g))))))); [|lia].
  rewrite <- (Qfloor_Z 0). apply Qfloor_resp_le.
  apply Qmult_le_0_compat; [done|]. by rewrite <- (Zle_Qle 0).
Qed.

Lemma shuffle_permutation_and_draws_witness :
  exists vec' w',
    shuffle (RS := half_stream) [0; 1; 2; 3] 3 w0 = Ok (vec', w')
    /\ vec' ≡ₚ [0; 1; 2; 3]
    /\ rng_pos w' = 2%nat
    /\ Rcout w' = [].
Proof.
  destruct (shuffle_permutation_and_draws (RS := half_stream)
              (US := half_unit) [0; 1; 2; 3] 3 w0)
    as (vec' & w' & Hrun & Hperm & Hpos & Hout & _).
  - by_evaluation.
  - exists vec', w'. split; [exact Hrun|]. split; [exact Hperm|].
    split; [evaluated Hpos|exact Hout].
Defined.

Lemma generateOrder_sorts_by_rank_witness :
  exists y r w',
    generateOrder (RK := positional_ranker) [] [5; 3; 9] w0 = Ok (r, w')
    /\ r ≡ₚ seqZ 0 3
    /\ sorted_by y r.
Proof.
  destruct (generateOrder_sorts_by_rank (RK := positional_ranker)
              (RL := positional_ranker_laws) [] [5; 3; 9] w0)
    as (y & r & w' & _ & Hrun & Hperm & Hsorted & _).
  exists y, r, w'. split; [exact Hrun|]. split; [exact Hperm|].
  exact Hsorted.
Defined.

Lemma rank_order_round_trip_witness :
  exists rankOrder,
    rank_order [2; 0; 1] w0 = Ok (rankOrder, w0)
    /\ rank_order rankOrder w0 = Ok ([2; 0; 1], w0).
Proof.
  destruct (rank_order_round_trip [2; 0; 1] 3 w0)
    as (rankOrder & Hrun & _ & Hback).
  - by_evaluation.
  - exists rankOrder. split; [exact Hrun|exact Hback].
Defined.

Lemma modelFrameGivenOrder_short_order_undefined_witness :
  modelFrameGivenOrder (RS := half_stream) on_square 1 [0; 1] w0
  = Fail UndefinedBehaviour.
Proof.
  apply (modelFrameGivenOrder_short_order_undefined (RS := half_stream)
           (US := half_unit) on_square 1 [0; 1] w0).
  - by apply null_engine_reservable.
  - by_evaluation.
Defined.



Lemma modelFrameGivenOrder_draws_witness :
  exists r w',
    modelFrameGivenOrder (RS := half_stream) on_square 1 [2; 0; 3; 1] w0
    = Ok (r, w')
    /\ rng_pos w' = 9%nat
    /\ Rcout w' = [].
Proof.
  destruct (modelFrameGivenOrder_draws (RS := half_stream)
              (US := half_unit) on_square 1 [2; 0; 3; 1] w0)
    as (r & w' & Hrun & Hpos & Hout).
  - by apply null_engine_reservable.
  - by_evaluation.
  - exists r, w'. split; [exact Hrun|].
    split; [evaluated Hpos|exact Hout].
Defined.

Lemma generateNetworkWithOrder_draws_witness :
  exists r w',
    generateNetworkWithOrder (RS := half_stream) on_triangle [2; 0; 1]
      true w0 = Ok (r, w')
    /\ rng_pos w' = 7%nat
    /\ Rcout w' = [].
Proof.
  destruct (generateNetworkWithOrder_draws (RS := half_stream)
              (US := half_unit) on_triangle [2; 0; 1] true w0)
    as (r & w' & Hrun & Hpos & Hout).
  - apply null_engine_constructed.
  - by_evaluation.
  - exists r, w'. split; [exact Hrun|].
    split; [evaluated Hpos|exact Hout].
Defined.

Lemma generateNetworkWithOrder_bad_order_undefined_witness :
  generateNetworkWithOrder (RS := half_stream) on_square [0; 1; 2; 7]
    false w0 = Fail UndefinedBehaviour.
Proof.
  apply (generateNetworkWithOrder_bad_order_undefined (RS := half_stream)
           (US := half_unit) on_square [0; 1; 2; 7] false w0).
  - apply null_engine_constructed.
  - right. do 3 apply Exists_cons_tl. apply Exists_cons_hd.
    right. by_evaluation.
Defined.

Lemma generateNetworkWithOrder_change_statistics_witness :
  exists r w' cs,
    generateNetworkWithOrder (RS := half_stream) on_square [2; 0; 3; 1]
      true w0 = Ok (r, w')
    /\ r_changeStats r = Some cs
    /\ vsize cs = 6
    /\ Forall (filled 1) cs.
Proof.
  destruct (generateNetworkWithOrder_change_statistics
              (RS := half_stream) (US := half_unit) on_square
              [2; 0; 3; 1] true w0)
    as (r & w' & Hrun & _ & _ & _ & _ & Hcs).
  - apply null_engine_constructed.
  - by_evaluation.
  - by_evaluation.
  - destruct (Hcs eq_refl) as (cs & Hsome & Hsize & Hfilled).
    exists r, w', cs. split; [exact Hrun|]. split; [exact Hsome|].
    split; [evaluated Hsize|evaluated Hfilled].
Defined.

Lemma generateNetworkWithEdgeOrder_malformed_order_undefined_witness :
  generateNetworkWithEdgeOrder (RS := half_stream) on_triangle [0] [1; 2]
    w0 = Fail UndefinedBehaviour.
Proof.
  apply (generateNetworkWithEdgeOrder_malformed_order_undefined
           (RS := half_stream) (US := half_unit)
           (RL := positional_ranker_laws) on_triangle [0] [1; 2] w0).
  - apply null_engine_constructed.
  - right. right. left. by_evaluation.
Defined.

Lemma generateNetworkWithEdgeOrder_change_statistics_witness :
  exists r w' (cs : list (option (list Q))),
    generateNetworkWithEdgeOrder (RS := half_stream) on_triangle [0; 1]
      [2; 0] w0 = Ok (r, w')
    /\ r_changeStats r = Some cs
    /\ vsize cs = 6
    /\ slots_filled 1 2 cs
    /\ cs !! 2%nat = Some None
    /\ Rcout w' = [].
Proof.
  destruct (generateNetworkWithEdgeOrder_change_statistics
              (RS := half_stream) (US := half_unit)
              (RL := positional_ranker_laws) on_triangle [0; 1] [2; 0]
              w0)
    as (r & w' & cs & Hrun & Hsome & Hsize & Hfilled & Hrest & _ & _ & _
        & Hquiet).
  - apply null_engine_constructed.
  - discriminate.
  - discriminate.
  - by_evaluation.
  - by_evaluation.
  - exists r, w', cs. split; [exact Hrun|]. split; [exact Hsome|].
    split; [evaluated Hsize|]. split; [evaluated Hfilled|].
    split; [apply Hrest; by_evaluation|].
    apply Hquiet. intros (x & Hx & Hbig). change (3 <= x) in Hbig.
    destruct Hx as [Hx|Hx]; apply list_elem_of_In in Hx; simpl in Hx; lia.
Defined.


Lemma modelFrameGivenEdgeOrder_short_tails_undefined_witness :
  modelFrameGivenEdgeOrder (RS := half_stream) on_triangle 1 [0; 1] [2]
    w0 = Fail UndefinedBehaviour.
Proof.
  apply (modelFrameGivenEdgeOrder_short_tails_undefined
           (RS := half_stream) (US := half_unit)
           (RL := positional_ranker_laws) on_triangle 1 [0; 1] [2] w0).
  - apply null_engine_order_fits.
  - by apply null_engine_reservable.
  - by_evaluation.
Defined.

Lemma modelFrameGivenEdgeOrder_labels_edge_order_witness :
  exists r w',
    modelFrameGivenEdgeOrder (RS := half_stream) on_triangle 1 [0; 1]
      [2; 0] w0 = Ok (r, w')
    /\ r_outcome r = label triangle <$> edge_dyads true [0; 1] [2; 0]
    /\ vsize (r_outcome r) = 4
    /\ Rcout w' = [].
Proof.
  destruct (modelFrameGivenEdgeOrder_labels_edge_order
              (RS := half_stream) (US := half_unit)
              (RL := positional_ranker_laws) on_triangle 1 [0; 1] [2; 0]
              w0)
    as (r & w' & vo & w1 & _ & Hrun & _ & Hout & Hone & _).
  - apply null_engine_order_fits.
  - by apply null_engine_reservable.
  - by_evaluation.
  - destruct Hone as [Hlabels Hsize]; [unfold Qle; simpl; lia|].
    exists r, w'. split; [exact Hrun|]. split; [evaluated Hlabels|].
    split; [evaluated Hsize|exact Hout].
Defined.

Lemma calcChangeStats_passes_position_witness :
  exists k,
    [1; 2; 0] !! Z.to_nat k = Some 2
    /\ calc_body on_triangle 3 1 [1; 2; 0] [0] [2] 0
         (mkCalc (null_model 1 None triangle) 1 [None]) w0
       = Ok (calc_step on_triangle [1; 2; 0] 0 2 0 k
               (mkCalc (null_model 1 None triangle) 1 [None]), w0).
Proof.
  destruct (calcChangeStats_passes_position on_triangle [1; 2; 0] [0] [2]
              0 2 0 (mkCalc (null_model 1 None triangle) 1 [None]) w0)
    as [Hfound _].
  - by_evaluation.
  - by_evaluation.
  - reflexivity.
  - reflexivity.
  - reflexivity.
  - destruct Hfound as (k & Hk & Hrun); [by_evaluation|].
    exists k. split; [exact Hk|evaluated Hrun].
Defined.

Lemma calcChangeStats_short_order_undefined_witness :
  calcChangeStats (RS := half_stream) on_triangle [0; 1] [2; 0] w0
  = Fail UndefinedBehaviour.
Proof.
  apply (calcChangeStats_short_order_undefined (RS := half_stream)
           (US := half_unit) (RL := positional_ranker_laws) on_triangle
           [0; 1] [2; 0] w0).
  - apply null_engine_constructed.
  - right. right. left. by_evaluation.
Defined.

Lemma calcChangeStats_fills_every_slot_witness :
  exists (r : list (option (list Q))) w',
    calcChangeStats (RS := half_stream) on_triangle [0; 1; 1; 2; 2; 0]
      [2; 0; 2; 0; 1; 1] w0 = Ok (r, w')
    /\ vsize r = 6
    /\ Forall (filled 1) r.
Proof.
  destruct (calcChangeStats_fills_every_slot (RS := half_stream)
              (US := half_unit) (RL := positional_ranker_laws)
              on_triangle [0; 1; 1; 2; 2; 0] [2; 0; 2; 0; 1; 1] w0)
    as (r & w' & vo & w1 & _ & Hrun & Hsize & Hfilled & _).
  - apply null_engine_constructed.
  - discriminate.
  - discriminate.
  - by_evaluation.
  - by_evaluation.
  - exists r, w'. split; [exact Hrun|].
    split; [evaluated Hsize|evaluated Hfilled].
Defined.


Lemma generateNetworkReturnChanges_fills_every_slot_witness :
  exists r w' cs,
    generateNetworkReturnChanges (RS := half_stream) on_square w0
    = Ok (r, w')
    /\ r_changeStats r = Some cs
    /\ vsize cs = 6
    /\ Forall (filled 1) cs
    /\ Rcout w' = [].
Proof.
  destruct (generateNetworkReturnChanges_fills_every_slot
              (RS := half_stream) (US := half_unit)
              (RL := positional_ranker_laws) on_square w0)
    as (vo & w1 & r & w' & cs & g & rankOrder & _ & _ & _ & Hrun & Hsome
        & Hsize & Hfilled & _ & _ & Hout).
  - apply null_engine_constructed.
  - by_evaluation.
  - exists r, w', cs. split; [exact Hrun|]. split; [exact Hsome|].
    split; [evaluated Hsize|]. split; [evaluated Hfilled|exact Hout].
Defined.


Lemma variational_frames_count_witness :
  (exists rs w',
     variationalModelFrame (RS := half_stream) on_square 2 1 w0
     = Ok (rs, w')
     /\ vsize rs = 2
     /\ Forall (fun r => vsize (r_outcome r) = 6) rs
     /\ Rcout w' = [])
  /\ (exists rs w',
        variationalModelFrameWithFunc (RS := half_stream) on_square 2 1
          (ret [2; 0; 3; 1]) w0 = Ok (rs, w')
        /\ vsize rs = 2
        /\ Forall (aligned 1) rs).
Proof.
  destruct (variational_frames_count (RS := half_stream)
              (US := half_unit) (RL := positional_ranker_laws) on_square
              1 2 (ret [2; 0; 3; 1]) w0)
    as [Hshuffled Hfunc].
  - apply null_engine_order_fits.
  - by apply null_engine_reservable.
  - split.
    + destruct Hshuffled as (rs & w' & Hrun & (Hsize & _ & Hfull & _)
                             & Hout).
      exists rs, w'. split; [exact Hrun|]. split; [evaluated Hsize|].
      split; [|exact Hout].
      assert (Hrate : (1 <= 1)%Q) by (unfold Qle; simpl; lia).
      pose proof (Hfull Hrate) as Hall. evaluated Hall.
    + destruct Hfunc as (rs & w' & Hrun & (Hsize & Hal & _) & _).
      * intros w. exists [2; 0; 3; 1], w.
        split; [reflexivity|]. split; [by_evaluation|reflexivity].
      * exists rs, w'. split; [exact Hrun|].
        split; [evaluated Hsize|evaluated Hal].
Defined.

Lemma generateNetworkUnconstrained_needs_room_witness :
  generateNetworkUnconstrained (RS := alternating_stream) 5 on_square 1 w0
  = None
  \/ generateNetworkUnconstrained (RS := alternating_stream) 5 on_square 1
       w0 = Some (Fail UndefinedBehaviour).
Proof.
  destruct (generateNetworkUnconstrained_needs_room
              (RS := alternating_stream) (US := alternating_unit)
              (RL := positional_ranker_laws) on_square 5 1 w0)
    as (_ & _ & Hdefault).
  - apply null_engine_constructed.
  - apply Hdefault; [reflexivity|by_evaluation|reflexivity].
Defined.


End MoreScenarios.
